(** * mqtt2prometheus: the metric pipeline and the configuration resolver

    A shallow embedding of [pkg/metrics] (the parser: [parseMetric],
    [getMetricState], [enforceMonotonicy], [evalExpressionValue],
    [evalExpressionLabel]) and of [pkg/config] ([LoadConfig],
    [DynamicLabelsKeys]).

    - Go's [float64] is Rocq's primitive binary64 [float]: [+], [*] and [<]
      are the IEEE 754 operations the Go program runs.
    - [interface{}] is the inductive [any].
    - Go maps are stdpp [gmap]s; a map field that can be [nil] is an
      [option (gmap _ _)].
    - A method of [*Parser] is a computation in the monad [M]: it threads a
      [World] (the parser with its state cache, the state directory on disk
      and the clock) and ends in a value, in a returned [error], or in a
      run-time panic.
    - The expression language ([expr.Compile], [expr.Run]) and the Go
      standard library functions the code calls ([strconv.ParseFloat],
      [fmt.Sprint]) are outside the repository: they are the fields of the
      class [Externals]. *)

From Stdlib Require Import ZArith Lia List Bool Floats.
From Stdlib Require Import Sorting.Sorted.
From stdpp Require Import gmap strings list fin_maps sorting.

Local Open Scope string_scope.
Local Open Scope list_scope.

(* ===================================================================== *)
(** * Values and time *)
(* ===================================================================== *)

(** The functions of the default expression environment. *)
Inductive builtin :=
| fn_now | fn_int | fn_float | fn_round | fn_ceil | fn_floor
| fn_abs | fn_min | fn_max.

(** A Go [interface{}] as the parser meets it: a decoded payload (bool,
    string, float64, array, null) or a value of the expression environment. *)
#[warnings="-register-all"]
Inductive any :=
| VNil
| VBool (b : bool)
| VFloat (f : float)
| VString (s : string)
| VDuration (d : Z)
| VFunc (f : builtin)
| VList (l : list any).

(** [time.Time] as nanoseconds, [0] being the zero time ([IsZero]);
    [time.Duration] is an int64 of nanoseconds and [Time.Sub] saturates. *)
Definition Time := Z.
Definition zeroTime : Time := 0%Z.
Definition Time_IsZero (t : Time) : bool := (t =? 0)%Z.

Definition minDuration : Z := (- 2 ^ 63)%Z.
Definition maxDuration : Z := (2 ^ 63 - 1)%Z.
Definition Minute : Z := 60000000000%Z.

Definition Sub (t u : Time) : Z :=
  let d := (t - u)%Z in
  if (d <? minDuration)%Z then minDuration
  else if (maxDuration <? d)%Z then maxDuration
  else d.

(* ===================================================================== *)
(** * pkg/config: the data model *)
(* ===================================================================== *)

(** [Regexp]: the compiled expression [r] (nil when unset) and its source.
    A compiled [*regexp.Regexp] is what the code asks of it: [MatchString]
    and [SubexpNames]. *)
Record regexp := {
  MatchString : string → bool;
  SubexpNames : list string
}.

Record Regexp := {
  r : option regexp;
  pattern : string
}.

Record StringValueMappingConfig := {
  SVM_ErrorValue : option float;
  Map : gmap string float
}.

Record MetricConfig := {
  PrometheusName : string;
  MQTTName : string;
  PayloadField : string;
  SensorNameFilter : Regexp;
  TopicPathFilter : option Regexp;
  Help : string;
  ValueType : string;
  OmitTimestamp : bool;
  RawExpression : string;
  Expression : string;
  ForceMonotonicy : bool;
  ConstantLabels : option (gmap string string);
  DynamicLabels : option (gmap string string);
  StringValueMapping : option StringValueMappingConfig;
  MQTTValueScale : float;
  ErrorValue : option float
}.

Record BlockConfig := {
  SharedValues : MetricConfig;
  Metrics : list MetricConfig
}.

(** A nil Go map reads as the empty map. *)
Definition entries {V} (m : option (gmap string V)) : gmap string V :=
  default ∅ m.

(** [rf.Match]: [rf.r == nil || rf.r.MatchString(s)]. *)
Definition Match (rf : Regexp) (s : string) : bool :=
  match r rf with
  | None => true
  | Some re => MatchString re s
  end.

(** [rf.GroupValue]: the loop of lines 79 to 83 from the index [i] on,
    [match_] being what [rf.r.FindStringSubmatch(s)] returned (nil, the
    empty list, when [s] does not match). *)
Fixpoint groupValuesFrom (i : nat) (names match_ : list string)
    (groupValues : gmap string string) : gmap string string :=
  match names with
  | [] => groupValues
  | name :: names =>
      groupValuesFrom (S i) names match_
        (match match_ !! i with
         | Some v =>
             if negb (String.eqb name "") then <[name := v]> groupValues
             else groupValues
         | None => groupValues
         end)
  end.

(** [GroupValue]; [rf.r] is dereferenced, and a group that is not in the
    map reads as the empty string. *)
Definition GroupValue (FindStringSubmatch : regexp → string → list string)
    (rf : Regexp) (s groupName : string) : option string :=
  match r rf with
  | None => None
  | Some re =>
      let match_ := FindStringSubmatch re s in
      let groupValues := groupValuesFrom 0 (SubexpNames re) match_ ∅ in
      Some (default "" (groupValues !! groupName))
  end.

Inductive ValueKind := GaugeValue | CounterValue | UntypedValue.

Definition GaugeValueType := "gauge".
Definition CounterValueType := "counter".

Definition PrometheusValueType (mc : MetricConfig) : ValueKind :=
  if String.eqb (ValueType mc) GaugeValueType then GaugeValue
  else if String.eqb (ValueType mc) CounterValueType then CounterValue
  else UntypedValue.

(** Go compares strings byte by byte: [String.leb]. *)
Definition string_le (a b : string) : Prop := String.leb a b = true.

Global Instance string_le_dec a b : Decision (string_le a b).
Proof. unfold string_le. apply _. Defined.

(** [sort.Strings]: sorts into increasing order. *)
Definition sort_Strings (l : list string) : list string :=
  merge_sort string_le l.

(** [DynamicLabelsKeys], given the order [ks] in which [range] visited the
    keys of [mc.DynamicLabels] (Go leaves that order unspecified). *)
Definition DynamicLabelsKeys_in (ks : list string) : list string :=
  sort_Strings ks.

(** [DynamicLabelsKeys] with the keys visited in the map's own order. *)
Definition DynamicLabelsKeys (mc : MetricConfig) : list string :=
  DynamicLabelsKeys_in (map fst (map_to_list (entries (DynamicLabels mc)))).

(** [*prometheus.Desc] as [prometheus.NewDesc] is given it. *)
Record Desc := {
  fqName : string;
  help : string;
  variableLabels : list string;
  constLabels : option (gmap string string)
}.

Definition PrometheusDescription (mc : MetricConfig) : Desc :=
  {| fqName := PrometheusName mc;
     help := Help mc;
     variableLabels := ["sensor"; "topic"] ++ DynamicLabelsKeys mc;
     constLabels := ConstantLabels mc |}.

(* ===================================================================== *)
(** * pkg/config: merging the shared and the default fragment *)
(* ===================================================================== *)

(** [reflect.Value.IsZero] at the types of the fields of [MetricConfig]
    (a float is zero when it compares equal to 0; a struct when all its
    fields are; a pointer or a map when it is nil). *)
Definition isZero_string (s : string) : bool := String.eqb s "".
Definition isZero_bool (b : bool) : bool := negb b.
Definition isZero_float (f : float) : bool := (f =? 0)%float.
Definition isZero_ptr {A} (p : option A) : bool :=
  match p with None => true | Some _ => false end.
Definition isZero_Regexp (rf : Regexp) : bool :=
  isZero_ptr (r rf) && isZero_string (pattern rf).

(** The body of the innermost loop of [LoadConfig] (lines 262 to 266) for
    one field: the target's field is valid and settable and both fields
    have the field's type, so what is left of the condition is
    [dstField.IsZero() && !src.Field(i).IsZero()]. *)
Definition inheritField {A} (isZero : A → bool) (dst src : A) : A :=
  if isZero dst && negb (isZero src) then src else dst.

(** The loop over [src.NumField()] (lines 259 to 267): every field of the
    target in turn. *)
Definition inherit (tgt source : MetricConfig) : MetricConfig :=
  {| PrometheusName := inheritField isZero_string (PrometheusName tgt) (PrometheusName source);
     MQTTName := inheritField isZero_string (MQTTName tgt) (MQTTName source);
     PayloadField := inheritField isZero_string (PayloadField tgt) (PayloadField source);
     SensorNameFilter := inheritField isZero_Regexp (SensorNameFilter tgt) (SensorNameFilter source);
     TopicPathFilter := inheritField isZero_ptr (TopicPathFilter tgt) (TopicPathFilter source);
     Help := inheritField isZero_string (Help tgt) (Help source);
     ValueType := inheritField isZero_string (ValueType tgt) (ValueType source);
     OmitTimestamp := inheritField isZero_bool (OmitTimestamp tgt) (OmitTimestamp source);
     RawExpression := inheritField isZero_string (RawExpression tgt) (RawExpression source);
     Expression := inheritField isZero_string (Expression tgt) (Expression source);
     ForceMonotonicy := inheritField isZero_bool (ForceMonotonicy tgt) (ForceMonotonicy source);
     ConstantLabels := inheritField isZero_ptr (ConstantLabels tgt) (ConstantLabels source);
     DynamicLabels := inheritField isZero_ptr (DynamicLabels tgt) (DynamicLabels source);
     StringValueMapping := inheritField isZero_ptr (StringValueMapping tgt) (StringValueMapping source);
     MQTTValueScale := inheritField isZero_float (MQTTValueScale tgt) (MQTTValueScale source);
     ErrorValue := inheritField isZero_ptr (ErrorValue tgt) (ErrorValue source) |}.

(** [regexp.MustCompile] at the two constant patterns of the package:
    both match every string; the second names its second group. *)
Definition compiled_any : regexp :=
  {| MatchString := fun _ => true; SubexpNames := [""] |}.
Definition compiled_deviceid : regexp :=
  {| MatchString := fun _ => true; SubexpNames := [""; ""; "deviceid"] |}.

Definition zeroRegexp : Regexp := {| r := None; pattern := "" |}.

Definition zeroMetricConfig : MetricConfig :=
  {| PrometheusName := ""; MQTTName := ""; PayloadField := "";
     SensorNameFilter := zeroRegexp; TopicPathFilter := None;
     Help := ""; ValueType := ""; OmitTimestamp := false;
     RawExpression := ""; Expression := ""; ForceMonotonicy := false;
     ConstantLabels := None; DynamicLabels := None;
     StringValueMapping := None; MQTTValueScale := 0%float;
     ErrorValue := None |}.

Definition MetricConfigDefaults : MetricConfig :=
  {| PrometheusName := ""; MQTTName := ""; PayloadField := "";
     SensorNameFilter := zeroRegexp;
     TopicPathFilter := Some {| r := Some compiled_any; pattern := ".*" |};
     Help := ""; ValueType := ""; OmitTimestamp := false;
     RawExpression := ""; Expression := ""; ForceMonotonicy := false;
     ConstantLabels := None; DynamicLabels := None;
     StringValueMapping := None; MQTTValueScale := 0%float;
     ErrorValue := None |}.

(** Lines 254 to 270 for one block: the sources are the block's shared
    fragment, then the defaults; each is merged into every target. *)
Definition mergeBlock (metric : BlockConfig) : BlockConfig :=
  let targets := Metrics metric in
  let sources := [SharedValues metric; MetricConfigDefaults] in
  {| SharedValues := SharedValues metric;
     Metrics := fold_left (fun targets source =>
                             map (fun tgt => inherit tgt source) targets)
                          sources targets |}.

(** One concrete fragment against a shared fragment [S] and a default
    fragment [D], in the order of the [sources] slice. *)
Definition resolve (T S D : MetricConfig) : MetricConfig :=
  inherit (inherit T S) D.

(** The fields of [MetricConfig], to speak of "every field". *)
Inductive field :=
| F_PrometheusName | F_MQTTName | F_PayloadField | F_SensorNameFilter
| F_TopicPathFilter | F_Help | F_ValueType | F_OmitTimestamp
| F_RawExpression | F_Expression | F_ForceMonotonicy | F_ConstantLabels
| F_DynamicLabels | F_StringValueMapping | F_MQTTValueScale | F_ErrorValue.

Definition field_type (f : field) : Type :=
  match f with
  | F_PrometheusName | F_MQTTName | F_PayloadField | F_Help | F_ValueType
  | F_RawExpression | F_Expression => string
  | F_SensorNameFilter => Regexp
  | F_TopicPathFilter => option Regexp
  | F_OmitTimestamp | F_ForceMonotonicy => bool
  | F_ConstantLabels | F_DynamicLabels => option (gmap string string)
  | F_StringValueMapping => option StringValueMappingConfig
  | F_MQTTValueScale => float
  | F_ErrorValue => option float
  end.

Definition get (f : field) (mc : MetricConfig) : field_type f :=
  match f with
  | F_PrometheusName => PrometheusName mc
  | F_MQTTName => MQTTName mc
  | F_PayloadField => PayloadField mc
  | F_SensorNameFilter => SensorNameFilter mc
  | F_TopicPathFilter => TopicPathFilter mc
  | F_Help => Help mc
  | F_ValueType => ValueType mc
  | F_OmitTimestamp => OmitTimestamp mc
  | F_RawExpression => RawExpression mc
  | F_Expression => Expression mc
  | F_ForceMonotonicy => ForceMonotonicy mc
  | F_ConstantLabels => ConstantLabels mc
  | F_DynamicLabels => DynamicLabels mc
  | F_StringValueMapping => StringValueMapping mc
  | F_MQTTValueScale => MQTTValueScale mc
  | F_ErrorValue => ErrorValue mc
  end.

Definition isZero (f : field) : field_type f → bool :=
  match f with
  | F_PrometheusName | F_MQTTName | F_PayloadField | F_Help | F_ValueType
  | F_RawExpression | F_Expression => isZero_string
  | F_SensorNameFilter => isZero_Regexp
  | F_TopicPathFilter => isZero_ptr
  | F_OmitTimestamp | F_ForceMonotonicy => isZero_bool
  | F_ConstantLabels | F_DynamicLabels => isZero_ptr
  | F_StringValueMapping => isZero_ptr
  | F_MQTTValueScale => isZero_float
  | F_ErrorValue => isZero_ptr
  end.

(* ===================================================================== *)
(** * pkg/config: LoadConfig *)
(* ===================================================================== *)

Record CacheConfig := {
  Timeout : Z;
  StateDir : string
}.

Record JsonParsingConfig := { Separator : string }.

Record ObjectPerTopicConfig := { Encoding : string }.

Record MetricPerTopicConfig := { MetricNameRegex : option Regexp }.

Record MQTTConfig := {
  Server : string;
  TopicPath : string;
  DeviceIDRegex : option Regexp;
  User : string;
  Password : string;
  QoS : Z;
  ObjectPerTopic : option ObjectPerTopicConfig;
  MetricPerTopic : option MetricPerTopicConfig;
  CACert : string;
  ClientCert : string;
  ClientKey : string;
  ClientID : string
}.

Record Config := {
  JsonParsing : option JsonParsingConfig;
  Blocks : list BlockConfig;   (* the field [Metrics] of [Config] *)
  MQTT : option MQTTConfig;
  Cache : option CacheConfig;
  EnableProfiling : bool
}.

Definition DeviceIDRegexGroup := "deviceid".
Definition MetricNameRegexGroup := "metricname".
Definition EncodingJSON := "JSON".

Definition MQTTConfigDefaults : MQTTConfig :=
  {| Server := "tcp://127.0.0.1:1883";
     TopicPath := "v1/devices/me";
     DeviceIDRegex := Some {| r := Some compiled_deviceid;
                              pattern := "(.*/)?(?P<deviceid>.*)" |};
     User := ""; Password := ""; QoS := 0%Z;
     ObjectPerTopic := None; MetricPerTopic := None;
     CACert := ""; ClientCert := ""; ClientKey := ""; ClientID := "" |}.

Definition CacheConfigDefaults : CacheConfig :=
  {| Timeout := (2 * Minute)%Z; StateDir := "/var/lib/mqtt2prometheus" |}.

Definition JsonParsingConfigDefaults : JsonParsingConfig :=
  {| Separator := "." |}.

(** What [LoadConfig] ends in: the configuration, an error (with the zero
    [Config]), or a nil dereference. *)
Inductive config_error :=
| ErrDeviceIDRegex (pattern group : string)
| ErrMetricNameRegex (pattern group : string)
| ErrBothErrorValues (mqttName prometheusName : string)
| ErrMutuallyExclusive (mqttName prometheusName : string)
| ErrCreateDirectory (dir : string).

Inductive loaded (A : Type) :=
| Loaded (a : A)
| LoadError (e : config_error)
| LoadPanic.
Arguments Loaded {A} a.
Arguments LoadError {A} e.
Arguments LoadPanic {A}.

Definition load_bind {A B} (x : loaded A) (k : A → loaded B) : loaded B :=
  match x with
  | Loaded a => k a
  | LoadError e => LoadError e
  | LoadPanic => LoadPanic
  end.

(** [rf.RegEx().SubexpNames()]: both receivers are dereferenced. *)
Definition subexpNamesOf (rf : option Regexp) : loaded (list string) :=
  match rf with
  | None => LoadPanic
  | Some rf =>
      match r rf with
      | None => LoadPanic
      | Some re => Loaded (SubexpNames re)
      end
  end.

(** The loops of lines 226 to 231 and 243 to 248. *)
Definition hasGroup (group : string) (names : list string) : bool :=
  existsb (fun name => String.eqb name group) names.

Definition set_MQTTName (name : string) (m : MetricConfig) : MetricConfig :=
  {| PrometheusName := PrometheusName m; MQTTName := name;
     PayloadField := PayloadField m; SensorNameFilter := SensorNameFilter m;
     TopicPathFilter := TopicPathFilter m; Help := Help m;
     ValueType := ValueType m; OmitTimestamp := OmitTimestamp m;
     RawExpression := RawExpression m; Expression := Expression m;
     ForceMonotonicy := ForceMonotonicy m; ConstantLabels := ConstantLabels m;
     DynamicLabels := DynamicLabels m; StringValueMapping := StringValueMapping m;
     MQTTValueScale := MQTTValueScale m; ErrorValue := ErrorValue m |}.

(** The condition of lines 280 and 281: the deprecated
    [string_value_mapping.error_value] and [error_value] are both set. *)
Definition hasBothErrorValues (m : MetricConfig) : bool :=
  match StringValueMapping m with
  | Some mapping =>
      negb (isZero_ptr (SVM_ErrorValue mapping)) && negb (isZero_ptr (ErrorValue m))
  | None => false
  end.

(** The condition of line 292. *)
Definition hasBothExpressions (m : MetricConfig) : bool :=
  negb (String.eqb (Expression m) "") && negb (String.eqb (RawExpression m) "").

(** The body of the loop over [blocks.Metrics] (lines 276 to 294) on the
    merged metric [m]: the metric as the loop leaves it, or the error it
    returns. (The deprecation warning goes to the logger.) *)
Definition checkMetric (m : MetricConfig) : loaded MetricConfig :=
  if hasBothErrorValues m then
    LoadError (ErrBothErrorValues (MQTTName m) (PrometheusName m))
  else
    let m' := if String.eqb (MQTTName m) "" then set_MQTTName (PrometheusName m) m
              else m in
    if hasBothExpressions m then
      LoadError (ErrMutuallyExclusive (MQTTName m) (PrometheusName m))
    else Loaded m'.

Fixpoint checkMetrics (ms : list MetricConfig) : loaded (list MetricConfig) :=
  match ms with
  | [] => Loaded []
  | m :: ms =>
      load_bind (checkMetric m) (fun m' =>
      load_bind (checkMetrics ms) (fun ms' => Loaded (m' :: ms')))
  end.

Fixpoint checkBlocks (bs : list BlockConfig) : loaded (list BlockConfig) :=
  match bs with
  | [] => Loaded []
  | b :: bs =>
      load_bind (checkMetrics (Metrics b)) (fun ms' =>
      load_bind (checkBlocks bs) (fun bs' =>
      Loaded ({| SharedValues := SharedValues b; Metrics := ms' |} :: bs')))
  end.

Definition forcesMonotonicy (bs : list BlockConfig) : bool :=
  existsb (fun b => existsb ForceMonotonicy (Metrics b)) bs.

(** The blocks of a configuration after the merge of lines 254 to 270,
    and their rules in the order of the document. *)
Definition mergedBlocks (bs : list BlockConfig) : list BlockConfig :=
  map mergeBlock bs.

Definition mergedRules (cfg : Config) : list MetricConfig :=
  flat_map Metrics (mergedBlocks (Blocks cfg)).

(** [LoadConfig] from line 211 on, that is on the [cfg] that
    [yaml.UnmarshalStrict] filled from the file (a file that cannot be read
    or parsed has returned before). [MkdirAll] tells whether the state
    directory can be created. *)
Definition LoadConfig (MkdirAll : string → bool) (cfg : Config) : loaded Config :=
  let mqtt := default MQTTConfigDefaults (MQTT cfg) in
  let cache := default CacheConfigDefaults (Cache cfg) in
  let cache :=
    if String.eqb (StateDir cache) "" then
      {| Timeout := Timeout cache; StateDir := StateDir CacheConfigDefaults |}
    else cache in
  let jsonParsing := default JsonParsingConfigDefaults (JsonParsing cfg) in
  let deviceIDRegex :=
    match DeviceIDRegex mqtt with
    | None => DeviceIDRegex MQTTConfigDefaults
    | Some rf => Some rf
    end in
  load_bind (subexpNamesOf deviceIDRegex) (fun names =>
  if negb (hasGroup DeviceIDRegexGroup names) then
    LoadError (ErrDeviceIDRegex (from_option pattern "" deviceIDRegex) DeviceIDRegexGroup)
  else
    let objectPerTopic :=
      match ObjectPerTopic mqtt, MetricPerTopic mqtt with
      | None, None => Some {| Encoding := EncodingJSON |}
      | o, _ => o
      end in
    load_bind
      (match MetricPerTopic mqtt with
       | None => Loaded tt
       | Some mpt =>
           load_bind (subexpNamesOf (MetricNameRegex mpt)) (fun names =>
           if negb (hasGroup MetricNameRegexGroup names) then
             LoadError (ErrMetricNameRegex (from_option pattern "" deviceIDRegex)
                                            MetricNameRegexGroup)
           else Loaded tt)
       end) (fun _ =>
    let merged := mergedBlocks (Blocks cfg) in
    load_bind (checkBlocks merged) (fun blocks =>
    if forcesMonotonicy merged && negb (MkdirAll (StateDir cache)) then
      LoadError (ErrCreateDirectory (StateDir cache))
    else
      Loaded
        {| JsonParsing := Some jsonParsing;
           Blocks := blocks;
           MQTT := Some
             {| Server := Server mqtt; TopicPath := TopicPath mqtt;
                DeviceIDRegex := deviceIDRegex;
                User := User mqtt; Password := Password mqtt; QoS := QoS mqtt;
                ObjectPerTopic := objectPerTopic;
                MetricPerTopic := MetricPerTopic mqtt;
                CACert := CACert mqtt; ClientCert := ClientCert mqtt;
                ClientKey := ClientKey mqtt; ClientID := ClientID mqtt |};
           Cache := Some cache;
           EnableProfiling := EnableProfiling cfg |}))).

(* ===================================================================== *)
(** * pkg/metrics: state, world and the monad of the parser's methods *)
(* ===================================================================== *)

(** What lies outside the repository: the expression library
    ([expr.Compile] with [expr.Env(env)] and, when [asFloat64] is set,
    [expr.AsFloat64()]; [expr.Run]; a failure of either is [None]) and the
    two standard library functions of the pipeline. *)
Class Externals := {
  Program : Type;
  Compile : string → gmap string any → ∀ asFloat64 : bool, option Program;
  Run : Program → gmap string any → option any;
  ParseFloat : string → option float;
  Sprint : any → string
}.

(** [dynamicState]: the part of a metric's state that is written to disk. *)
Record dynamicState := {
  Offset : float;
  LastRawValue : float;
  LastExprValue : float;
  LastExprRawValue : any;
  LastExprResult : float;
  LastExprResultString : string;
  LastExprTimestamp : Time
}.

Definition zeroDynamicState : dynamicState :=
  {| Offset := 0; LastRawValue := 0; LastExprValue := 0;
     LastExprRawValue := VNil; LastExprResult := 0;
     LastExprResultString := ""; LastExprTimestamp := zeroTime |}.

Definition set_Offset (x : float) (d : dynamicState) : dynamicState :=
  {| Offset := x; LastRawValue := LastRawValue d;
     LastExprValue := LastExprValue d;
     LastExprRawValue := LastExprRawValue d;
     LastExprResult := LastExprResult d;
     LastExprResultString := LastExprResultString d;
     LastExprTimestamp := LastExprTimestamp d |}.

Definition set_LastRawValue (x : float) (d : dynamicState) : dynamicState :=
  {| Offset := Offset d; LastRawValue := x;
     LastExprValue := LastExprValue d;
     LastExprRawValue := LastExprRawValue d;
     LastExprResult := LastExprResult d;
     LastExprResultString := LastExprResultString d;
     LastExprTimestamp := LastExprTimestamp d |}.

(** A state file, by what reading it gives. *)
Inductive file :=
| FileNoAccess                (* [os.Open] fails, and not with "not exist" *)
| FileUnreadable              (* [f.Read] fails *)
| FileCorrupt                 (* [yaml.UnmarshalStrict] rejects the content *)
| FileState (d : dynamicState). (* the content unmarshals to [d] *)

(** How the state directory takes a write. *)
Inductive disk_mode := DiskOk | DiskOpenFails | DiskWriteFails.

Inductive error :=
| ErrUnexpectedString (s : string)
| ErrParseFloat (v : any)
| ErrUnexpectedType (v : any)
| ErrRead (name : string)
| ErrUnmarshal (name : string)
| ErrOpenFile (name : string)
| ErrWriteFile (name : string)
| ErrCompile (code : string)
| ErrEvaluate (code : string)
| ErrCompileLabel (code : string)
| ErrEvaluateLabel (code : string).

Inductive outcome (A : Type) :=
| Ok (a : A)
| Err (e : error)
| Panic.
Arguments Ok {A} a.
Arguments Err {A} e.
Arguments Panic {A}.

(** Identifiers of the expression environment. *)
Definition env_raw_value := "raw_value".
Definition env_value := "value".
Definition env_last_value := "last_value".
Definition env_last_raw_value := "last_raw_value".
Definition env_last_result := "last_result".
Definition env_elapsed := "elapsed".
Definition env_now := "now".
Definition env_int := "int".
Definition env_float := "float".
Definition env_round := "round".
Definition env_ceil := "ceil".
Definition env_floor := "floor".
Definition env_abs := "abs".
Definition env_min := "min".
Definition env_max := "max".

Definition defaultExprEnv : gmap string any :=
  <[env_raw_value := VNil]> (
  <[env_value := VFloat 0]> (
  <[env_last_value := VFloat 0]> (
  <[env_last_result := VFloat 0]> (
  <[env_elapsed := VDuration 0]> (
  <[env_now := VFunc fn_now]> (
  <[env_int := VFunc fn_int]> (
  <[env_float := VFunc fn_float]> (
  <[env_round := VFunc fn_round]> (
  <[env_ceil := VFunc fn_ceil]> (
  <[env_floor := VFunc fn_floor]> (
  <[env_abs := VFunc fn_abs]> (
  <[env_min := VFunc fn_min]> (
  <[env_max := VFunc fn_max]> ∅))))))))))))).

(** The block "Update the environment" of the two evaluation functions:
    the six assignments to [ms.env], [last_result] being the numeric or
    the textual last result and [t] the reading of [now()]. *)
Definition updateEnv (raw_value : any) (value : float) (last_result : any)
    (t : Time) (d : dynamicState) (e : gmap string any) : gmap string any :=
  <[env_elapsed :=
      if Time_IsZero (LastExprTimestamp d) then VDuration 0
      else VDuration (Sub t (LastExprTimestamp d))]> (
  <[env_last_result := last_result]> (
  <[env_last_raw_value := LastExprRawValue d]> (
  <[env_last_value := VFloat (LastExprValue d)]> (
  <[env_value := VFloat value]> (
  <[env_raw_value := raw_value]> e))))).

(** [Metric], the record the pipeline returns ([IngestTime] is the zero
    time when the timestamp is omitted; [Labels] is nil without dynamic
    labels). *)
Record Metric := {
  Description : Desc;
  Value : float;
  Metric_ValueType : ValueKind;   (* the field [ValueType] of [Metric] *)
  IngestTime : Time;
  Labels : option (gmap string string);
  LabelsKeys : list string
}.

Definition zeroMetric : Metric :=
  {| Description := {| fqName := ""; help := ""; variableLabels := [];
                       constLabels := None |};
     Value := 0; Metric_ValueType := UntypedValue; IngestTime := zeroTime;
     Labels := None; LabelsKeys := [] |}.

(** [strings.TrimRight(s, cutset)] for a cutset of ASCII characters: [s]
    without its trailing characters that are in [cutset]. *)
Definition inCutset (cutset : string) (c : Ascii.ascii) : bool :=
  existsb (Ascii.eqb c) (String.list_ascii_of_string cutset).

Fixpoint TrimRight (s cutset : string) : string :=
  match s with
  | EmptyString => EmptyString
  | String c s' =>
      match TrimRight s' cutset with
      | EmptyString =>
          if inCutset cutset c then EmptyString else String c EmptyString
      | t => String c t
      end
  end.

Section Metrics.
Context `{Ext : Externals}.


Record metricState := {
  dynamic : dynamicState;
  lastWritten : Time;
  program : option Program;
  env : gmap string any
}.

Record Parser := {
  separator : string;
  metricConfigs : gmap string (list MetricConfig);
  stateDir : string;
  states : gmap string metricState
}.

Record World := {
  parser : Parser;
  files : gmap string file;
  mode : disk_mode;
  clock : Time      (* what [now()] returns *)
}.

Definition M (A : Type) : Type := World → outcome A * World.

Definition ret {A} (a : A) : M A := fun w => (Ok a, w).
Definition throw {A} (e : error) : M A := fun w => (Err e, w).
Definition panic {A} : M A := fun w => (Panic, w).

(** [let* x := m in k] runs [m] and then [k]; an error or a panic of [m]
    ends the computation, with the world as [m] left it. *)
Definition bind {A B} (m : M A) (k : A → M B) : M B :=
  fun w =>
    match m w with
    | (Ok a, w') => k a w'
    | (Err e, w') => (Err e, w')
    | (Panic, w') => (Panic, w')
    end.

Notation "'let*' x ':=' m 'in' k" := (bind m (fun x => k))
  (at level 10, x pattern, m at level 100, k at level 200).

Definition now : M Time := fun w => (Ok (clock w), w).
Definition getParser : M Parser := fun w => (Ok (parser w), w).

(** [p.states[metricID] = state], and every later write through the
    pointer [state]. *)
Definition storeState (metricID : string) (state : metricState) : M unit :=
  fun w =>
    let p := parser w in
    (Ok tt,
     {| parser := {| separator := separator p;
                     metricConfigs := metricConfigs p;
                     stateDir := stateDir p;
                     states := <[metricID := state]> (states p) |};
        files := files w; mode := mode w; clock := clock w |}).

Definition writeFile (name : string) (f : file) : M unit :=
  fun w =>
    (Ok tt, {| parser := parser w; files := <[name := f]> (files w);
               mode := mode w; clock := clock w |}).

(** The [if err != nil] that follows the three value steps of
    [parseMetric]: [cfg.ErrorValue] when it is set, else the error. *)
Definition orErrorValue (cfg : MetricConfig) (step : M float) : M float :=
  fun w =>
    match step w with
    | (Err e, w') =>
        match ErrorValue cfg with
        | Some errorValue => (Ok errorValue, w')
        | None => (Err e, w')
        end
    | res => res
    end.

Definition zeroMetricState : metricState :=
  {| dynamic := zeroDynamicState; lastWritten := zeroTime;
     program := None; env := ∅ |}.

Definition set_lastWritten (t : Time) (ms : metricState) : metricState :=
  {| dynamic := dynamic ms; lastWritten := t;
     program := program ms; env := env ms |}.

Definition set_dynamic (d : dynamicState) (ms : metricState) : metricState :=
  {| dynamic := d; lastWritten := lastWritten ms;
     program := program ms; env := env ms |}.

Definition stateFileName (p : Parser) (metricID : string) : string :=
  stateDir p +:+ "/" +:+ metricID +:+ ".yaml".

(** [readMetricState]. On the error path of [os.Open] the handle [f] is
    nil and the message is built from [f.Name()], which dereferences it. *)
Definition readMetricState (metricID : string) : M metricState :=
  let* p := getParser in
  fun w =>
    match files w !! stateFileName p metricID with
    | None => (Ok zeroMetricState, w)
    | Some FileNoAccess => (Panic, w)
    | Some FileUnreadable => (Err (ErrRead (stateFileName p metricID)), w)
    | Some FileCorrupt => (Err (ErrUnmarshal (stateFileName p metricID)), w)
    | Some (FileState d) =>
        (Ok {| dynamic := d; lastWritten := clock w;
               program := None; env := ∅ |}, w)
    end.

(** [writeMetricState]: the file is created or truncated, then written.
    A file is kept by what reading it gives, so that the state written is
    the state read back ([yaml.Marshal] then [yaml.UnmarshalStrict] taken
    as the identity on the dynamic state). When [f.Write] fails, the file
    that [os.O_TRUNC] emptied is left: an empty file unmarshals to the
    zero state. *)
Definition writeMetricState (metricID : string) (state : metricState) : M unit :=
  let* p := getParser in
  fun w =>
    match mode w with
    | DiskOpenFails => (Err (ErrOpenFile (stateFileName p metricID)), w)
    | DiskWriteFails =>
        (let* _ := writeFile (stateFileName p metricID)
                     (FileState zeroDynamicState) in
         throw (ErrWriteFile (stateFileName p metricID))) w
    | DiskOk =>
        writeFile (stateFileName p metricID) (FileState (dynamic state)) w
    end.

(** [getMetricState]: the cached state, or the one read from disk and
    cached; written back when a minute has passed since [lastWritten]. *)
Definition getMetricState (metricID : string) : M metricState :=
  let* p := getParser in
  let* state :=
    match states p !! metricID with
    | Some state => ret state
    | None =>
        let* state := readMetricState metricID in
        let* _ := storeState metricID state in
        ret state
    end in
  let* t := now in
  if (Minute <=? Sub t (lastWritten state))%Z then
    let* _ := writeMetricState metricID state in
    let* t' := now in
    let* _ := storeState metricID (set_lastWritten t' state) in
    ret (set_lastWritten t' state)
  else ret state.

Definition set_env (e : gmap string any) (ms : metricState) : metricState :=
  {| dynamic := dynamic ms; lastWritten := lastWritten ms;
     program := program ms; env := e |}.

Definition set_program (prog : option Program) (ms : metricState) : metricState :=
  {| dynamic := dynamic ms; lastWritten := lastWritten ms;
     program := prog; env := env ms |}.

(** [enforceMonotonicy]. *)
Definition enforceMonotonicy (metricID : string) (value : float) : M float :=
  let* ms := getMetricState metricID in
  let ms :=
    if (value <? LastRawValue (dynamic ms))%float then
      set_lastWritten zeroTime
        (set_dynamic
           (set_Offset (Offset (dynamic ms) + LastRawValue (dynamic ms))%float
                       (dynamic ms)) ms)
    else ms in
  let ms := set_dynamic (set_LastRawValue value (dynamic ms)) ms in
  let* _ := storeState metricID ms in
  ret (value + Offset (dynamic ms))%float.

(** [evalExpressionValue]. The environment is filled where the program is
    compiled, inside [if ms.program == nil]. *)
Definition evalExpressionValue (metricID code : string) (raw_value : any)
    (value : float) : M float :=
  let* ms := getMetricState metricID in
  let* (ms, prog) :=
    match program ms with
    | Some prog => ret (ms, prog)
    | None =>
        let* t := now in
        let ms := set_env (updateEnv raw_value value
                             (VFloat (LastExprResult (dynamic ms))) t
                             (dynamic ms) defaultExprEnv) ms in
        match Compile code (env ms) true with
        | None =>
            let* _ := storeState metricID ms in
            throw (ErrCompile code)
        | Some prog =>
            let ms := set_lastWritten zeroTime (set_program (Some prog) ms) in
            let* _ := storeState metricID ms in
            ret (ms, prog)
        end
    end in
  match Run prog (env ms) with
  | None => throw (ErrEvaluate code)
  | Some (VFloat result) =>
      let* t := now in
      let* _ := storeState metricID
        (set_dynamic
           {| Offset := Offset (dynamic ms);
              LastRawValue := LastRawValue (dynamic ms);
              LastExprValue := value;
              LastExprRawValue := raw_value;
              LastExprResult := result;
              LastExprResultString := LastExprResultString (dynamic ms);
              LastExprTimestamp := t |} ms) in
      ret result
  | Some _ => panic   (* [result.(float64)] *)
  end.

(** [evalExpressionLabel]. The state is that of [label + "@" + metricID];
    the environment is filled on every call. *)
Definition evalExpressionLabel (metricID label code : string) (rawValue : any)
    (value : float) : M string :=
  let key := label +:+ "@" +:+ metricID in
  let* ms := getMetricState key in
  let* (ms, prog) :=
    match program ms with
    | Some prog => ret (ms, prog)
    | None =>
        let ms := set_env defaultExprEnv ms in
        match Compile code (env ms) false with
        | None =>
            let* _ := storeState key ms in
            throw (ErrCompileLabel code)
        | Some prog =>
            let ms := set_lastWritten zeroTime (set_program (Some prog) ms) in
            let* _ := storeState key ms in
            ret (ms, prog)
        end
    end in
  let* t := now in
  let ms := set_env (updateEnv rawValue value
                       (VString (LastExprResultString (dynamic ms))) t
                       (dynamic ms) (env ms)) ms in
  let* _ := storeState key ms in
  match Run prog (env ms) with
  | None => throw (ErrEvaluateLabel code)
  | Some result =>
      let* t := now in
      let* _ := storeState key
        (set_dynamic
           {| Offset := Offset (dynamic ms);
              LastRawValue := LastRawValue (dynamic ms);
              LastExprValue := value;
              LastExprRawValue := LastExprRawValue (dynamic ms);
              LastExprResult := LastExprResult (dynamic ms);
              LastExprResultString := Sprint result;
              LastExprTimestamp := t |} ms) in
      ret (Sprint result)
  end.

(** Lines 199 to 245 of [parseMetric]: the value by the type of the
    input. *)
Definition typeResolution (cfg : MetricConfig) (value : any) : M float :=
  match value with
  | VBool boolValue => ret (if boolValue then 1 else 0)%float
  | VString strValue =>
      match StringValueMapping cfg with
      | Some mapping =>
          match Map mapping !! strValue with
          | Some floatValue => ret floatValue
          | None =>
              match SVM_ErrorValue mapping with
              | Some errorValue => ret errorValue
              | None =>
                  match ErrorValue cfg with
                  | Some errorValue => ret errorValue
                  | None => throw (ErrUnexpectedString strValue)
                  end
              end
          end
      | None =>
          match ParseFloat strValue with
          | None =>
              match ErrorValue cfg with
              | Some errorValue => ret errorValue
              | None => throw (ErrParseFloat value)
              end
          | Some floatValue => ret floatValue
          end
      end
  | VFloat floatValue => ret floatValue
  | _ =>
      match ErrorValue cfg with
      | Some errorValue => ret errorValue
      | None => throw (ErrUnexpectedType value)
      end
  end.

(** Lines 189 to 256: the raw expression, or the typed value and then the
    expression. *)
Definition valueDerivation (cfg : MetricConfig) (metricID : string)
    (value : any) : M float :=
  if negb (String.eqb (RawExpression cfg) "") then
    orErrorValue cfg
      (evalExpressionValue metricID (RawExpression cfg) value 0%float)
  else
    let* metricValue := typeResolution cfg value in
    if negb (String.eqb (Expression cfg) "") then
      orErrorValue cfg
        (evalExpressionValue metricID (Expression cfg) value metricValue)
    else ret metricValue.

(** Lines 258 to 266. *)
Definition monotonicity (cfg : MetricConfig) (metricID : string)
    (metricValue : float) : M float :=
  if ForceMonotonicy cfg then
    orErrorValue cfg (enforceMonotonicy metricID metricValue)
  else ret metricValue.

(** Lines 268 to 270. *)
Definition scale (cfg : MetricConfig) (metricValue : float) : float :=
  if negb (MQTTValueScale cfg =? 0)%float then
    (metricValue * MQTTValueScale cfg)%float
  else metricValue.

(** The loop of lines 281 to 287 over the labels [kvs] in the order in
    which [range] visits them: the first failure returns. *)
Fixpoint evalLabels (metricID : string) (kvs : list (string * string))
    (value : any) (metricValue : float) (labels : gmap string string)
    : M (gmap string string) :=
  match kvs with
  | [] => ret labels
  | (k, v) :: kvs =>
      let* s := evalExpressionLabel metricID k v value metricValue in
      evalLabels metricID kvs value metricValue (<[k := s]> labels)
  end.

(** Lines 277 to 288. The order in which [range] visits the map is not
    fixed by Go; the order of [map_to_list] stands for it here. A run of
    the loop that succeeds is the same in every order, which is proved
    below; the error of a run that fails is the one of the first label
    that fails in the order taken. *)
Definition dynamicLabels (cfg : MetricConfig) (metricID : string)
    (value : any) (metricValue : float) : M (option (gmap string string)) :=
  if (0 <? size (entries (DynamicLabels cfg)))%nat then
    let* labels := evalLabels metricID
                     (map_to_list (entries (DynamicLabels cfg)))
                     value metricValue ∅ in
    ret (Some labels)
  else ret None.

(** Lines 258 to 298: what follows the derivation of the value. *)
Definition afterDerivation (cfg : MetricConfig) (metricID : string)
    (value : any) (metricValue : float) : M Metric :=
  let* metricValue := monotonicity cfg metricID metricValue in
  let metricValue := scale cfg metricValue in
  let* ingestTime := if negb (OmitTimestamp cfg) then now else ret zeroTime in
  let* labels := dynamicLabels cfg metricID value metricValue in
  ret {| Description := PrometheusDescription cfg;
         Value := metricValue;
         Metric_ValueType := PrometheusValueType cfg;
         IngestTime := ingestTime;
         Labels := labels;
         LabelsKeys := DynamicLabelsKeys cfg |}.

(** [parseMetric]. *)
Definition parseMetric (cfg : MetricConfig) (metricID : string) (value : any)
    : M Metric :=
  let* metricValue := valueDerivation cfg metricID value in
  afterDerivation cfg metricID value metricValue.

(** [findMetricConfigs]: the configurations of [metric] whose
    [SensorNameFilter] matches the device, in their order. *)
Definition findMetricConfigs (p : Parser) (metric deviceID : string)
    : list MetricConfig :=
  filter (fun c => Is_true (Match (SensorNameFilter c) deviceID))
         (default [] (metricConfigs p !! metric)).

(** [NewParser]: the configurations of all blocks by [MQTTName], in the
    order of the document. *)
Definition NewParser (metric : list BlockConfig) (separator stateDir : string)
    : Parser :=
  let cfgs :=
    fold_left (fun cfgs metrics =>
      fold_left (fun cfgs m =>
                   let key := MQTTName m in
                   <[key := default [] (cfgs !! key) ++ [m]]> cfgs)
                (Metrics metrics) cfgs)
      metric ∅ in
  {| separator := separator;
     metricConfigs := cfgs;
     stateDir := TrimRight stateDir "/";
     states := ∅ |}.

End Metrics.

(* ===================================================================== *)
(** * An instance of the externals, to run the pipeline *)
(* ===================================================================== *)

(** The fragment of the expression language made of one identifier: a
    program is the name of a variable of the environment. It compiles
    when the name is bound (to a number, when a float64 is asked for), and
    running it reads the variable. Every other source text is rejected. *)
Definition ident_Compile (code : string) (env : gmap string any)
    (asFloat64 : bool) : option string :=
  match env !! code with
  | Some (VFloat _) => Some code
  | Some _ => if asFloat64 then None else Some code
  | None => None
  end.

Definition ident_Run (prog : string) (env : gmap string any) : option any :=
  env !! prog.

(** [strconv.ParseFloat] on the decimal integers of one to fifteen digits,
    all of them floats. The instance rejects every other text, also the
    signs, fractions and exponents that [strconv.ParseFloat] takes: the
    examples give it digits only. *)
Fixpoint decimal (s : string) (acc : Z) : option Z :=
  match s with
  | EmptyString => Some acc
  | String c s =>
      let n := Z.of_N (Ascii.N_of_ascii c) in
      if ((48 <=? n) && (n <=? 57))%Z then decimal s (10 * acc + (n - 48))%Z
      else None
  end.

Definition ident_ParseFloat (s : string) : option float :=
  if ((0 <? String.length s) && (String.length s <=? 15))%nat then
    option_map (fun z => PrimFloat.of_uint63 (Uint63.of_Z z)) (decimal s 0)
  else None.

(** [fmt.Sprint] on strings, booleans and nil. The values of the other
    types, which the examples do not print, get the text of nil. *)
Definition ident_Sprint (v : any) : string :=
  match v with
  | VString s => s
  | VBool true => "true"
  | VBool false => "false"
  | _ => "<nil>"
  end.

Definition identExternals : Externals :=
  {| Program := string;
     Compile := ident_Compile;
     Run := ident_Run;
     ParseFloat := ident_ParseFloat;
     Sprint := ident_Sprint |}.

(** A fresh parser on an empty, writable state directory at time [t]. *)
Definition freshWorld `{Ext : Externals} (dir : string) (t : Time) : World :=
  {| parser := {| separator := "."; metricConfigs := ∅;
                  stateDir := dir; states := ∅ |};
     files := ∅; mode := DiskOk; clock := t |}.

(** The world at a later reading of the clock. *)
Definition at_time `{Ext : Externals} (t : Time) (w : World) : World :=
  {| parser := parser w; files := files w; mode := mode w; clock := t |}.

(** The pipeline on a sequence of messages, each with the time at which it
    arrives: the outcome of each run. *)
Fixpoint parseAll `{Ext : Externals} (cfg : MetricConfig) (metricID : string)
    (messages : list (Time * any)) (w : World) : list (outcome Metric) * World :=
  match messages with
  | [] => ([], w)
  | (t, value) :: messages =>
      let '(res, w') := parseMetric cfg metricID value (at_time t w) in
      let '(rest, w'') := parseAll cfg metricID messages w' in
      (res :: rest, w'')
  end.

(** The value of a returned metric. *)
Definition valueOf (res : outcome Metric) : outcome float :=
  match res with
  | Ok m => Ok (Value m)
  | Err e => Err e
  | Panic => Panic
  end.

(* ===================================================================== *)
(** * The rules and worlds of the examples *)
(* ===================================================================== *)

(** A counter with [force_monotonicy], no expression and no scale. *)
Definition monotonicRule : MetricConfig :=
  {| PrometheusName := "energy_total"; MQTTName := "energy_total";
     PayloadField := ""; SensorNameFilter := zeroRegexp;
     TopicPathFilter := None; Help := ""; ValueType := "counter";
     OmitTimestamp := false; RawExpression := ""; Expression := "";
     ForceMonotonicy := true; ConstantLabels := None; DynamicLabels := None;
     StringValueMapping := None; MQTTValueScale := 0%float;
     ErrorValue := None |}.

(** A gauge with the string mapping [{STOPPED: 0, RUNNING: 1}]. *)
Definition mappingRule (errorValue : option float) : MetricConfig :=
  {| PrometheusName := "state"; MQTTName := "state";
     PayloadField := ""; SensorNameFilter := zeroRegexp;
     TopicPathFilter := None; Help := ""; ValueType := "gauge";
     OmitTimestamp := false; RawExpression := ""; Expression := "";
     ForceMonotonicy := false; ConstantLabels := None; DynamicLabels := None;
     StringValueMapping :=
       Some {| SVM_ErrorValue := None;
               Map := <["STOPPED" := 0%float]> (<["RUNNING" := 1%float]> ∅) |};
     MQTTValueScale := 0%float;
     ErrorValue := errorValue |}.

(** A gauge whose value is the expression [code], with an [error_value]. *)
Definition expressionRule (code : string) (errorValue : option float)
    : MetricConfig :=
  {| PrometheusName := "level"; MQTTName := "level";
     PayloadField := ""; SensorNameFilter := zeroRegexp;
     TopicPathFilter := None; Help := ""; ValueType := "gauge";
     OmitTimestamp := false; RawExpression := ""; Expression := code;
     ForceMonotonicy := false; ConstantLabels := None; DynamicLabels := None;
     StringValueMapping := None; MQTTValueScale := 0%float;
     ErrorValue := errorValue |}.

(** The same with [code] as the raw expression. *)
Definition rawExpressionRule (code : string) (errorValue : option float)
    : MetricConfig :=
  {| PrometheusName := "level"; MQTTName := "level";
     PayloadField := ""; SensorNameFilter := zeroRegexp;
     TopicPathFilter := None; Help := ""; ValueType := "gauge";
     OmitTimestamp := false; RawExpression := code; Expression := "";
     ForceMonotonicy := false; ConstantLabels := None; DynamicLabels := None;
     StringValueMapping := None; MQTTValueScale := 0%float;
     ErrorValue := errorValue |}.

(** A gauge with one dynamic label [unit] computed by [code], and an
    [error_value]. *)
Definition labelRule (code : string) (errorValue : option float)
    : MetricConfig :=
  {| PrometheusName := "level"; MQTTName := "level";
     PayloadField := ""; SensorNameFilter := zeroRegexp;
     TopicPathFilter := None; Help := ""; ValueType := "gauge";
     OmitTimestamp := false; RawExpression := ""; Expression := "";
     ForceMonotonicy := false; ConstantLabels := None;
     DynamicLabels := Some (<["unit" := code]> ∅);
     StringValueMapping := None; MQTTValueScale := 0%float;
     ErrorValue := errorValue |}.

(** A rule with both [expression] and [raw_expression]. *)
Definition ambiguousRule : MetricConfig :=
  {| PrometheusName := "level"; MQTTName := "level";
     PayloadField := ""; SensorNameFilter := zeroRegexp;
     TopicPathFilter := None; Help := ""; ValueType := "gauge";
     OmitTimestamp := false; RawExpression := "raw_value"; Expression := "value";
     ForceMonotonicy := false; ConstantLabels := None; DynamicLabels := None;
     StringValueMapping := None; MQTTValueScale := 0%float;
     ErrorValue := None |}.

(** A rule with both the deprecated [string_value_mapping.error_value] and
    [error_value]. *)
Definition conflictingRule : MetricConfig :=
  {| PrometheusName := "state"; MQTTName := "state";
     PayloadField := ""; SensorNameFilter := zeroRegexp;
     TopicPathFilter := None; Help := ""; ValueType := "gauge";
     OmitTimestamp := false; RawExpression := ""; Expression := "";
     ForceMonotonicy := false; ConstantLabels := None; DynamicLabels := None;
     StringValueMapping :=
       Some {| SVM_ErrorValue := Some (-1)%float;
               Map := <["STOPPED" := 0%float]> (<["RUNNING" := 1%float]> ∅) |};
     MQTTValueScale := 0%float;
     ErrorValue := Some (-1)%float |}.

(** A rule with both defects: both expressions and both error values. *)
Definition doubleDefectRule : MetricConfig :=
  {| PrometheusName := "level"; MQTTName := "level";
     PayloadField := ""; SensorNameFilter := zeroRegexp;
     TopicPathFilter := None; Help := ""; ValueType := "gauge";
     OmitTimestamp := false; RawExpression := "raw_value"; Expression := "value";
     ForceMonotonicy := false; ConstantLabels := None; DynamicLabels := None;
     StringValueMapping :=
       Some {| SVM_ErrorValue := Some (-1)%float;
               Map := <["STOPPED" := 0%float]> (<["RUNNING" := 1%float]> ∅) |};
     MQTTValueScale := 0%float;
     ErrorValue := Some (-1)%float |}.

Definition doubleDefectConfig : Config :=
  {| JsonParsing := None;
     Blocks := [ {| SharedValues := zeroMetricConfig;
                    Metrics := [doubleDefectRule] |} ];
     MQTT := None; Cache := None; EnableProfiling := false |}.

(** A document with [conflictingRule] before [ambiguousRule]. *)
Definition twoDefectsConfig : Config :=
  {| JsonParsing := None;
     Blocks := [ {| SharedValues := zeroMetricConfig;
                    Metrics := [conflictingRule; ambiguousRule] |} ];
     MQTT := None; Cache := None; EnableProfiling := false |}.

Definition ambiguousConfig : Config :=
  {| JsonParsing := None;
     Blocks := [ {| SharedValues := zeroMetricConfig;
                    Metrics := [ambiguousRule] |} ];
     MQTT := None; Cache := None; EnableProfiling := false |}.

(** A document with the one rule [monotonicRule] and no other section. *)
Definition counterConfig : Config :=
  {| JsonParsing := None;
     Blocks := [ {| SharedValues := zeroMetricConfig;
                    Metrics := [monotonicRule] |} ];
     MQTT := None; Cache := None; EnableProfiling := false |}.

(** A gauge with two dynamic labels, [unit] and [kind], both texts. *)
Definition twoLabelRule : MetricConfig :=
  {| PrometheusName := "level"; MQTTName := "level";
     PayloadField := ""; SensorNameFilter := zeroRegexp;
     TopicPathFilter := None; Help := ""; ValueType := "gauge";
     OmitTimestamp := false; RawExpression := ""; Expression := "";
     ForceMonotonicy := false; ConstantLabels := None;
     DynamicLabels :=
       Some (<["unit" := "raw_value"]> (<["kind" := "last_result"]> ∅));
     StringValueMapping := None; MQTTValueScale := 0%float;
     ErrorValue := None |}.

(** One second, and a time of day to start the examples at. *)
Definition Second : Z := 1000000000%Z.
Definition noon : Time := (1000000 * Second)%Z.

(** A state directory that holds [f] as the state file of [metricID], with
    nothing cached. *)
Definition worldWithFile `{Ext : Externals} (dir metricID : string) (f : file)
    (t : Time) : World :=
  {| parser := {| separator := "."; metricConfigs := ∅;
                  stateDir := dir; states := ∅ |};
     files := <[dir +:+ "/" +:+ metricID +:+ ".yaml" := f]> ∅;
     mode := DiskOk; clock := t |}.


(* ===================================================================== *)
(** * Vocabulary of the statements *)
(* ===================================================================== *)

(** A merged rule that passes both checks of the loop of [LoadConfig], and
    the error the loop returns for one that does not. *)
Definition passes (m : MetricConfig) : Prop :=
  hasBothErrorValues m = false /\ hasBothExpressions m = false.

Definition rejection (m : MetricConfig) : config_error :=
  if hasBothErrorValues m
  then ErrBothErrorValues (MQTTName m) (PrometheusName m)
  else ErrMutuallyExclusive (MQTTName m) (PrometheusName m).

(** [LoadConfig] ended before its loop over the rules: on one of the two
    regular expressions of the [mqtt] section. *)
Definition failedBeforeRules (res : loaded Config) : Prop :=
  res = LoadPanic
  \/ (exists p g, res = LoadError (ErrDeviceIDRegex p g))
  \/ (exists p g, res = LoadError (ErrMetricNameRegex p g)).

(** Lines 211 to 225 of [LoadConfig]: the [mqtt] section, the state
    directory and the device id expression after the defaults. *)
Definition mqttOf (cfg : Config) : MQTTConfig :=
  default MQTTConfigDefaults (MQTT cfg).

Definition stateDirOf (cfg : Config) : string :=
  let cache := default CacheConfigDefaults (Cache cfg) in
  if String.eqb (StateDir cache) "" then StateDir CacheConfigDefaults
  else StateDir cache.

Definition deviceIDRegexOf (cfg : Config) : option Regexp :=
  match DeviceIDRegex (mqttOf cfg) with
  | None => DeviceIDRegex MQTTConfigDefaults
  | Some rf => Some rf
  end.

(** The expression is there, is compiled and names the group. *)
Definition namesGroup (rf : option Regexp) (group : string) : Prop :=
  exists rf' re, rf = Some rf' /\ r rf' = Some re /\ group ∈ SubexpNames re.

(** Lines 288 to 290: the default for an omitted [mqtt_name]. *)
Definition withDefaultName (m : MetricConfig) : MetricConfig :=
  if String.eqb (MQTTName m) "" then set_MQTTName (PrometheusName m) m else m.

(** A block as the loop of lines 274 to 296 leaves it. *)
Definition checkedBlock (b : BlockConfig) : BlockConfig :=
  {| SharedValues := SharedValues b; Metrics := map withDefaultName (Metrics b) |}.

(** The document without its blocks of rules. *)
Definition withoutRules (cfg : Config) : Config :=
  {| JsonParsing := JsonParsing cfg; Blocks := [];
     MQTT := MQTT cfg; Cache := Cache cfg;
     EnableProfiling := EnableProfiling cfg |}.

(** Lines 242 to 252: the check of the metric name expression. *)
Definition metricNameCheck (cfg : Config) : loaded unit :=
  match MetricPerTopic (mqttOf cfg) with
  | None => Loaded tt
  | Some mpt =>
      load_bind (subexpNamesOf (MetricNameRegex mpt)) (fun names =>
      if negb (hasGroup MetricNameRegexGroup names) then
        LoadError (ErrMetricNameRegex (from_option pattern "" (deviceIDRegexOf cfg))
                                       MetricNameRegexGroup)
      else Loaded tt)
  end.


(** The rule with another [mqtt_value_scale]. *)
Definition set_MQTTValueScale (x : float) (m : MetricConfig) : MetricConfig :=
  {| PrometheusName := PrometheusName m; MQTTName := MQTTName m;
     PayloadField := PayloadField m; SensorNameFilter := SensorNameFilter m;
     TopicPathFilter := TopicPathFilter m; Help := Help m;
     ValueType := ValueType m; OmitTimestamp := OmitTimestamp m;
     RawExpression := RawExpression m; Expression := Expression m;
     ForceMonotonicy := ForceMonotonicy m; ConstantLabels := ConstantLabels m;
     DynamicLabels := DynamicLabels m; StringValueMapping := StringValueMapping m;
     MQTTValueScale := x; ErrorValue := ErrorValue m |}.

Section Vocabulary.
Context `{Ext : Externals}.

(** The world after [storeState]. *)
Definition storeIn (metricID : string) (ms : metricState) (w : World) : World :=
  snd (storeState metricID ms w).

(** The offset and the state [enforceMonotonicy] leaves. *)
Definition nextOffset (value : float) (d : dynamicState) : float :=
  if (value <? LastRawValue d)%float then (Offset d + LastRawValue d)%float
  else Offset d.

Definition afterMonotonicy (value : float) (ms : metricState) : metricState :=
  let ms1 :=
    if (value <? LastRawValue (dynamic ms))%float then
      set_lastWritten zeroTime
        (set_dynamic
           (set_Offset (Offset (dynamic ms) + LastRawValue (dynamic ms))%float
                       (dynamic ms)) ms)
    else ms in
  set_dynamic (set_LastRawValue value (dynamic ms1)) ms1.

(** The state a successful [evalExpressionValue] leaves. *)
Definition afterEvaluation (raw_value : any) (value result : float) (t : Time)
    (ms : metricState) : metricState :=
  set_dynamic
    {| Offset := Offset (dynamic ms);
       LastRawValue := LastRawValue (dynamic ms);
       LastExprValue := value;
       LastExprRawValue := raw_value;
       LastExprResult := result;
       LastExprResultString := LastExprResultString (dynamic ms);
       LastExprTimestamp := t |} ms.

(** The environment a first evaluation compiles against. *)
Definition firstEnv (raw_value : any) (value : float) (t : Time)
    (ms : metricState) : gmap string any :=
  updateEnv raw_value value (VFloat (LastExprResult (dynamic ms))) t
            (dynamic ms) defaultExprEnv.

(** The durable state [getMetricState] works on: the cached one, else the
    one of the state file, else the zero one. *)
Definition currentState (metricID : string) (w : World) : dynamicState :=
  match states (parser w) !! metricID with
  | Some ms => dynamic ms
  | None =>
      match files w !! stateFileName (parser w) metricID with
      | Some (FileState d) => d
      | _ => zeroDynamicState
      end
  end.

(** [enforceMonotonicy] on a sequence of values, each with the time of its
    call: the outcome of each call. *)
Fixpoint feed (metricID : string) (inputs : list (Time * float)) (w : World)
    : list (outcome float) * World :=
  match inputs with
  | [] => ([], w)
  | (t, value) :: inputs =>
      let '(res, w') := enforceMonotonicy metricID value (at_time t w) in
      let '(rest, w'') := feed metricID inputs w' in
      (res :: rest, w'')
  end.

(** What a call leaves as it was: the clock, the disk's mode and the
    parser's configuration. *)
Definition sameSetup (w w' : World) : Prop :=
  clock w' = clock w /\ mode w' = mode w
  /\ separator (parser w') = separator (parser w)
  /\ metricConfigs (parser w') = metricConfigs (parser w)
  /\ stateDir (parser w') = stateDir (parser w).

(** From [w] to [w'] only the states, cached and on disk, of the metric
    ids in [ids] may differ. *)
Definition touchesOnly (ids : string -> Prop) (w w' : World) : Prop :=
  sameSetup w w'
  /\ forall id, ~ ids id ->
       states (parser w') !! id = states (parser w) !! id
       /\ files w' !! stateFileName (parser w) id
          = files w !! stateFileName (parser w) id.

(** The state ids of a run of [parseMetric]: the metric and its labels. *)
Definition stateIDs (cfg : MetricConfig) (metricID : string) (id : string) : Prop :=
  id = metricID
  \/ exists label, is_Some (entries (DynamicLabels cfg) !! label)
                   /\ id = label +:+ "@" +:+ metricID.

(** The process starts again: a parser with an empty cache, on the same
    state directory. *)
Definition restart (w : World) : World :=
  {| parser := {| separator := separator (parser w);
                  metricConfigs := metricConfigs (parser w);
                  stateDir := stateDir (parser w);
                  states := ∅ |};
     files := files w; mode := mode w; clock := clock w |}.

(** A computation that touches only the states of [ids]. *)
Definition Touches {A} (ids : string -> Prop) (m : M A) : Prop :=
  forall w, touchesOnly ids w (snd (m w)).

(** The call on [tv] returned nothing, or the value of [tv] plus [offset]. *)
Definition passedThrough (offset : float) (tv : Time * float)
    (res : outcome float) : Prop :=
  forall out, res = Ok out -> out = (snd tv + offset)%float.

(** Two worlds that agree on what belongs to the state [id]. *)
Definition agreeOn (id : string) (w1 w2 : World) : Prop :=
  clock w1 = clock w2 /\ mode w1 = mode w2
  /\ stateDir (parser w1) = stateDir (parser w2)
  /\ states (parser w1) !! id = states (parser w2) !! id
  /\ files w1 !! stateFileName (parser w1) id
     = files w2 !! stateFileName (parser w2) id.

(** A computation that reads and writes the state [id] only: it leaves the
    rest of the world as it is, and its result and what it leaves of [id]
    depend on nothing else. *)
Definition Confined {A} (id : string) (m : M A) : Prop :=
  (forall w,
     sameSetup w (snd (m w))
     /\ (forall id', id' <> id ->
           states (parser (snd (m w))) !! id' = states (parser w) !! id')
     /\ (forall name, name <> stateFileName (parser w) id ->
           files (snd (m w)) !! name = files w !! name))
  /\ (forall w1 w2, agreeOn id w1 w2 ->
        fst (m w1) = fst (m w2) /\ agreeOn id (snd (m w1)) (snd (m w2))).

End Vocabulary.

(** The values of the calls that returned one. *)
Fixpoint returned {A} (results : list (outcome A)) : list A :=
  match results with
  | [] => []
  | Ok a :: results => a :: returned results
  | _ :: results => returned results
  end.

(** The labels of a returned metric. *)
Definition labelsOf (res : outcome Metric) : outcome (option (gmap string string)) :=
  match res with
  | Ok m => Ok (Labels m)
  | Err e => Err e
  | Panic => Panic
  end.

(** ** Order and rounding of binary64 *)

Section Binary64.
Local Open Scope Z_scope.

(** The binary64 format: [prec = 53], [emax = 1024], and the least exponent
    [emin = 3 - emax - prec = -1074]. A non-negative float is measured in
    units of [2 ^ emin]: [ord x] is an integer, and the order of floats is
    the order of these integers, with [top] for the infinity. *)
Definition top : Z := 2 ^ 2098.

Definition ord (x : spec_float) : Z :=
  match x with
  | S754_zero _ => 0
  | S754_infinity _ => top
  | S754_nan => 0
  | S754_finite _ m e => Zpos m * 2 ^ (e + 1074)
  end.

Definition nonneg (x : spec_float) : bool :=
  match x with
  | S754_zero _ => true
  | S754_infinity s => negb s
  | S754_nan => false
  | S754_finite s _ _ => negb s
  end.

(** [n / 2 ^ s] rounded to the nearest integer, ties to even. *)
Definition rne (n s : Z) : Z :=
  let q := n / 2 ^ s in
  match (2 * (n mod 2 ^ s) ?= 2 ^ s) with
  | Lt => q
  | Eq => if Z.even q then q else q + 1
  | Gt => q + 1
  end.

(** The number of binary digits of [n]. *)
Definition digits (n : Z) : Z := Z.log2 n + 1.

(** What [n >= 1] shifts leave of [m]: the quotient, and the remainder
    [m mod 2 ^ n] as the round bit [r] (its top bit) and the sticky bit [s]
    (whether the rest [t] is not zero). *)
Definition shifted (m : Z) (n : Z) (mrs : shr_record) : Prop :=
  shr_m mrs = m / 2 ^ n
  /\ exists t, 0 <= t < 2 ^ (n - 1)
       /\ m mod 2 ^ n = (if shr_r mrs then 2 ^ (n - 1) else 0) + t
       /\ shr_s mrs = negb (t =? 0).

(** Rounding to 53 significant digits: the bits to drop, the rounded
    value, and the rounded value with its overflow to [top]. *)
Definition shift53 (n : Z) : Z := Z.max (digits n - 53) 0.

Definition rounded (n : Z) : Z := rne n (shift53 n) * 2 ^ shift53 n.

Definition round53 (n : Z) : Z := Z.min (rounded n) top.

(** [fexp prec emax] at the parameters of binary64. *)
Definition fexp64 (e : Z) : Z := Z.max (e - 53) (-1074).

(** The measure of a primitive float. *)
Definition ordF (x : float) : Z := ord (Prim2SF x).

(** [0 <= x]: [x] is zero, positive or the positive infinity, not NaN. *)
Definition nonnegative (x : float) : Prop := (0 <=? x)%float = true.

Definition float_le (x y : float) : Prop := (x <=? y)%float = true.

(** The last output of [enforceMonotonicy], from the state it left. *)
Definition lastOutput (d : dynamicState) : float :=
  (LastRawValue d + Offset d)%float.

Definition nonnegativeState (d : dynamicState) : Prop :=
  nonnegative (Offset d) /\ nonnegative (LastRawValue d).

End Binary64.

(* ===================================================================== *)
(** * The order of strings and the label names *)
(* ===================================================================== *)

Lemma ascii_compare_trans_le a b c :
  Ascii.compare a b <> Gt -> Ascii.compare b c <> Gt -> Ascii.compare a c <> Gt.
Proof.
  unfold Ascii.compare. rewrite !N.compare_le_iff. intros. etransitivity; eauto.
Qed.

Lemma string_compare_trans_le : forall a b c,
  String.compare a b <> Gt -> String.compare b c <> Gt -> String.compare a c <> Gt.
Proof.
  induction a as [|x a IH]; intros [|y b] [|z c]; simpl; try congruence.
  destruct (Ascii.compare x y) eqn:Hxy; try congruence;
  destruct (Ascii.compare y z) eqn:Hyz; try congruence; intros Hab Hbc.
  - apply Ascii.compare_eq_iff in Hxy, Hyz. subst.
    assert (Hzz : Ascii.compare z z = Eq) by (unfold Ascii.compare; apply N.compare_refl).
    rewrite Hzz. eauto.
  - apply Ascii.compare_eq_iff in Hxy. subst. rewrite Hyz. congruence.
  - apply Ascii.compare_eq_iff in Hyz. subst. rewrite Hxy. congruence.
  - assert (Hxz : Ascii.compare x z = Lt).
    { unfold Ascii.compare in *. rewrite N.compare_lt_iff in *. lia. }
    rewrite Hxz. congruence.
Qed.

Lemma string_le_alt a b : string_le a b <-> String.compare a b <> Gt.
Proof.
  unfold string_le, String.leb. destruct (String.compare a b); split; congruence.
Qed.

Global Instance string_le_trans : Transitive string_le.
Proof.
  intros a b c. rewrite !string_le_alt. apply string_compare_trans_le.
Qed.

Global Instance string_le_antisymm : AntiSymm (=) string_le.
Proof. intros a b. apply String.leb_antisym. Qed.

Global Instance string_le_total : Total string_le.
Proof. intros a b. apply String.leb_total. Qed.

Lemma sort_Strings_sorted l : Sorted string_le (sort_Strings l).
Proof. apply Sorted_merge_sort. apply _. Qed.

Lemma sort_Strings_perm l : sort_Strings l ≡ₚ l.
Proof. apply merge_sort_Permutation. Qed.

Lemma sort_Strings_order l1 l2 : l1 ≡ₚ l2 -> sort_Strings l1 = sort_Strings l2.
Proof.
  intros H. apply (Sorted_unique string_le); try apply sort_Strings_sorted.
  rewrite !sort_Strings_perm. exact H.
Qed.

Section Facts.
Context `{Ext : Externals}.

Lemma bind_Ok_inv {A B} (m : M A) (k : A -> M B) w b w' :
  bind m k w = (Ok b, w') ->
  exists a w1, m w = (Ok a, w1) /\ k a w1 = (Ok b, w').
Proof.
  unfold bind. destruct (m w) as [[a | e |] w1]; intros H; try discriminate.
  eauto.
Qed.

Lemma afterDerivation_LabelsKeys cfg metricID value mv w m w' :
  afterDerivation cfg metricID value mv w = (Ok m, w') ->
  LabelsKeys m = DynamicLabelsKeys cfg.
Proof.
  unfold afterDerivation. intros H.
  apply bind_Ok_inv in H as (mv1 & w1 & _ & H).
  apply bind_Ok_inv in H as (t & w2 & _ & H).
  apply bind_Ok_inv in H as (ls & w3 & _ & H).
  unfold ret in H. injection H as <- _. reflexivity.
Qed.

Lemma DynamicLabelsKeys_elem mc k :
  k ∈ DynamicLabelsKeys mc <-> is_Some (entries (DynamicLabels mc) !! k).
Proof.
  unfold DynamicLabelsKeys, DynamicLabelsKeys_in.
  rewrite sort_Strings_perm.
  rewrite list_elem_of_fmap. split.
  - intros [[k' v] [-> Hin]]. apply elem_of_map_to_list in Hin. simpl. eauto.
  - intros [v Hv]. exists (k, v). split; [reflexivity|]. by apply elem_of_map_to_list.
Qed.

(** C10. The label names of a rule, [DynamicLabelsKeys], are sorted in the
    byte order of strings, without repetition, and are exactly the keys of
    [DynamicLabels]; the list is the same in whatever order [range] visits
    the map; and it is the [LabelsKeys] of every metric [parseMetric]
    returns for the rule. *)
Theorem DynamicLabelsKeys_sorted (mc : MetricConfig) :
  Sorted string_le (DynamicLabelsKeys mc)
  /\ NoDup (DynamicLabelsKeys mc)
  /\ (forall k, k ∈ DynamicLabelsKeys mc <-> is_Some (entries (DynamicLabels mc) !! k))
  /\ (forall ks, ks ≡ₚ map fst (map_to_list (entries (DynamicLabels mc))) ->
                 DynamicLabelsKeys_in ks = DynamicLabelsKeys mc)
  /\ (forall metricID value w m w',
         parseMetric mc metricID value w = (Ok m, w') ->
         LabelsKeys m = DynamicLabelsKeys mc).
Proof.
  split; [apply sort_Strings_sorted|].
  split.
  { unfold DynamicLabelsKeys, DynamicLabelsKeys_in. rewrite sort_Strings_perm.
    apply NoDup_fst_map_to_list. }
  split; [apply DynamicLabelsKeys_elem|].
  split.
  { intros ks Hks. unfold DynamicLabelsKeys, DynamicLabelsKeys_in.
    by apply sort_Strings_order. }
  intros metricID value w m w' H. unfold parseMetric in H.
  apply bind_Ok_inv in H as (mv & w1 & _ & H).
  eapply afterDerivation_LabelsKeys; eauto.
Qed.

End Facts.

Lemma get_inherit f tgt source :
  get f (inherit tgt source)
  = inheritField (isZero f) (get f tgt) (get f source).
Proof. destruct f; reflexivity. Qed.

Lemma inheritField_set {A} (z : A -> bool) dst src :
  z dst = false -> inheritField z dst src = dst.
Proof. unfold inheritField. intros ->. reflexivity. Qed.

Lemma inheritField_take {A} (z : A -> bool) dst src :
  z dst = true -> z src = false -> inheritField z dst src = src.
Proof. unfold inheritField. intros -> ->. reflexivity. Qed.

Lemma inheritField_keep {A} (z : A -> bool) dst src :
  z src = true -> inheritField z dst src = dst.
Proof. unfold inheritField. intros ->. rewrite andb_false_r. reflexivity. Qed.

Lemma mergeBlock_resolve (b : BlockConfig) :
  Metrics (mergeBlock b)
  = map (fun T => resolve T (SharedValues b) MetricConfigDefaults) (Metrics b).
Proof. unfold mergeBlock, resolve. simpl. apply map_map. Qed.

(** C6. [LoadConfig] replaces every concrete fragment [T] of a block by
    [resolve T S D], [S] being the block's shared fragment and [D] the
    default fragment. For every field [f] of the result: a field set in [T]
    keeps its value; a field unset in [T] and set in [S] has the value of
    [S]; a field unset in both has the value of [D] when [D] sets it, and
    stays at its zero value when [D] does not; a zero field of [S] leaves
    the field of [T] as it is; and a field that changed was unset and has
    the non-zero value of the same field, hence of the same type, of [S] or
    of [D]. *)
Theorem merge_field_by_field (b : BlockConfig) (f : field)
    (T S D : MetricConfig) :
  Metrics (mergeBlock b)
  = map (fun T => resolve T (SharedValues b) MetricConfigDefaults) (Metrics b)
  /\ let T' := resolve T S D in
     (isZero f (get f T) = false -> get f T' = get f T)
     /\ (isZero f (get f T) = true -> isZero f (get f S) = false ->
         get f T' = get f S)
     /\ (isZero f (get f T) = true -> isZero f (get f S) = true ->
         isZero f (get f D) = false -> get f T' = get f D)
     /\ (isZero f (get f T) = true -> isZero f (get f S) = true ->
         isZero f (get f D) = true ->
         get f T' = get f T /\ isZero f (get f T') = true)
     /\ (isZero f (get f S) = true -> get f (inherit T S) = get f T)
     /\ (get f T' <> get f T ->
         isZero f (get f T) = true /\
         ((isZero f (get f S) = false /\ get f T' = get f S) \/
          (isZero f (get f D) = false /\ get f T' = get f D))).
Proof.
  split; [apply mergeBlock_resolve|].
  unfold resolve. cbv zeta. rewrite !get_inherit.
  unfold inheritField.
  destruct (isZero f (get f T)) eqn:HT, (isZero f (get f S)) eqn:HS,
    (isZero f (get f D)) eqn:HD; simpl; rewrite ?HT, ?HS, ?HD; simpl;
    repeat split; intros; try congruence; auto.
Qed.

(** ** LoadConfig *)

Lemma checkMetric_Loaded m m' :
  checkMetric m = Loaded m' -> passes m.
Proof.
  unfold checkMetric, passes.
  destruct (hasBothErrorValues m); [discriminate|].
  destruct (hasBothExpressions m); [discriminate|]. auto.
Qed.

Lemma checkMetric_passes m :
  passes m -> exists m', checkMetric m = Loaded m'.
Proof. unfold checkMetric. intros [-> ->]. eauto. Qed.

Lemma checkMetric_not_panic m : checkMetric m <> LoadPanic.
Proof.
  unfold checkMetric.
  destruct (hasBothErrorValues m); [discriminate|].
  destruct (hasBothExpressions m); discriminate.
Qed.

(** The first rule of [ms] that does not pass decides [checkMetrics]. *)
Lemma checkMetrics_first pre m post :
  Forall passes pre ->
  ~ passes m ->
  checkMetrics (pre ++ m :: post) = LoadError
    (if hasBothErrorValues m
     then ErrBothErrorValues (MQTTName m) (PrometheusName m)
     else ErrMutuallyExclusive (MQTTName m) (PrometheusName m)).
Proof.
  intros Hpre Hm. induction Hpre as [|x pre Hx Hpre IH]; simpl.
  - unfold checkMetric, passes in *.
    destruct (hasBothErrorValues m); [reflexivity|].
    destruct (hasBothExpressions m); [reflexivity|]. tauto.
  - destruct (checkMetric_passes x Hx) as [x' ->]. simpl.
    rewrite IH. reflexivity.
Qed.

Lemma checkMetrics_all ms :
  Forall passes ms -> exists ms', checkMetrics ms = Loaded ms'.
Proof.
  induction 1 as [|x ms Hx Hms [ms' IH]]; simpl; eauto.
  destruct (checkMetric_passes x Hx) as [x' ->]. simpl. rewrite IH. simpl. eauto.
Qed.

Lemma checkBlocks_flat pre b post e :
  Forall (fun b => Forall passes (Metrics b)) pre ->
  checkMetrics (Metrics b) = LoadError e ->
  checkBlocks (pre ++ b :: post) = LoadError e.
Proof.
  intros Hpre Hb. induction Hpre as [|x pre Hx Hpre IH]; simpl.
  - rewrite Hb. reflexivity.
  - destruct (checkMetrics_all _ Hx) as [ms' ->]. simpl. rewrite IH. reflexivity.
Qed.

Global Instance passes_dec m : Decision (passes m).
Proof. unfold passes. apply _. Defined.

(** A list with a rule that does not pass splits at the first one. *)
Lemma first_not_passing (ms : list MetricConfig) :
  Exists (fun m => ~ passes m) ms ->
  exists pre m post, ms = pre ++ m :: post /\ Forall passes pre /\ ~ passes m.
Proof.
  induction ms as [|x ms IH]; intros H; [inversion H|].
  destruct (decide (passes x)) as [Hx|Hx].
  - inversion H as [? ? Hn|? ? Hn]; subst; [tauto|].
    destruct (IH Hn) as (pre & m & post & -> & Hpre & Hm).
    exists (x :: pre), m, post. repeat split; auto.
  - exists [], x, ms. repeat split; auto.
Qed.

Lemma first_block_not_passing (bs : list BlockConfig) :
  Exists (fun m => ~ passes m) (flat_map Metrics bs) ->
  exists bpre b bpost pre m post,
    bs = bpre ++ b :: bpost /\ Metrics b = pre ++ m :: post /\
    Forall (fun b => Forall passes (Metrics b)) bpre /\
    Forall passes pre /\ ~ passes m /\
    flat_map Metrics bs = (flat_map Metrics bpre ++ pre) ++ m :: (post ++ flat_map Metrics bpost) /\
    Forall passes (flat_map Metrics bpre ++ pre).
Proof.
  induction bs as [|b bs IH]; simpl; intros H; [inversion H|].
  apply Exists_app in H.
  destruct (decide (Forall passes (Metrics b))) as [Hb|Hb].
  - destruct H as [H|H].
    { apply Exists_exists in H as (m & Hin & Hm).
      rewrite Forall_forall in Hb. exfalso. apply Hm, Hb, Hin. }
    destruct (IH H) as (bpre & b' & bpost & pre & m & post & -> & Hm & Hbpre & Hpre & Hnm & Hflat & Hall).
    exists (b :: bpre), b', bpost, pre, m, post. simpl.
    repeat split; auto.
    + rewrite Hflat, <- !app_assoc. done.
    + rewrite <- app_assoc. apply Forall_app. split; auto.
  - apply not_Forall_Exists in Hb; [|apply _].
    destruct (first_not_passing _ Hb) as (pre & m & post & Hm & Hpre & Hnm).
    exists [], b, bs, pre, m, post. simpl. repeat split; auto.
    rewrite Hm, <- app_assoc. done.
Qed.

Lemma checkBlocks_rejects bs pre m post :
  flat_map Metrics bs = pre ++ m :: post ->
  Forall passes pre -> ~ passes m ->
  checkBlocks bs = LoadError (rejection m).
Proof.
  intros Hflat Hpre Hm.
  assert (Hex : Exists (fun m => ~ passes m) (flat_map Metrics bs)).
  { rewrite Hflat. apply Exists_app. right. by constructor. }
  destruct (first_block_not_passing bs Hex)
    as (bpre & b & bpost & pre' & m' & post' & -> & Hb & Hbpre & Hpre' & Hm' & Hflat' & Hall).
  assert (Heq : pre = flat_map Metrics bpre ++ pre' /\ m = m').
  { rewrite Hflat in Hflat'. clear - Hflat' Hpre Hm Hall Hm'.
    revert Hflat' Hpre Hall. generalize (flat_map Metrics bpre ++ pre').
    generalize (post' ++ flat_map Metrics bpost).
    intros q2 p2. revert p2. induction pre as [|x pre IH]; intros [|y p2]; simpl; intros Heq H1 H2.
    - injection Heq as -> _. auto.
    - injection Heq as -> _. inversion H2; subst. tauto.
    - injection Heq as -> _. inversion H1; subst. tauto.
    - injection Heq as -> Heq. inversion H1; inversion H2; subst.
      destruct (IH p2 Heq) as [-> ->]; auto. }
  destruct Heq as [_ <-].
  apply checkBlocks_flat; auto. rewrite Hb. by apply checkMetrics_first.
Qed.

Lemma hasGroup_elem g names : hasGroup g names = true <-> g ∈ names.
Proof.
  unfold hasGroup. rewrite existsb_exists. split.
  - intros (x & Hin & Heq). apply String.eqb_eq in Heq. subst.
    by apply list_elem_of_In.
  - intros Hin. exists g. split; [by apply list_elem_of_In|apply String.eqb_refl].
Qed.

Lemma subexpNamesOf_Loaded rf names :
  subexpNamesOf rf = Loaded names <->
  exists rf' re, rf = Some rf' /\ r rf' = Some re /\ SubexpNames re = names.
Proof.
  unfold subexpNamesOf. split.
  - destruct rf as [rf'|]; [|discriminate].
    destruct (r rf') as [re|] eqn:Hr; [|discriminate].
    intros H. injection H as <-. eauto.
  - intros (rf' & re & -> & -> & <-). reflexivity.
Qed.

Lemma namesGroup_check rf g :
  namesGroup rf g <->
  exists names, subexpNamesOf rf = Loaded names /\ hasGroup g names = true.
Proof.
  unfold namesGroup. split.
  - intros (rf' & re & Hrf & Hr & Hin). exists (SubexpNames re). split.
    + apply subexpNamesOf_Loaded. eauto.
    + by apply hasGroup_elem.
  - intros (names & Hn & Hg). apply subexpNamesOf_Loaded in Hn as (rf' & re & ? & ? & <-).
    exists rf', re. repeat split; auto. by apply hasGroup_elem.
Qed.

(** [LoadConfig] in its four steps. *)
Lemma LoadConfig_steps MkdirAll cfg :
  LoadConfig MkdirAll cfg =
  load_bind (subexpNamesOf (deviceIDRegexOf cfg)) (fun names =>
  if negb (hasGroup DeviceIDRegexGroup names) then
    LoadError (ErrDeviceIDRegex (from_option pattern "" (deviceIDRegexOf cfg))
                                DeviceIDRegexGroup)
  else
    load_bind (metricNameCheck cfg) (fun _ =>
    load_bind (checkBlocks (mergedBlocks (Blocks cfg))) (fun blocks =>
    if forcesMonotonicy (mergedBlocks (Blocks cfg)) && negb (MkdirAll (stateDirOf cfg))
    then LoadError (ErrCreateDirectory (stateDirOf cfg))
    else
      Loaded
        {| JsonParsing := Some (default JsonParsingConfigDefaults (JsonParsing cfg));
           Blocks := blocks;
           MQTT := Some
             {| Server := Server (mqttOf cfg); TopicPath := TopicPath (mqttOf cfg);
                DeviceIDRegex := deviceIDRegexOf cfg;
                User := User (mqttOf cfg); Password := Password (mqttOf cfg);
                QoS := QoS (mqttOf cfg);
                ObjectPerTopic :=
                  match ObjectPerTopic (mqttOf cfg), MetricPerTopic (mqttOf cfg) with
                  | None, None => Some {| Encoding := EncodingJSON |}
                  | o, _ => o
                  end;
                MetricPerTopic := MetricPerTopic (mqttOf cfg);
                CACert := CACert (mqttOf cfg); ClientCert := ClientCert (mqttOf cfg);
                ClientKey := ClientKey (mqttOf cfg); ClientID := ClientID (mqttOf cfg) |};
           Cache := Some {| Timeout := Timeout (default CacheConfigDefaults (Cache cfg));
                            StateDir := stateDirOf cfg |};
           EnableProfiling := EnableProfiling cfg |}))).
Proof.
  unfold LoadConfig, metricNameCheck, stateDirOf, deviceIDRegexOf, mqttOf.
  destruct (subexpNamesOf _) as [names| |]; simpl; try reflexivity.
  destruct (negb (hasGroup DeviceIDRegexGroup names)); try reflexivity.
  destruct (MetricPerTopic _) as [mpt|]; simpl.
  - destruct (subexpNamesOf (MetricNameRegex mpt)) as [names'| |]; simpl; try reflexivity.
    destruct (negb (hasGroup MetricNameRegexGroup names')); simpl; try reflexivity.
    destruct (checkBlocks _); simpl; try reflexivity.
    destruct (String.eqb (StateDir (default CacheConfigDefaults (Cache cfg))) "") eqn:Hd;
      simpl; try reflexivity.
    destruct (default CacheConfigDefaults (Cache cfg)) as [t d]. simpl in *.
    destruct (forcesMonotonicy _ && negb (MkdirAll d)); reflexivity.
  - destruct (checkBlocks _); simpl; try reflexivity.
    destruct (String.eqb (StateDir (default CacheConfigDefaults (Cache cfg))) "") eqn:Hd;
      simpl; try reflexivity.
    destruct (default CacheConfigDefaults (Cache cfg)) as [t d]. simpl in *.
    destruct (forcesMonotonicy _ && negb (MkdirAll d)); reflexivity.
Qed.

Lemma metricNameCheck_cases cfg :
  (metricNameCheck cfg = Loaded tt /\
   forall mpt, MetricPerTopic (mqttOf cfg) = Some mpt ->
               namesGroup (MetricNameRegex mpt) MetricNameRegexGroup)
  \/ (metricNameCheck cfg = LoadPanic /\
      exists mpt, MetricPerTopic (mqttOf cfg) = Some mpt /\
                  from_option r None (MetricNameRegex mpt) = None)
  \/ (metricNameCheck cfg
      = LoadError (ErrMetricNameRegex (from_option pattern "" (deviceIDRegexOf cfg))
                                      MetricNameRegexGroup) /\
      exists mpt rf re, MetricPerTopic (mqttOf cfg) = Some mpt /\
                        MetricNameRegex mpt = Some rf /\ r rf = Some re /\
                        MetricNameRegexGroup ∉ SubexpNames re).
Proof.
  unfold metricNameCheck.
  destruct (MetricPerTopic (mqttOf cfg)) as [mpt|]; [|left; split; [reflexivity|discriminate]].
  destruct (MetricNameRegex mpt) as [rf|] eqn:Hrf; simpl;
    [|right; left; split; [reflexivity|exists mpt; rewrite Hrf; auto]].
  destruct (r rf) as [re|] eqn:Hr; simpl;
    [|right; left; split; [reflexivity|exists mpt; rewrite Hrf; auto]].
  destruct (hasGroup MetricNameRegexGroup (SubexpNames re)) eqn:Hg; simpl.
  - left. split; [reflexivity|]. intros ? [= <-]. exists rf, re.
    repeat split; auto. by apply hasGroup_elem.
  - right. right. split; [reflexivity|]. exists mpt, rf, re. repeat split; auto.
    intros Hin. apply hasGroup_elem in Hin. congruence.
Qed.

Lemma deviceID_cases cfg :
  (exists names, subexpNamesOf (deviceIDRegexOf cfg) = Loaded names /\
                 hasGroup DeviceIDRegexGroup names = true /\
                 namesGroup (deviceIDRegexOf cfg) DeviceIDRegexGroup)
  \/ (subexpNamesOf (deviceIDRegexOf cfg) = LoadPanic /\
      exists rf, DeviceIDRegex (mqttOf cfg) = Some rf /\ r rf = None)
  \/ (exists names rf re,
        subexpNamesOf (deviceIDRegexOf cfg) = Loaded names /\
        hasGroup DeviceIDRegexGroup names = false /\
        DeviceIDRegex (mqttOf cfg) = Some rf /\ r rf = Some re /\
        deviceIDRegexOf cfg = Some rf /\
        DeviceIDRegexGroup ∉ SubexpNames re).
Proof.
  unfold deviceIDRegexOf.
  destruct (DeviceIDRegex (mqttOf cfg)) as [rf|] eqn:Hrf.
  - simpl. destruct (r rf) as [re|] eqn:Hr.
    + destruct (hasGroup DeviceIDRegexGroup (SubexpNames re)) eqn:Hg.
      * left. exists (SubexpNames re). repeat split; auto.
        exists rf, re. repeat split; auto. by apply hasGroup_elem.
      * right. right. exists (SubexpNames re), rf, re. repeat split; auto.
        intros Hin. apply hasGroup_elem in Hin. congruence.
    + right. left. split; [reflexivity|]. eauto.
  - left. exists (SubexpNames compiled_deviceid). repeat split; auto.
    exists {| r := Some compiled_deviceid; pattern := "(.*/)?(?P<deviceid>.*)" |},
           compiled_deviceid.
    repeat split; auto. simpl. set_solver.
Qed.

(** The first rule that does not pass is one rule. *)
Lemma first_not_passing_unique (pre pre' post post' : list MetricConfig) m m' :
  pre ++ m :: post = pre' ++ m' :: post' ->
  Forall passes pre -> ~ passes m -> Forall passes pre' -> ~ passes m' ->
  pre = pre' /\ m = m' /\ post = post'.
Proof.
  revert pre'. induction pre as [|x pre IH]; intros [|y pre']; simpl;
    intros Heq H1 Hm H2 Hm'.
  - injection Heq as -> ->. auto.
  - injection Heq as -> _. inversion H2; subst. tauto.
  - injection Heq as -> _. inversion H1; subst. tauto.
  - injection Heq as -> Heq. inversion H1; inversion H2; subst.
    destruct (IH pre' Heq) as (-> & -> & ->); auto.
Qed.

(** With a rule that does not pass, [LoadConfig] ends on one of the
    regular expressions or on the first such rule. *)
Lemma LoadConfig_rejects MkdirAll cfg e :
  checkBlocks (mergedBlocks (Blocks cfg)) = LoadError e ->
  LoadConfig MkdirAll cfg =
  load_bind (subexpNamesOf (deviceIDRegexOf cfg)) (fun names =>
  if negb (hasGroup DeviceIDRegexGroup names) then
    LoadError (ErrDeviceIDRegex (from_option pattern "" (deviceIDRegexOf cfg))
                                DeviceIDRegexGroup)
  else load_bind (metricNameCheck cfg) (fun _ => LoadError e)).
Proof.
  intros He. rewrite LoadConfig_steps, He. reflexivity.
Qed.

(** C7, amended. When a merged rule [m] of the document has both
    [expression] and [raw_expression], [LoadConfig] returns no
    configuration. The document has a first rule [m0] that fails a check,
    which is [m] or a rule before it, and is [m] when no rule before [m]
    fails. When the two regular expressions of the [mqtt] section pass
    their checks, the error names [m0]: it is the error of the two error
    values when [m0] sets both, for this check comes first, and else the
    error of [expression] and [raw_expression]. When they do not pass,
    [LoadConfig] ends on them, with a nil dereference or the error of the
    regular expression, as it does for the document without rules. *)
Theorem both_expressions_rejected (MkdirAll : string -> bool) (cfg : Config)
    (m : MetricConfig) :
  m ∈ mergedRules cfg -> hasBothExpressions m = true ->
  (forall c, LoadConfig MkdirAll cfg <> Loaded c)
  /\ exists pre m0 post,
       mergedRules cfg = pre ++ m0 :: post
       /\ Forall passes pre /\ ~ passes m0
       /\ m ∈ m0 :: post
       /\ (forall pre' post',
             mergedRules cfg = pre' ++ m :: post' -> Forall passes pre' ->
             pre' = pre /\ m = m0 /\ post' = post)
       /\ (hasBothErrorValues m0 = false -> hasBothExpressions m0 = true)
       /\ (namesGroup (deviceIDRegexOf cfg) DeviceIDRegexGroup ->
           (forall mpt, MetricPerTopic (mqttOf cfg) = Some mpt ->
                        namesGroup (MetricNameRegex mpt) MetricNameRegexGroup) ->
           LoadConfig MkdirAll cfg
           = LoadError
               (if hasBothErrorValues m0
                then ErrBothErrorValues (MQTTName m0) (PrometheusName m0)
                else ErrMutuallyExclusive (MQTTName m0) (PrometheusName m0)))
       /\ (~ (namesGroup (deviceIDRegexOf cfg) DeviceIDRegexGroup
              /\ forall mpt, MetricPerTopic (mqttOf cfg) = Some mpt ->
                   namesGroup (MetricNameRegex mpt) MetricNameRegexGroup) ->
           failedBeforeRules (LoadConfig MkdirAll cfg)
           /\ LoadConfig MkdirAll cfg = LoadConfig MkdirAll (withoutRules cfg)).
Proof.
  intros Hin Hboth.
  assert (Hnp : ~ passes m) by (unfold passes; rewrite Hboth; intros [_ ?]; discriminate).
  assert (Hex : Exists (fun m => ~ passes m) (mergedRules cfg)).
  { apply Exists_exists. eauto. }
  destruct (first_not_passing _ Hex) as (pre & m0 & post & Hsplit & Hpre & Hm0).
  pose proof (checkBlocks_rejects _ _ _ _ Hsplit Hpre Hm0) as Hchk.
  pose proof (LoadConfig_rejects MkdirAll cfg _ Hchk) as Hload.
  split.
  { intros c Hc. rewrite Hc in Hload.
    destruct (subexpNamesOf (deviceIDRegexOf cfg)) as [names| |];
      simpl in Hload; try discriminate.
    destruct (negb (hasGroup DeviceIDRegexGroup names)); try discriminate.
    destruct (metricNameCheck cfg); discriminate. }
  exists pre, m0, post.
  split; [exact Hsplit|]. split; [exact Hpre|]. split; [exact Hm0|].
  split.
  { rewrite Hsplit in Hin. apply elem_of_app in Hin as [Hin|Hin]; [|exact Hin].
    rewrite Forall_forall in Hpre. exfalso. apply Hnp, Hpre, Hin. }
  split.
  { intros pre' post' Hsplit' Hpre'. rewrite Hsplit in Hsplit'.
    destruct (first_not_passing_unique _ _ _ _ _ _ Hsplit' Hpre Hm0 Hpre' Hnp)
      as (-> & -> & ->). auto. }
  split.
  { intros Hev. unfold passes in Hm0.
    destruct (hasBothExpressions m0); [reflexivity|]. tauto. }
  split.
  - intros Hng Hmpt. rewrite Hload.
    apply namesGroup_check in Hng as (names & -> & Hg). simpl. rewrite Hg. simpl.
    destruct (metricNameCheck_cases cfg)
      as [[Hm _]|[[_ (mpt & Hs & Hr)]|[_ (mpt & rf & re & Hs & Hrf & Hr & Hnot)]]].
    + rewrite Hm. reflexivity.
    + destruct (Hmpt _ Hs) as (rf' & re' & Hrf & Hr' & _).
      rewrite Hrf in Hr. simpl in Hr. congruence.
    + destruct (Hmpt _ Hs) as (rf' & re' & Hrf' & Hr' & Hin').
      congruence.
  - intros Hnot. rewrite Hload, (LoadConfig_steps MkdirAll (withoutRules cfg)).
    change (deviceIDRegexOf (withoutRules cfg)) with (deviceIDRegexOf cfg).
    change (metricNameCheck (withoutRules cfg)) with (metricNameCheck cfg).
    unfold failedBeforeRules.
    destruct (deviceID_cases cfg)
      as [(names & Hn & Hg & Hng)|[[Hn _]|(names & ? & ? & Hn & Hg & _)]];
      rewrite Hn; simpl; rewrite ?Hg; simpl; [|tauto|split; [|reflexivity]; eauto].
    destruct (metricNameCheck_cases cfg) as [[Hm Hmpt]|[[Hm _]|[Hm _]]];
      rewrite Hm; simpl; [tauto|tauto|]. split; [|reflexivity]. eauto.
Qed.

(* ===================================================================== *)
(** * Binary64: the order of the non-negative floats and their sums *)
(* ===================================================================== *)

Section Binary64Facts.
Local Open Scope Z_scope.

Lemma digits_pos_spec p : Zpos (digits2_pos p) = digits (Zpos p).
Proof.
  unfold digits.
  induction p as [p IH|p IH|]; simpl; try reflexivity.
  - destruct p; simpl in *; lia.
  - destruct p; simpl in *; lia.
Qed.

Lemma Zdigits2_spec n : 0 < n -> Zdigits2 n = digits n.
Proof.
  intros Hn. destruct n as [|p|p]; try lia. simpl. apply digits_pos_spec.
Qed.

Lemma digits_bounds n : 0 < n -> 2 ^ (digits n - 1) <= n < 2 ^ digits n.
Proof.
  intros Hn. unfold digits. replace (Z.log2 n + 1 - 1) with (Z.log2 n) by lia.
  replace (Z.log2 n + 1) with (Z.succ (Z.log2 n)) by lia.
  apply Z.log2_spec. exact Hn.
Qed.

Lemma digits_unique n d : 2 ^ (d - 1) <= n < 2 ^ d -> 0 < d -> digits n = d.
Proof.
  intros H Hd. unfold digits.
  rewrite (Z.log2_unique n (d - 1)); [lia|lia|].
  replace (Z.succ (d - 1)) with d by lia. exact H.
Qed.

Lemma digits_ge_1 n : 0 < n -> 1 <= digits n.
Proof. intros. unfold digits. pose proof (Z.log2_nonneg n). lia. Qed.

Lemma digits_mono a b : 0 < a -> a <= b -> digits a <= digits b.
Proof. intros. unfold digits. pose proof (Z.log2_le_mono a b). lia. Qed.

Lemma digits_shift n c : 0 < n -> 0 <= c -> digits (n * 2 ^ c) = digits n + c.
Proof.
  intros Hn Hc. apply digits_unique.
  - pose proof (digits_bounds n Hn) as [H1 H2].
    pose proof (digits_ge_1 n Hn).
    replace (digits n + c - 1) with ((digits n - 1) + c) by lia.
    rewrite !Z.pow_add_r by lia.
    assert (0 < 2 ^ c) by (apply Z.pow_pos_nonneg; lia).
    split; nia.
  - pose proof (digits_ge_1 n Hn). lia.
Qed.

Lemma iter_xO m d : Zpos (Pos.iter xO m d) = Zpos m * 2 ^ Zpos d.
Proof.
  induction d as [|d IH] using Pos.peano_ind.
  - simpl. lia.
  - rewrite Pos.iter_succ. rewrite Pos2Z.inj_succ, Z.pow_succ_r by lia.
    rewrite Pos2Z.inj_xO, IH. lia.
Qed.

Lemma shl_align_spec mx ex ez :
  ez <= ex ->
  shl_align mx ex ez = (Z.to_pos (Zpos mx * 2 ^ (ex - ez)), ez)
  /\ Zpos (fst (shl_align mx ex ez)) = Zpos mx * 2 ^ (ex - ez).
Proof.
  intros H. unfold shl_align.
  destruct (ez - ex) as [|p|p] eqn:Hd; try lia.
  - assert (ex = ez) by lia. subst. rewrite Z.sub_diag. simpl.
    rewrite Pos.mul_1_r. split; [reflexivity|]. lia.
  - simpl fst. rewrite iter_xO.
    replace (ex - ez) with (Zpos p) by lia.
    split; [|reflexivity]. rewrite <- iter_xO. reflexivity.
Qed.

Lemma shl_align_ge mx ex ez :
  ex <= ez -> shl_align mx ex ez = (mx, ex).
Proof.
  intros H. unfold shl_align. destruct (ez - ex) eqn:Hd; try lia; reflexivity.
Qed.

(** ** The shift with round and sticky bits *)

Lemma iter_pos_nat {A} (f : A -> A) p x :
  SpecFloat.iter_pos f p x = Nat.iter (Pos.to_nat p) f x.
Proof.
  revert x. induction p as [p IH|p IH|]; intros x; cbn [SpecFloat.iter_pos].
  - rewrite !IH. rewrite Pos2Nat.inj_xI.
    replace (S (2 * Pos.to_nat p)) with (Pos.to_nat p + (Pos.to_nat p + 1))%nat by lia.
    rewrite !Nat.iter_add. simpl. reflexivity.
  - rewrite !IH. rewrite Pos2Nat.inj_xO.
    replace (2 * Pos.to_nat p)%nat with (Pos.to_nat p + Pos.to_nat p)%nat by lia.
    rewrite Nat.iter_add. reflexivity.
  - reflexivity.
Qed.

Lemma shr_1_m mrs :
  0 <= shr_m mrs -> shr_m (shr_1 mrs) = shr_m mrs / 2.
Proof.
  destruct mrs as [m r s]. simpl. intros Hm.
  destruct m as [|[p|p|]|p]; simpl; try lia; try reflexivity.
  - rewrite Pos2Z.inj_xI. rewrite Z.mul_comm, Z.div_add_l by lia.
    reflexivity.
  - rewrite Pos2Z.inj_xO. rewrite Z.mul_comm, Z.div_mul by lia. reflexivity.
Qed.

Lemma shr_1_r mrs :
  0 <= shr_m mrs -> shr_r (shr_1 mrs) = Z.odd (shr_m mrs).
Proof.
  destruct mrs as [m r s]. simpl. intros Hm.
  destruct m as [|[p|p|]|p]; simpl; try lia; reflexivity.
Qed.

Lemma shr_1_s mrs : shr_s (shr_1 mrs) = shr_r mrs || shr_s mrs.
Proof.
  destruct mrs as [m r s]. simpl.
  destruct m as [|[p|p|]|[p|p|]]; reflexivity.
Qed.

Lemma shifted_1 m :
  0 <= m -> shifted m 1 (shr_1 (Build_shr_record m false false)).
Proof.
  intros Hm. split.
  - rewrite shr_1_m by (simpl; lia). simpl. reflexivity.
  - exists 0. rewrite shr_1_r, shr_1_s by (simpl; lia). simpl shr_m. simpl.
    split; [lia|]. split; [|reflexivity].
    rewrite Z.pow_1_r. rewrite Zmod_odd. destruct (Z.odd m); reflexivity.
Qed.

Lemma shifted_step m n mrs :
  0 <= m -> 1 <= n -> shifted m n mrs -> shifted m (n + 1) (shr_1 mrs).
Proof.
  intros Hm Hn (Hq & t & Ht & Hrem & Hs).
  assert (H2n : 0 < 2 ^ n) by (apply Z.pow_pos_nonneg; lia).
  assert (Hq0 : 0 <= shr_m mrs) by (rewrite Hq; apply Z.div_pos; lia).
  split.
  - rewrite shr_1_m by exact Hq0. rewrite Hq.
    rewrite Z.div_div by lia. rewrite Z.pow_add_r by lia. reflexivity.
  - exists (m mod 2 ^ n).
    replace (n + 1 - 1) with n by lia.
    rewrite shr_1_r, shr_1_s by exact Hq0.
    split; [apply Z.mod_pos_bound; lia|]. split.
    + rewrite Hq. rewrite Z.pow_add_r by lia.
      rewrite Z.rem_mul_r by lia. rewrite Zmod_odd.
      destruct (Z.odd (m / 2 ^ n)); lia.
    + rewrite Hs, Hrem.
      assert (0 < 2 ^ (n - 1)) by (apply Z.pow_pos_nonneg; lia).
      destruct (shr_r mrs); simpl.
      * symmetry. apply negb_true_iff, Z.eqb_neq. lia.
      * reflexivity.
Qed.

Lemma shifted_iter m n :
  0 <= m -> (1 <= n)%nat ->
  shifted m (Z.of_nat n) (Nat.iter n shr_1 (Build_shr_record m false false)).
Proof.
  intros Hm Hn. induction n as [|n IH]; [lia|].
  destruct n as [|n].
  - simpl. apply shifted_1. exact Hm.
  - replace (Z.of_nat (S (S n))) with (Z.of_nat (S n) + 1) by lia.
    change (Nat.iter (S (S n)) shr_1 ?x) with (shr_1 (Nat.iter (S n) shr_1 x)).
    apply shifted_step; [exact Hm|lia|]. apply IH. lia.
Qed.

(** Rounding what the shift left is rounding the quotient to nearest even. *)
Lemma shifted_round m n mrs :
  0 <= m -> 1 <= n -> shifted m n mrs ->
  round_nearest_even (shr_m mrs) (loc_of_shr_record mrs) = rne m n.
Proof.
  intros Hm Hn (Hq & t & Ht & Hrem & Hs).
  unfold rne. rewrite Hrem, <- Hq.
  assert (H2 : 2 ^ n = 2 * 2 ^ (n - 1)).
  { rewrite <- Z.pow_succ_r by lia. f_equal. lia. }
  destruct mrs as [q r s]. simpl in *.
  destruct r, s; simpl; symmetry in Hs.
  - apply negb_true_iff, Z.eqb_neq in Hs.
    replace (2 * (2 ^ (n - 1) + t) ?= 2 ^ n) with Gt; [reflexivity|].
    symmetry. apply Z.compare_gt_iff. lia.
  - apply negb_false_iff, Z.eqb_eq in Hs. subst t.
    replace (2 * (2 ^ (n - 1) + 0) ?= 2 ^ n) with Eq; [reflexivity|].
    symmetry. apply Z.compare_eq_iff. lia.
  - apply negb_true_iff, Z.eqb_neq in Hs.
    replace (2 * (0 + t) ?= 2 ^ n) with Lt; [reflexivity|].
    symmetry. apply Z.compare_lt_iff. lia.
  - apply negb_false_iff, Z.eqb_eq in Hs. subst t.
    replace (2 * (0 + 0) ?= 2 ^ n) with Lt; [reflexivity|].
    symmetry. apply Z.compare_lt_iff. lia.
Qed.

Lemma rne_0 n : rne n 0 = n.
Proof.
  unfold rne. rewrite Z.pow_0_r, Z.mod_1_r, Z.div_1_r. reflexivity.
Qed.

(** [shr] on an exact mantissa: the exponent moves by [n] (when positive),
    and rounding the record gives [rne]. *)
Lemma shr_exact_round m e n :
  0 <= m ->
  let '(mrs, e') := shr (Build_shr_record m false false) e n in
  e' = e + Z.max n 0
  /\ round_nearest_even (shr_m mrs) (loc_of_shr_record mrs) = rne m (Z.max n 0).
Proof.
  intros Hm. unfold shr. destruct n as [|p|p].
  - simpl. rewrite rne_0. split; [lia|reflexivity].
  - rewrite iter_pos_nat. split; [lia|].
    replace (Z.max (Zpos p) 0) with (Z.of_nat (Pos.to_nat p)) by lia.
    apply shifted_round; [exact Hm|lia|].
    apply shifted_iter; [exact Hm|lia].
  - simpl. rewrite rne_0. split; [lia|reflexivity].
Qed.

(** ** Rounding to nearest even on the integers *)

Lemma rne_bounds n s : n / 2 ^ s <= rne n s <= n / 2 ^ s + 1.
Proof.
  unfold rne. cbv zeta. destruct (2 * (n mod 2 ^ s) ?= 2 ^ s); [|lia|lia].
  destruct (Z.even (n / 2 ^ s)); lia.
Qed.

Lemma rne_exact m s : 0 <= s -> rne (m * 2 ^ s) s = m.
Proof.
  intros Hs. unfold rne. cbv zeta.
  assert (0 < 2 ^ s) by (apply Z.pow_pos_nonneg; lia).
  rewrite Z.mod_mul, Z.div_mul by lia.
  assert (Hc : (2 * 0 ?= 2 ^ s) = Lt) by (apply Z.compare_lt_iff; lia).
  rewrite Hc. reflexivity.
Qed.

Lemma rne_mono a b s : 0 <= s -> a <= b -> rne a s <= rne b s.
Proof.
  intros Hs Hab.
  assert (Hp : 0 < 2 ^ s) by (apply Z.pow_pos_nonneg; lia).
  destruct (Z.eq_dec (a / 2 ^ s) (b / 2 ^ s)) as [Heq|Hne].
  - unfold rne. cbv zeta. rewrite <- Heq.
    assert (Hrem : a mod 2 ^ s <= b mod 2 ^ s).
    { pose proof (Z.div_mod a (2 ^ s)). pose proof (Z.div_mod b (2 ^ s)). nia. }
    destruct (2 * (a mod 2 ^ s) ?= 2 ^ s) eqn:Ha;
      destruct (2 * (b mod 2 ^ s) ?= 2 ^ s) eqn:Hb;
      try (destruct (Z.even (a / 2 ^ s))); try lia;
      rewrite ?Z.compare_eq_iff, ?Z.compare_lt_iff, ?Z.compare_gt_iff in *; lia.
  - pose proof (Z.div_le_mono a b (2 ^ s) Hp Hab).
    pose proof (rne_bounds a s). pose proof (rne_bounds b s). lia.
Qed.

Lemma rne_scale a s c : 0 <= s -> 0 <= c -> rne (a * 2 ^ c) (s + c) = rne a s.
Proof.
  intros Hs Hc. unfold rne. cbv zeta.
  assert (Hps : 0 < 2 ^ s) by (apply Z.pow_pos_nonneg; lia).
  assert (Hpc : 0 < 2 ^ c) by (apply Z.pow_pos_nonneg; lia).
  rewrite Z.pow_add_r by lia.
  rewrite Z.div_mul_cancel_r by lia.
  rewrite Z.mul_mod_distr_r by lia.
  assert (Hcmp : (2 * (a mod 2 ^ s * 2 ^ c) ?= 2 ^ s * 2 ^ c)
                 = (2 * (a mod 2 ^ s) ?= 2 ^ s)).
  { destruct (2 * (a mod 2 ^ s) ?= 2 ^ s) eqn:E;
      rewrite ?Z.compare_eq_iff, ?Z.compare_lt_iff, ?Z.compare_gt_iff in *; nia. }
  rewrite Hcmp. reflexivity.
Qed.

(** ** Rounding to 53 digits *)

Lemma round53_0 : round53 0 = 0.
Proof. reflexivity. Qed.

Lemma round53_nonneg n : 0 <= n -> 0 <= round53 n.
Proof.
  intros Hn. unfold round53, rounded.
  assert (0 <= shift53 n) by (unfold shift53; lia).
  assert (0 < 2 ^ shift53 n) by (apply Z.pow_pos_nonneg; lia).
  pose proof (rne_bounds n (shift53 n)).
  assert (0 <= n / 2 ^ shift53 n) by (apply Z.div_pos; lia).
  assert (0 < top) by (unfold top; apply Z.pow_pos_nonneg; lia).
  apply Z.min_glb; nia.
Qed.

Lemma round53_le_top n : round53 n <= top.
Proof. unfold round53. apply Z.le_min_r. Qed.

Lemma round53_rounded n : round53 n = Z.min (rounded n) top.
Proof. reflexivity. Qed.

Lemma rounded_upper n : 0 < n -> rounded n <= 2 ^ digits n.
Proof.
  intros Hn. unfold rounded.
  pose proof (digits_bounds n Hn) as [_ Hd].
  pose proof (digits_ge_1 n Hn) as Hd1.
  set (s := shift53 n).
  assert (Hs : 0 <= s <= digits n) by (unfold s, shift53; lia).
  assert (Hps : 0 < 2 ^ s) by (apply Z.pow_pos_nonneg; lia).
  replace (digits n) with ((digits n - s) + s) in Hd |- * by lia.
  rewrite Z.pow_add_r in Hd |- * by lia.
  assert (n / 2 ^ s < 2 ^ (digits n - s)).
  { apply Z.div_lt_upper_bound; lia. }
  pose proof (rne_bounds n s). nia.
Qed.

Lemma rounded_lower n : 0 < n -> 2 ^ (digits n - 1) <= rounded n.
Proof.
  intros Hn. unfold rounded.
  pose proof (digits_bounds n Hn) as [Hd _].
  pose proof (digits_ge_1 n Hn) as Hd1.
  set (s := shift53 n).
  assert (Hs : 0 <= s <= digits n - 1) by (unfold s, shift53; lia).
  assert (Hps : 0 < 2 ^ s) by (apply Z.pow_pos_nonneg; lia).
  replace (digits n - 1) with ((digits n - 1 - s) + s) in Hd |- * by lia.
  rewrite Z.pow_add_r in Hd |- * by lia.
  assert (2 ^ (digits n - 1 - s) <= n / 2 ^ s).
  { apply Z.div_le_lower_bound; lia. }
  pose proof (rne_bounds n s). nia.
Qed.

Lemma rounded_mono a b : 0 < a -> a <= b -> rounded a <= rounded b.
Proof.
  intros Ha Hab.
  pose proof (digits_mono a b Ha Hab) as Hd.
  destruct (Z.eq_dec (shift53 a) (shift53 b)) as [Heq|Hne].
  - unfold rounded. rewrite <- Heq.
    assert (0 <= shift53 a) by (unfold shift53; lia).
    assert (0 < 2 ^ shift53 a) by (apply Z.pow_pos_nonneg; lia).
    pose proof (rne_mono a b (shift53 a)). nia.
  - assert (Hlt : digits a < digits b) by (unfold shift53 in Hne; lia).
    pose proof (rounded_upper a Ha).
    assert (Hb : 0 < b) by lia.
    pose proof (rounded_lower b Hb).
    pose proof (digits_ge_1 a Ha).
    assert (2 ^ digits a <= 2 ^ (digits b - 1)) by (apply Z.pow_le_mono_r; lia).
    lia.
Qed.

Lemma round53_mono a b : 0 <= a -> a <= b -> round53 a <= round53 b.
Proof.
  intros Ha Hab. destruct (Z.eq_dec a 0) as [->|Hne].
  - rewrite round53_0. apply round53_nonneg. lia.
  - rewrite !round53_rounded. apply Z.min_le_compat_r.
    apply rounded_mono; lia.
Qed.

(** A number of at most 53 digits after [s] zero bits is its own rounding. *)
Lemma rounded_exact m s :
  0 < m -> 0 <= s -> Z.max (digits m + s - 53) 0 = s -> rounded (m * 2 ^ s) = m * 2 ^ s.
Proof.
  intros Hm Hs Hcan. unfold rounded, shift53.
  rewrite digits_shift by lia. rewrite Hcan. rewrite rne_exact by lia. reflexivity.
Qed.

Lemma round53_top : round53 top = top.
Proof. vm_compute. reflexivity. Qed.

Lemma round53_ge_top n : top <= n -> round53 n = top.
Proof.
  intros Hn. apply Z.le_antisymm; [apply round53_le_top|].
  rewrite <- round53_top at 1. apply round53_mono; [|exact Hn].
  unfold top. apply Z.pow_nonneg. lia.
Qed.

(** ** [binary_round_aux] and [round53] *)

Lemma fexp_64 e : fexp prec emax e = fexp64 e.
Proof. reflexivity. Qed.

Lemma shr_exact m e n mrs e' :
  0 <= m ->
  shr (Build_shr_record m false false) e n = (mrs, e') ->
  e' = e + Z.max n 0
  /\ shr_m mrs = m / 2 ^ Z.max n 0
  /\ round_nearest_even (shr_m mrs) (loc_of_shr_record mrs) = rne m (Z.max n 0).
Proof.
  intros Hm. unfold shr. destruct n as [|p|p]; intros H; injection H as <- <-.
  - simpl. rewrite rne_0, Z.div_1_r. repeat split; lia.
  - rewrite iter_pos_nat.
    replace (Z.max (Zpos p) 0) with (Z.of_nat (Pos.to_nat p)) by lia.
    pose proof (shifted_iter m (Pos.to_nat p) Hm ltac:(lia)) as Hsh.
    split; [lia|]. split; [apply Hsh|].
    apply shifted_round; [exact Hm|lia|exact Hsh].
  - simpl. rewrite rne_0, Z.div_1_r. repeat split; lia.
Qed.

Lemma pow2_pos e : 0 <= e -> 0 < 2 ^ e.
Proof. intros. apply Z.pow_pos_nonneg; lia. Qed.

Lemma digits_pow2 k : 0 <= k -> digits (2 ^ k) = k + 1.
Proof.
  intros Hk. apply digits_unique; [|lia].
  replace (k + 1 - 1) with k by lia. split; [lia|].
  apply Z.pow_lt_mono_r; lia.
Qed.

Lemma top_pos : 0 < top.
Proof. reflexivity. Qed.

(** A canonical mantissa and exponent, as an integer below [top] or not. *)
Lemma canonical_finite m e :
  0 < m -> fexp64 (digits m + e) = e -> e <= 971 -> m * 2 ^ (e + 1074) < top.
Proof.
  intros Hm Hcan He. unfold fexp64 in Hcan.
  pose proof (digits_bounds m Hm) as [_ Hd].
  assert (Hd53 : digits m <= 53) by lia.
  assert (m < 2 ^ 53).
  { eapply Z.lt_le_trans; [exact Hd|]. apply Z.pow_le_mono_r; lia. }
  assert (0 < 2 ^ (e + 1074)) by (apply pow2_pos; lia).
  assert (2 ^ (e + 1074) <= 2 ^ 2045) by (apply Z.pow_le_mono_r; lia).
  assert (Htop : top = 2 ^ 53 * 2 ^ 2045) by (vm_compute; reflexivity).
  rewrite Htop. nia.
Qed.

Lemma canonical_overflow m e :
  0 < m -> fexp64 (digits m + e) = e -> 971 < e -> top <= m * 2 ^ (e + 1074).
Proof.
  intros Hm Hcan He. unfold fexp64 in Hcan.
  pose proof (digits_bounds m Hm) as [Hd _].
  assert (Hd53 : digits m = 53) by lia.
  rewrite Hd53 in Hd. simpl in Hd.
  assert (2 ^ 2046 <= 2 ^ (e + 1074)) by (apply Z.pow_le_mono_r; lia).
  assert (Htop : top = 2 ^ 52 * 2 ^ 2046) by (vm_compute; reflexivity).
  rewrite Htop. replace (53 - 1) with 52 in Hd by lia. nia.
Qed.

Lemma binary_round_aux_spec (mz : positive) (e' : Z) :
  -1074 <= e' -> e' <= fexp64 (digits (Zpos mz) + e') ->
  let res := binary_round_aux prec emax false (Zpos mz) e' loc_Exact in
  nonneg res = true
  /\ ord res = round53 (Zpos mz * 2 ^ (e' + 1074)).
Proof.
  intros He' Hle.
  set (N := Zpos mz * 2 ^ (e' + 1074)).
  set (k := digits (Zpos mz) + e') in *.
  set (E := fexp64 k) in *.
  assert (HN : 0 < N) by (unfold N; pose proof (pow2_pos (e' + 1074)); nia).
  assert (HdN : digits N = k + 1074).
  { unfold N. rewrite digits_shift by lia. unfold k. lia. }
  assert (HsN : shift53 N = E + 1074).
  { unfold shift53. rewrite HdN. unfold E, fexp64. lia. }
  assert (Hrne : rne N (shift53 N) = rne (Zpos mz) (E - e')).
  { rewrite HsN. unfold N.
    replace (E + 1074) with ((E - e') + (e' + 1074)) by lia.
    apply rne_scale; lia. }
  pose proof (rounded_lower N HN) as Hlow.
  pose proof (rounded_upper N HN) as Hup.
  rewrite HdN in Hlow, Hup.
  assert (HE : -1074 <= E) by (unfold E, fexp64; lia).
  pose proof (digits_ge_1 (Zpos mz) ltac:(lia)) as Hdmz.
  assert (HkE : 0 <= k - E) by (unfold E, fexp64, k; lia).
  assert (HpE : 0 < 2 ^ (E + 1074)) by (apply pow2_pos; lia).
  cbv zeta. unfold binary_round_aux, shr_fexp.
  cbn [shr_record_of_loc Zdigits2]. rewrite digits_pos_spec, fexp_64.
  fold k. fold E.
  destruct (shr _ e' (E - e')) as [mrs1 e1] eqn:Hshr1.
  apply shr_exact in Hshr1 as (He1 & _ & Hr1); [|lia].
  replace (Z.max (E - e') 0) with (E - e') in * by lia.
  replace (e' + (E - e')) with E in He1 by lia. subst e1.
  rewrite Hr1, <- Hrne.
  remember (rne N (shift53 N)) as m1 eqn:Hm1def.
  assert (Hval : rounded N = m1 * 2 ^ (E + 1074)).
  { unfold rounded. rewrite <- Hm1def, HsN. reflexivity. }
  rewrite Hval in Hlow, Hup.
  assert (Hm1 : 0 < m1).
  { assert (0 < 2 ^ (k + 1074 - 1)) by (apply pow2_pos; unfold k; lia).
    nia. }
  assert (Hfin : forall mf ef,
             0 < mf -> fexp64 (digits mf + ef) = ef ->
             mf * 2 ^ (ef + 1074) = rounded N ->
             nonneg (if ef <=? 971 then S754_finite false (Z.to_pos mf) ef
                     else S754_infinity false) = true
             /\ ord (if ef <=? 971 then S754_finite false (Z.to_pos mf) ef
                     else S754_infinity false) = round53 N).
  { intros mf ef Hmf Hcan Hv. rewrite round53_rounded, <- Hv.
    destruct (ef <=? 971) eqn:Hef.
    - apply Z.leb_le in Hef. split; [reflexivity|]. simpl.
      rewrite Z2Pos.id by lia.
      pose proof (canonical_finite mf ef Hmf Hcan Hef). lia.
    - apply Z.leb_gt in Hef. split; [reflexivity|]. simpl.
      pose proof (canonical_overflow mf ef Hmf Hcan ltac:(lia)). lia. }
  assert (Hp1 : m1 = Zpos (Z.to_pos m1)) by (rewrite Z2Pos.id; lia).
  rewrite (Zdigits2_spec m1 Hm1), fexp_64.
  destruct (Z.eq_dec (m1 * 2 ^ (E + 1074)) (2 ^ (k + 1074))) as [Hpow|Hnpow].
  - (* the rounding reached the next binade *)
    assert (Hm1v : m1 = 2 ^ (k - E)).
    { replace (k + 1074) with ((k - E) + (E + 1074)) in Hpow by lia.
      rewrite (Z.pow_add_r 2 (k - E) (E + 1074)) in Hpow by lia. nia. }
    assert (Hs0 : 0 < shift53 N).
    { destruct (Z.eq_dec (shift53 N) 0) as [H0|H0]; [|unfold shift53 in *; lia].
      exfalso. rewrite Hm1def, H0, rne_0 in Hpow.
      rewrite HsN in H0. rewrite H0 in Hpow. simpl in Hpow.
      pose proof (digits_bounds N HN) as [_ HNd]. rewrite HdN in HNd. lia. }
    assert (HEk : E = k - 53) by (unfold E, fexp64 in *; lia).
    rewrite Hm1v, digits_pow2 by lia.
    replace (fexp64 (k - E + 1 + E) - E) with 1 by (unfold fexp64; lia).
    destruct (shr _ E 1) as [mrs2 e2] eqn:Hshr2.
    apply shr_exact in Hshr2 as (He2 & Hm2 & _); [|apply Z.pow_nonneg; lia].
    simpl Z.max in *. rewrite Hm2. subst e2.
    replace (k - E) with (52 + 1) by lia.
    rewrite Z.pow_add_r, Z.pow_1_r, Z.div_mul by lia.
    change (emax - prec) with 971.
    change (2 ^ 52) with (Zpos (Z.to_pos (2 ^ 52))).
    apply Hfin.
    + reflexivity.
    + change (Zpos (Z.to_pos (2 ^ 52))) with (2 ^ 52).
      rewrite digits_pow2 by lia. unfold fexp64. lia.
    + rewrite Hval, Hpow. change (Zpos (Z.to_pos (2 ^ 52))) with (2 ^ 52).
      rewrite <- Z.pow_add_r by lia. f_equal. lia.
  - (* the rounding stayed in the binade *)
    assert (Hdm1 : digits m1 + E = k).
    { assert (Hd : digits (m1 * 2 ^ (E + 1074)) = k + 1074).
      { apply digits_unique; [lia|]. unfold k. lia. }
      rewrite digits_shift in Hd by lia. lia. }
    rewrite Hdm1. fold E. rewrite Z.sub_diag.
    cbn [shr]. cbn [shr_m]. change (emax - prec) with 971.
    assert (Hcan : fexp64 (digits m1 + E) = E) by (rewrite Hdm1; reflexivity).
    specialize (Hfin m1 E Hm1 Hcan ltac:(lia)).
    destruct m1 as [|p1|p1]; try lia. exact Hfin.
Qed.

Lemma binary_round_spec (M : positive) (ez : Z) :
  -1074 <= ez ->
  nonneg (binary_round prec emax false M ez) = true
  /\ ord (binary_round prec emax false M ez) = round53 (Zpos M * 2 ^ (ez + 1074)).
Proof.
  intros Hez. unfold binary_round. rewrite digits_pos_spec, fexp_64.
  set (E := fexp64 (digits (Zpos M) + ez)).
  assert (HE : -1074 <= E) by (unfold E, fexp64; lia).
  destruct (Z_le_gt_dec E ez) as [Hle|Hgt].
  - destruct (shl_align_spec M ez E Hle) as [-> _].
    assert (Hpos : 0 < Zpos M * 2 ^ (ez - E)).
    { pose proof (pow2_pos (ez - E)). nia. }
    assert (Hmz : Zpos (Z.to_pos (Zpos M * 2 ^ (ez - E))) = Zpos M * 2 ^ (ez - E)).
    { rewrite Z2Pos.id; lia. }
    assert (Hd : digits (Zpos (Z.to_pos (Zpos M * 2 ^ (ez - E)))) + E
                 = digits (Zpos M) + ez).
    { rewrite Hmz, digits_shift by lia. lia. }
    pose proof (binary_round_aux_spec (Z.to_pos (Zpos M * 2 ^ (ez - E))) E HE) as H.
    rewrite Hd in H. fold E in H. specialize (H ltac:(lia)). cbv zeta in H.
    replace (Zpos (Z.to_pos (Zpos M * 2 ^ (ez - E))) * 2 ^ (E + 1074))
      with (Zpos M * 2 ^ (ez + 1074)) in H.
    + exact H.
    + rewrite Hmz, <- Z.mul_assoc, <- Z.pow_add_r by lia. do 2 f_equal. lia.
  - rewrite shl_align_ge by lia.
    apply binary_round_aux_spec; [exact Hez|]. fold E. lia.
Qed.

(** A valid finite float has a canonical mantissa and exponent. *)
Lemma valid_finite s m e :
  valid_binary (S754_finite s m e) = true ->
  fexp64 (digits (Zpos m) + e) = e /\ e <= 971.
Proof.
  unfold SpecFloat.valid_binary, bounded, canonical_mantissa.
  rewrite digits_pos_spec, fexp_64. intros H.
  apply andb_true_iff in H as [H1 H2].
  apply Z.eqb_eq in H1. apply Z.leb_le in H2. split; [exact H1|exact H2].
Qed.

Lemma valid_finite_emin s m e :
  valid_binary (S754_finite s m e) = true -> -1074 <= e.
Proof.
  intros H. apply valid_finite in H as [H _]. unfold fexp64 in H. lia.
Qed.

(** ** Rounding is the identity on floats *)

Lemma ord_nonneg x : 0 <= ord x.
Proof.
  destruct x as [s|s| |s m e]; cbn [ord];
    first [ lia
          | pose proof top_pos; lia
          | assert (0 <= 2 ^ (e + 1074)) by (apply Z.pow_nonneg; lia); nia ].
Qed.

Lemma ord_le_top x : valid_binary x = true -> ord x <= top.
Proof.
  destruct x as [s|s| |s m e]; cbn [ord]; intros Hv; try (pose proof top_pos; lia).
  pose proof (valid_finite _ _ _ Hv) as [Hcan He].
  pose proof (canonical_finite (Zpos m) e ltac:(lia) Hcan He). lia.
Qed.

Lemma round53_ord x : valid_binary x = true -> round53 (ord x) = ord x.
Proof.
  destruct x as [s|s| |s m e]; cbn [ord]; intros Hv;
    [apply round53_0|apply round53_top|apply round53_0|].
  pose proof (valid_finite _ _ _ Hv) as [Hcan He].
  pose proof (valid_finite_emin _ _ _ Hv) as Hemin.
  rewrite round53_rounded.
  rewrite rounded_exact; try lia.
  - pose proof (canonical_finite (Zpos m) e ltac:(lia) Hcan He). lia.
  - unfold fexp64 in Hcan. lia.
Qed.

(** ** Addition *)

Lemma SF64add_finite mx ex my ey :
  valid_binary (S754_finite false mx ex) = true ->
  valid_binary (S754_finite false my ey) = true ->
  nonneg (SF64add (S754_finite false mx ex) (S754_finite false my ey)) = true
  /\ ord (SF64add (S754_finite false mx ex) (S754_finite false my ey))
     = round53 (Zpos mx * 2 ^ (ex + 1074) + Zpos my * 2 ^ (ey + 1074)).
Proof.
  intros Hx Hy.
  pose proof (valid_finite_emin _ _ _ Hx) as Hex.
  pose proof (valid_finite_emin _ _ _ Hy) as Hey.
  unfold SF64add, SFadd. cbn [cond_Zopp].
  set (ez := Z.min ex ey).
  destruct (shl_align_spec mx ex ez ltac:(lia)) as [_ Hmx].
  destruct (shl_align_spec my ey ez ltac:(lia)) as [_ Hmy].
  rewrite <- Pos2Z.inj_add. cbn [binary_normalize].
  pose proof (binary_round_spec
                (fst (shl_align mx ex ez) + fst (shl_align my ey ez)) ez ltac:(lia)) as H.
  rewrite Pos2Z.inj_add, Hmx, Hmy in H.
  replace ((Zpos mx * 2 ^ (ex - ez) + Zpos my * 2 ^ (ey - ez)) * 2 ^ (ez + 1074))
    with (Zpos mx * 2 ^ (ex + 1074) + Zpos my * 2 ^ (ey + 1074)) in H.
  - exact H.
  - rewrite Z.mul_add_distr_r, <- !Z.mul_assoc, <- !Z.pow_add_r by lia.
    do 2 f_equal; f_equal; lia.
Qed.

Lemma SF64add_nonneg x y :
  valid_binary x = true -> valid_binary y = true ->
  nonneg x = true -> nonneg y = true ->
  nonneg (SF64add x y) = true
  /\ ord (SF64add x y) = round53 (ord x + ord y).
Proof.
  intros Hvx Hvy Hx Hy.
  destruct x as [sx|sx| |sx mx ex]; destruct y as [sy|sy| |sy my ey];
    simpl in Hx, Hy; try discriminate;
    try (apply negb_true_iff in Hx; subst sx);
    try (apply negb_true_iff in Hy; subst sy).
  - (* zero, zero *)
    split; [destruct sx, sy; reflexivity|].
    destruct sx, sy; reflexivity.
  - (* zero, infinity *)
    simpl. split; [reflexivity|]. symmetry. apply round53_top.
  - (* zero, finite *)
    simpl SF64add. split; [reflexivity|].
    simpl ord at 2. rewrite Z.add_0_l. symmetry. apply round53_ord. exact Hvy.
  - (* infinity, zero *)
    simpl. split; [reflexivity|]. symmetry. apply round53_top.
  - (* infinity, infinity *)
    simpl. split; [reflexivity|]. symmetry. apply round53_ge_top.
    pose proof top_pos. lia.
  - (* infinity, finite *)
    split; [reflexivity|]. simpl SF64add. simpl ord at 1 2.
    symmetry. apply round53_ge_top.
    pose proof (ord_nonneg (S754_finite false my ey)). lia.
  - (* finite, zero *)
    simpl SF64add. split; [reflexivity|].
    simpl ord at 3. rewrite Z.add_0_r. symmetry. apply round53_ord. exact Hvx.
  - (* finite, infinity *)
    split; [reflexivity|]. simpl SF64add. simpl ord at 1 3.
    symmetry. apply round53_ge_top.
    pose proof (ord_nonneg (S754_finite false mx ex)). lia.
  - (* finite, finite *)
    apply SF64add_finite; assumption.
Qed.

(** ** Comparison *)

Lemma SFcompare_nonneg x y :
  valid_binary x = true -> valid_binary y = true ->
  nonneg x = true -> nonneg y = true ->
  SFcompare x y = Some (ord x ?= ord y).
Proof.
  intros Hvx Hvy Hx Hy.
  destruct x as [sx|sx| |sx mx ex]; destruct y as [sy|sy| |sy my ey];
    simpl in Hx, Hy; try discriminate;
    try (apply negb_true_iff in Hx; subst sx);
    try (apply negb_true_iff in Hy; subst sy); simpl SFcompare.
  - reflexivity.
  - reflexivity.
  - simpl ord. f_equal. symmetry. apply Z.compare_lt_iff.
    pose proof (valid_finite_emin _ _ _ Hvy). pose proof (pow2_pos (ey + 1074)). nia.
  - reflexivity.
  - simpl ord. rewrite Z.compare_refl. reflexivity.
  - simpl ord. f_equal. symmetry. apply Z.compare_gt_iff.
    pose proof (valid_finite _ _ _ Hvy) as [Hcan He].
    apply canonical_finite; [lia|exact Hcan|exact He].
  - simpl ord. f_equal. symmetry. apply Z.compare_gt_iff.
    pose proof (valid_finite_emin _ _ _ Hvx). pose proof (pow2_pos (ex + 1074)). nia.
  - simpl ord. f_equal. symmetry. apply Z.compare_lt_iff.
    pose proof (valid_finite _ _ _ Hvx) as [Hcan He].
    apply canonical_finite; [lia|exact Hcan|exact He].
  - f_equal. simpl ord.
    pose proof (valid_finite _ _ _ Hvx) as [Hcx _].
    pose proof (valid_finite _ _ _ Hvy) as [Hcy _].
    pose proof (valid_finite_emin _ _ _ Hvx) as Hex.
    pose proof (valid_finite_emin _ _ _ Hvy) as Hey.
    pose proof (digits_bounds (Zpos mx) ltac:(lia)) as [Hx1 Hx2].
    pose proof (digits_bounds (Zpos my) ltac:(lia)) as [Hy1 Hy2].
    unfold fexp64 in Hcx, Hcy.
    destruct (ex ?= ey) eqn:Hc.
    + rewrite Z.compare_eq_iff in Hc. subst ey.
      change (Pos.compare_cont Eq mx my) with (Zpos mx ?= Zpos my). symmetry.
      pose proof (pow2_pos (ex + 1074) ltac:(lia)).
      destruct (Zpos mx ?= Zpos my) eqn:Hm;
        rewrite ?Z.compare_eq_iff, ?Z.compare_lt_iff, ?Z.compare_gt_iff in *; nia.
    + rewrite Z.compare_lt_iff in Hc. symmetry. apply Z.compare_lt_iff.
      assert (Hdy : digits (Zpos my) = 53) by lia.
      assert (Hdx : digits (Zpos mx) <= 53) by lia.
      rewrite Hdy in Hy1. 
      assert (Zpos mx < 2 ^ 53).
      { eapply Z.lt_le_trans; [exact Hx2|]. apply Z.pow_le_mono_r; lia. }
      replace (ey + 1074) with ((ey - ex) + (ex + 1074)) by lia.
      rewrite (Z.pow_add_r 2 (ey - ex) (ex + 1074)) by lia.
      pose proof (pow2_pos (ex + 1074) ltac:(lia)).
      assert (HQ : 2 ^ 1 <= 2 ^ (ey - ex)) by (apply Z.pow_le_mono_r; lia).
      change (2 ^ (53 - 1)) with (2 ^ 52) in Hy1.
      assert (H53 : 2 ^ 53 = 2 * 2 ^ 52) by reflexivity.
      rewrite Z.pow_1_r in HQ. rewrite Z.mul_assoc.
      apply Z.mul_lt_mono_pos_r; [lia|].
      apply Z.lt_le_trans with (2 * Zpos my); [lia|].
      rewrite (Z.mul_comm (Zpos my)). apply Z.mul_le_mono_nonneg_r; lia.
    + rewrite Z.compare_gt_iff in Hc. symmetry. apply Z.compare_gt_iff.
      assert (Hdx : digits (Zpos mx) = 53) by lia.
      assert (Hdy : digits (Zpos my) <= 53) by lia.
      rewrite Hdx in Hx1.
      assert (Zpos my < 2 ^ 53).
      { eapply Z.lt_le_trans; [exact Hy2|]. apply Z.pow_le_mono_r; lia. }
      replace (ex + 1074) with ((ex - ey) + (ey + 1074)) by lia.
      rewrite (Z.pow_add_r 2 (ex - ey) (ey + 1074)) by lia.
      pose proof (pow2_pos (ey + 1074) ltac:(lia)).
      assert (HQ : 2 ^ 1 <= 2 ^ (ex - ey)) by (apply Z.pow_le_mono_r; lia).
      change (2 ^ (53 - 1)) with (2 ^ 52) in Hx1.
      assert (H53 : 2 ^ 53 = 2 * 2 ^ 52) by reflexivity.
      rewrite Z.pow_1_r in HQ. rewrite Z.mul_assoc.
      apply Z.mul_lt_mono_pos_r; [lia|].
      apply Z.lt_le_trans with (2 * Zpos mx); [lia|].
      rewrite (Z.mul_comm (Zpos mx)). apply Z.mul_le_mono_nonneg_r; lia.
Qed.

(** * Primitive floats *)

Lemma nonnegative_spec x : nonnegative x <-> nonneg (Prim2SF x) = true.
Proof.
  unfold nonnegative. rewrite leb_spec.
  change (Prim2SF 0) with (S754_zero false).
  destruct (Prim2SF x) as [s|[|]| |[|] m e];
    cbv [SFleb SFcompare nonneg negb]; split; congruence.
Qed.

Lemma leb_ord x y :
  nonnegative x -> nonnegative y ->
  (x <=? y)%float = (ordF x <=? ordF y).
Proof.
  intros Hx Hy. apply nonnegative_spec in Hx, Hy.
  rewrite leb_spec. unfold SFleb.
  rewrite (SFcompare_nonneg _ _ (Prim2SF_valid x) (Prim2SF_valid y) Hx Hy).
  unfold ordF, Z.leb. destruct (ord (Prim2SF x) ?= ord (Prim2SF y)); reflexivity.
Qed.

Lemma ltb_ord x y :
  nonnegative x -> nonnegative y ->
  (x <? y)%float = (ordF x <? ordF y).
Proof.
  intros Hx Hy. apply nonnegative_spec in Hx, Hy.
  rewrite ltb_spec. unfold SFltb.
  rewrite (SFcompare_nonneg _ _ (Prim2SF_valid x) (Prim2SF_valid y) Hx Hy).
  unfold ordF, Z.ltb. destruct (ord (Prim2SF x) ?= ord (Prim2SF y)); reflexivity.
Qed.

Lemma add_nonnegative x y :
  nonnegative x -> nonnegative y ->
  nonnegative (x + y) /\ ordF (x + y) = round53 (ordF x + ordF y).
Proof.
  intros Hx Hy. apply nonnegative_spec in Hx, Hy.
  rewrite nonnegative_spec. unfold ordF. rewrite add_spec.
  apply SF64add_nonneg; auto using Prim2SF_valid.
Qed.

Lemma ordF_round x : round53 (ordF x) = ordF x.
Proof. apply round53_ord, Prim2SF_valid. Qed.

Lemma ordF_nonneg x : 0 <= ordF x.
Proof. apply ord_nonneg. Qed.

(** The sum of non-negative floats is not below either of them. *)
Lemma float_le_add_l x y :
  nonnegative x -> nonnegative y -> float_le x (x + y).
Proof.
  intros Hx Hy. destruct (add_nonnegative x y Hx Hy) as [Hs Ho].
  unfold float_le. rewrite leb_ord by assumption. apply Z.leb_le.
  rewrite Ho, <- (ordF_round x) at 1.
  apply round53_mono; [apply ordF_nonneg|]. pose proof (ordF_nonneg y). lia.
Qed.

Lemma float_le_add_r x y :
  nonnegative x -> nonnegative y -> float_le y (x + y).
Proof.
  intros Hx Hy. destruct (add_nonnegative x y Hx Hy) as [Hs Ho].
  unfold float_le. rewrite leb_ord by assumption. apply Z.leb_le.
  rewrite Ho, <- (ordF_round y) at 1.
  apply round53_mono; [apply ordF_nonneg|]. pose proof (ordF_nonneg x). lia.
Qed.

(** Adding the same float to both sides keeps the order. *)
Lemma float_add_mono x y z :
  nonnegative x -> nonnegative y -> nonnegative z ->
  (y <? x)%float = false -> float_le (x + z) (y + z).
Proof.
  intros Hx Hy Hz Hlt.
  rewrite ltb_ord in Hlt by assumption. apply Z.ltb_ge in Hlt.
  destruct (add_nonnegative x z Hx Hz) as [Hs1 Ho1].
  destruct (add_nonnegative y z Hy Hz) as [Hs2 Ho2].
  unfold float_le. rewrite leb_ord by assumption. apply Z.leb_le.
  rewrite Ho1, Ho2. apply round53_mono.
  - pose proof (ordF_nonneg x). pose proof (ordF_nonneg z). lia.
  - lia.
Qed.

Lemma float_add_comm_le x y :
  nonnegative x -> nonnegative y -> float_le (x + y) (y + x).
Proof.
  intros Hx Hy.
  destruct (add_nonnegative x y Hx Hy) as [Hs1 Ho1].
  destruct (add_nonnegative y x Hy Hx) as [Hs2 Ho2].
  unfold float_le. rewrite leb_ord by assumption. apply Z.leb_le.
  rewrite Ho1, Ho2, Z.add_comm. lia.
Qed.

Lemma float_le_refl x : nonnegative x -> float_le x x.
Proof.
  intros Hx. unfold float_le. rewrite leb_ord by assumption. apply Z.leb_refl.
Qed.

Lemma float_le_trans x y z :
  nonnegative x -> nonnegative y -> nonnegative z ->
  float_le x y -> float_le y z -> float_le x z.
Proof.
  unfold float_le. intros Hx Hy Hz.
  rewrite !leb_ord by assumption. rewrite !Z.leb_le. lia.
Qed.

Lemma nonnegative_0 : nonnegative 0.
Proof. reflexivity. Qed.

End Binary64Facts.

(* ===================================================================== *)
(** * The pipeline *)
(* ===================================================================== *)

Section Pipeline.
Context `{Ext : Externals}.

Lemma states_storeIn metricID ms w :
  states (parser (storeIn metricID ms w)) !! metricID = Some ms.
Proof. unfold storeIn, storeState. simpl. apply lookup_insert_eq. Qed.

Lemma afterMonotonicy_Offset value ms :
  Offset (dynamic (afterMonotonicy value ms)) = nextOffset value (dynamic ms).
Proof.
  unfold afterMonotonicy, nextOffset.
  destruct (value <? LastRawValue (dynamic ms))%float; reflexivity.
Qed.

Lemma afterMonotonicy_LastRawValue value ms :
  LastRawValue (dynamic (afterMonotonicy value ms)) = value.
Proof.
  unfold afterMonotonicy.
  destruct (value <? LastRawValue (dynamic ms))%float; reflexivity.
Qed.

Lemma enforceMonotonicy_unfold metricID value w :
  enforceMonotonicy metricID value w =
  match getMetricState metricID w with
  | (Ok ms, w1) =>
      (Ok (value + nextOffset value (dynamic ms))%float,
       storeIn metricID (afterMonotonicy value ms) w1)
  | (Err e, w1) => (Err e, w1)
  | (Panic, w1) => (Panic, w1)
  end.
Proof.
  unfold enforceMonotonicy, bind.
  destruct (getMetricState metricID w) as [[ms|e|] w1]; try reflexivity.
  unfold storeIn, nextOffset, afterMonotonicy, ret. simpl.
  destruct (value <? LastRawValue (dynamic ms))%float; reflexivity.
Qed.

(** C1. With [force_monotonicy], no expression and no scale, the raw values
    10, 20, 15, 25 give the outputs 10, 20, 35, 45. In every call of
    [enforceMonotonicy] that gets the state: when the value is below
    [LastRawValue], [LastRawValue] is added to [Offset]; [LastRawValue]
    becomes the value; the output is the value plus the offset. *)
Theorem monotonic_sequence :
  map valueOf (fst (parseAll monotonicRule "energy_total"
     [(noon, VFloat 10); ((noon + 30 * Second)%Z, VFloat 20);
      ((noon + 60 * Second)%Z, VFloat 15); ((noon + 90 * Second)%Z, VFloat 25)]
     (freshWorld "/var/lib/mqtt2prometheus" noon)))
  = [Ok 10%float; Ok 20%float; Ok 35%float; Ok 45%float]
  /\ forall metricID value w ms w1,
       getMetricState metricID w = (Ok ms, w1) ->
       exists w2 ms',
         enforceMonotonicy metricID value w
         = (Ok (value + Offset (dynamic ms'))%float, w2)
         /\ states (parser w2) !! metricID = Some ms'
         /\ Offset (dynamic ms')
            = (if (value <? LastRawValue (dynamic ms))%float
               then (Offset (dynamic ms) + LastRawValue (dynamic ms))%float
               else Offset (dynamic ms))
         /\ LastRawValue (dynamic ms') = value.
Proof.
  split; [vm_compute; reflexivity|].
  intros metricID value w ms w1 H.
  exists (storeIn metricID (afterMonotonicy value ms) w1), (afterMonotonicy value ms).
  rewrite enforceMonotonicy_unfold, H, afterMonotonicy_Offset.
  split; [reflexivity|]. split; [apply states_storeIn|].
  split; [reflexivity|apply afterMonotonicy_LastRawValue].
Qed.

(** C8. With the mapping [{STOPPED: 0, RUNNING: 1}]: the input "RUNNING"
    gives the value 1; the input "UNKNOWN" fails when no [error_value] is
    set, and gives -1 when [error_value] is -1. *)
Theorem string_mapping (metricID : string) (w : World) :
  (exists m, parseMetric (mappingRule None) metricID (VString "RUNNING") w = (Ok m, w)
             /\ Value m = 1%float)
  /\ parseMetric (mappingRule None) metricID (VString "UNKNOWN") w
     = (Err (ErrUnexpectedString "UNKNOWN"), w)
  /\ (exists m, parseMetric (mappingRule (Some (-1)%float)) metricID (VString "UNKNOWN") w
                = (Ok m, w)
             /\ Value m = (-1)%float).
Proof.
  split; [|split].
  - eexists. split; [vm_compute; reflexivity|reflexivity].
  - vm_compute. reflexivity.
  - eexists. split; [vm_compute; reflexivity|reflexivity].
Qed.


Lemma evalExpressionValue_compiled metricID code raw_value value w ms w1 prog :
  getMetricState metricID w = (Ok ms, w1) ->
  program ms = Some prog ->
  evalExpressionValue metricID code raw_value value w =
  match Run prog (env ms) with
  | None => (Err (ErrEvaluate code), w1)
  | Some (VFloat result) =>
      (Ok result,
       storeIn metricID (afterEvaluation raw_value value result (clock w1) ms) w1)
  | Some _ => (Panic, w1)
  end.
Proof.
  intros Hget Hprog. unfold evalExpressionValue, bind. rewrite Hget, Hprog.
  unfold ret. destruct (Run prog (env ms)) as [[]|]; reflexivity.
Qed.

Lemma evalExpressionValue_compile_fails metricID code raw_value value w ms w1 :
  getMetricState metricID w = (Ok ms, w1) ->
  program ms = None ->
  Compile code (firstEnv raw_value value (clock w1) ms) true = None ->
  evalExpressionValue metricID code raw_value value w
  = (Err (ErrCompile code),
     storeIn metricID (set_env (firstEnv raw_value value (clock w1) ms) ms) w1).
Proof.
  intros Hget Hprog Hc. unfold evalExpressionValue, bind. rewrite Hget, Hprog.
  unfold now. simpl. unfold firstEnv in Hc. rewrite Hc. reflexivity.
Qed.

Lemma orErrorValue_Err cfg (step : M float) w e w' :
  step w = (Err e, w') ->
  orErrorValue cfg step w =
  match ErrorValue cfg with
  | Some errorValue => (Ok errorValue, w')
  | None => (Err e, w')
  end.
Proof. unfold orErrorValue. intros ->. reflexivity. Qed.


Lemma typeResolution_world cfg value w :
  snd (typeResolution cfg value w) = w.
Proof.
  unfold typeResolution.
  destruct value; try reflexivity;
    repeat (match goal with
            | |- context [match ?x with _ => _ end] => destruct x
            end; try reflexivity).
Qed.

Lemma typeResolution_not_Panic cfg value w w' :
  typeResolution cfg value w <> (Panic, w').
Proof.
  unfold typeResolution.
  destruct value; try discriminate;
    repeat (match goal with
            | |- context [match ?x with _ => _ end] => destruct x
            end; try discriminate).
Qed.





Lemma parseMetric_unfold cfg metricID value w :
  parseMetric cfg metricID value w =
  match valueDerivation cfg metricID value w with
  | (Ok mv, w1) => afterDerivation cfg metricID value mv w1
  | (Err e, w1) => (Err e, w1)
  | (Panic, w1) => (Panic, w1)
  end.
Proof. reflexivity. Qed.

Lemma afterDerivation_unfold cfg metricID value mv w :
  afterDerivation cfg metricID value mv w =
  match monotonicity cfg metricID mv w with
  | (Ok mv', w1) =>
      match dynamicLabels cfg metricID value (scale cfg mv') w1 with
      | (Ok labels, w2) =>
          (Ok {| Description := PrometheusDescription cfg;
                 Value := scale cfg mv';
                 Metric_ValueType := PrometheusValueType cfg;
                 IngestTime := if negb (OmitTimestamp cfg) then clock w1 else zeroTime;
                 Labels := labels;
                 LabelsKeys := DynamicLabelsKeys cfg |}, w2)
      | (Err e, w2) => (Err e, w2)
      | (Panic, w2) => (Panic, w2)
      end
  | (Err e, w1) => (Err e, w1)
  | (Panic, w1) => (Panic, w1)
  end.
Proof.
  unfold afterDerivation, bind.
  destruct (monotonicity cfg metricID mv w) as [[mv'|e|] w1]; try reflexivity.
  destruct (negb (OmitTimestamp cfg)); unfold now, ret; simpl;
    destruct (dynamicLabels cfg metricID value (scale cfg mv') w1) as [[l|e|] w2];
    reflexivity.
Qed.

(** C3, amended. A failure to compile the value expression (the raw
    expression, or the expression after the typed value) reaches the caller
    of [parseMetric] as the error only when no [error_value] is set; with an
    [error_value] the pipeline goes on from the next step with that value,
    as it does for a failure at run time. *)
Theorem compile_failure_masked (cfg : MetricConfig) (metricID : string)
    (value : any) (w : World) :
  (RawExpression cfg <> "" ->
   forall ms w1,
     getMetricState metricID w = (Ok ms, w1) -> program ms = None ->
     Compile (RawExpression cfg) (firstEnv value 0 (clock w1) ms) true = None ->
     exists w2,
       evalExpressionValue metricID (RawExpression cfg) value 0 w
       = (Err (ErrCompile (RawExpression cfg)), w2)
       /\ parseMetric cfg metricID value w =
          match ErrorValue cfg with
          | Some errorValue => afterDerivation cfg metricID value errorValue w2
          | None => (Err (ErrCompile (RawExpression cfg)), w2)
          end)
  /\ (RawExpression cfg = "" -> Expression cfg <> "" ->
      forall mv ms w1,
        typeResolution cfg value w = (Ok mv, w) ->
        getMetricState metricID w = (Ok ms, w1) -> program ms = None ->
        Compile (Expression cfg) (firstEnv value mv (clock w1) ms) true = None ->
        exists w2,
          evalExpressionValue metricID (Expression cfg) value mv w
          = (Err (ErrCompile (Expression cfg)), w2)
          /\ parseMetric cfg metricID value w =
             match ErrorValue cfg with
             | Some errorValue => afterDerivation cfg metricID value errorValue w2
             | None => (Err (ErrCompile (Expression cfg)), w2)
             end).
Proof.
  split.
  - intros Hraw ms w1 Hget Hprog Hc.
    pose proof (evalExpressionValue_compile_fails _ _ _ _ _ _ _ Hget Hprog Hc) as He.
    eexists. split; [exact He|].
    rewrite parseMetric_unfold. unfold valueDerivation.
    apply String.eqb_neq in Hraw. rewrite Hraw. simpl.
    rewrite (orErrorValue_Err _ _ _ _ _ He).
    destruct (ErrorValue cfg); reflexivity.
  - intros Hraw Hexpr mv ms w1 Ht Hget Hprog Hc.
    pose proof (evalExpressionValue_compile_fails _ _ _ _ _ _ _ Hget Hprog Hc) as He.
    eexists. split; [exact He|].
    rewrite parseMetric_unfold. unfold valueDerivation.
    rewrite Hraw. simpl. unfold bind. rewrite Ht.
    apply String.eqb_neq in Hexpr. rewrite Hexpr. simpl.
    rewrite (orErrorValue_Err _ _ _ _ _ He).
    destruct (ErrorValue cfg); reflexivity.
Qed.





Lemma readMetricState_unfold metricID w :
  readMetricState metricID w =
  match files w !! stateFileName (parser w) metricID with
  | None => (Ok zeroMetricState, w)
  | Some FileNoAccess => (Panic, w)
  | Some FileUnreadable => (Err (ErrRead (stateFileName (parser w) metricID)), w)
  | Some FileCorrupt => (Err (ErrUnmarshal (stateFileName (parser w) metricID)), w)
  | Some (FileState d) =>
      (Ok {| dynamic := d; lastWritten := clock w; program := None; env := ∅ |}, w)
  end.
Proof. reflexivity. Qed.




(** ** Monotonicity of the outputs *)

Lemma currentState_at_time metricID t w :
  currentState metricID (at_time t w) = currentState metricID w.
Proof. reflexivity. Qed.

Lemma currentState_storeIn metricID ms w :
  currentState metricID (storeIn metricID ms w) = dynamic ms.
Proof.
  unfold currentState. rewrite states_storeIn. reflexivity.
Qed.

(** [getMetricState] returns the current state, which it leaves cached,
    and changes it in no case. *)
Lemma getMetricState_current metricID w res w' :
  getMetricState metricID w = (res, w') ->
  currentState metricID w' = currentState metricID w
  /\ forall ms, res = Ok ms ->
       dynamic ms = currentState metricID w
       /\ states (parser w') !! metricID = Some ms.
Proof.
  unfold getMetricState, bind, getParser.
  assert (Hflush : forall ms w1 res w',
    states (parser w1) !! metricID = Some ms ->
    (let (o, w'0) := now w1 in
     match o with
     | Ok a =>
         (if (Minute <=? Sub a (lastWritten ms))%Z
          then
           bind (writeMetricState metricID ms)
             (fun _ => bind now (fun t' =>
                bind (storeState metricID (set_lastWritten t' ms))
                  (fun _ => ret (set_lastWritten t' ms))))
          else ret ms) w'0
     | Err e => (Err e, w'0)
     | Panic => (Panic, w'0)
     end) = (res, w') ->
    currentState metricID w' = dynamic ms
    /\ forall ms', res = Ok ms' ->
         dynamic ms' = dynamic ms /\ states (parser w') !! metricID = Some ms').
  { clear. intros ms w1 res w' Hms. unfold now.
    destruct (Minute <=? Sub (clock w1) (lastWritten ms))%Z.
    - unfold bind, writeMetricState, getParser, bind, writeFile, throw, storeState, ret, now.
      destruct (mode w1) eqn:Hmode; simpl; intros H; injection H as <- <-.
      + split.
        * unfold currentState. simpl. rewrite lookup_insert_eq. reflexivity.
        * intros ms' Hok. injection Hok as <-. simpl.
          rewrite lookup_insert_eq. split; reflexivity.
      + split; [|intros ms' Hok; discriminate].
        unfold currentState. rewrite Hms. reflexivity.
      + split; [|intros ms' Hok; discriminate].
        unfold currentState. simpl. rewrite Hms. reflexivity.
    - unfold ret. intros H. injection H as <- <-. split.
      + unfold currentState. rewrite Hms. reflexivity.
      + intros ms' Hok. injection Hok as <-. split; [reflexivity|exact Hms]. }
  destruct (states (parser w) !! metricID) as [ms|] eqn:Hms.
  - assert (Hcur : currentState metricID w = dynamic ms)
      by (unfold currentState; rewrite Hms; reflexivity).
    rewrite Hcur. unfold ret at 1. intros H. apply Hflush in H; [exact H|exact Hms].
  - unfold readMetricState, bind, getParser.
    destruct (files w !! stateFileName (parser w) metricID) as [[| | |d]|] eqn:Hf.
    + intros H. injection H as <- <-. split; [reflexivity|intros; discriminate].
    + intros H. injection H as <- <-. split; [reflexivity|intros; discriminate].
    + intros H. injection H as <- <-. split; [reflexivity|intros; discriminate].
    + assert (Hcur : currentState metricID w = d)
        by (unfold currentState; rewrite Hms, Hf; reflexivity).
      rewrite Hcur. unfold storeState at 1, ret at 1. intros H.
      apply Hflush in H; [exact H|]. simpl. apply lookup_insert_eq.
    + assert (Hcur : currentState metricID w = zeroDynamicState)
        by (unfold currentState; rewrite Hms, Hf; reflexivity).
      rewrite Hcur. unfold storeState at 1, ret at 1. intros H.
      apply Hflush in H; [exact H|]. simpl. apply lookup_insert_eq.
Qed.

Lemma nextOffset_nonnegative value d :
  nonnegativeState d -> nonnegative (nextOffset value d).
Proof.
  intros [Ho Hl]. unfold nextOffset.
  destruct (value <? LastRawValue d)%float; [|exact Ho].
  apply add_nonnegative; assumption.
Qed.

Lemma nextOffset_grows value d :
  nonnegativeState d -> float_le (Offset d) (nextOffset value d).
Proof.
  intros [Ho Hl]. unfold nextOffset.
  destruct (value <? LastRawValue d)%float.
  - apply float_le_add_l; assumption.
  - apply float_le_refl; assumption.
Qed.

(** The output is not below the last one. *)
Lemma output_not_below value d :
  nonnegative value -> nonnegativeState d ->
  float_le (lastOutput d) (value + nextOffset value d).
Proof.
  intros Hv [Ho Hl]. unfold nextOffset, lastOutput.
  destruct (value <? LastRawValue d)%float eqn:Hlt.
  - (* a reset: the last output becomes the offset *)
    destruct (add_nonnegative (Offset d) (LastRawValue d) Ho Hl) as [Hs _].
    destruct (add_nonnegative (LastRawValue d) (Offset d) Hl Ho) as [Hs' _].
    eapply float_le_trans;
      [ | | | apply float_add_comm_le; assumption
            | apply float_le_add_r; assumption ]; try assumption.
    apply add_nonnegative; assumption.
  - apply float_add_mono; assumption.
Qed.

Lemma enforceMonotonicy_step metricID value w res w' :
  nonnegative value ->
  nonnegativeState (currentState metricID w) ->
  enforceMonotonicy metricID value w = (res, w') ->
  nonnegativeState (currentState metricID w')
  /\ match res with
     | Ok out =>
         float_le (lastOutput (currentState metricID w)) out
         /\ lastOutput (currentState metricID w') = out
     | _ => currentState metricID w' = currentState metricID w
     end.
Proof.
  intros Hv Hst. rewrite enforceMonotonicy_unfold.
  destruct (getMetricState metricID w) as [r w1] eqn:Hget.
  destruct (getMetricState_current _ _ _ _ Hget) as [Hcur Hok].
  destruct r as [ms|e|]; intros H; injection H as <- <-.
  - destruct (Hok ms eq_refl) as [Hdyn _].
    rewrite currentState_storeIn. rewrite <- Hdyn in Hst |- *.
    split; [|split].
    + split.
      * rewrite afterMonotonicy_Offset. by apply nextOffset_nonnegative.
      * rewrite afterMonotonicy_LastRawValue. exact Hv.
    + by apply output_not_below.
    + unfold lastOutput.
      rewrite afterMonotonicy_Offset, afterMonotonicy_LastRawValue. reflexivity.
  - rewrite Hcur. split; [exact Hst|reflexivity].
  - rewrite Hcur. split; [exact Hst|reflexivity].
Qed.

Lemma feed_sorted metricID inputs : forall w,
  Forall (fun tv => nonnegative (snd tv)) inputs ->
  nonnegativeState (currentState metricID w) ->
  Sorted float_le (returned (fst (feed metricID inputs w)))
  /\ HdRel float_le (lastOutput (currentState metricID w))
           (returned (fst (feed metricID inputs w))).
Proof.
  induction inputs as [|[t value] inputs IH]; intros w Hin Hst.
  - simpl. split; constructor.
  - inversion Hin as [|? ? Hv Hin']; subst. simpl in Hv.
    cbn [feed].
    destruct (enforceMonotonicy metricID value (at_time t w)) as [res w'] eqn:Hstep.
    rewrite <- (currentState_at_time metricID t w) in Hst.
    destruct (enforceMonotonicy_step _ _ _ _ _ Hv Hst Hstep) as [Hst' Hres].
    rewrite currentState_at_time in Hres.
    destruct (IH w' Hin' Hst') as [Hsorted Hhd].
    destruct (feed metricID inputs w') as [rest w''] eqn:Hfeed.
    cbn [fst] in *. destruct res as [out|e|]; cbn [returned].
    + destruct Hres as [Hle Hout]. rewrite Hout in Hhd.
      split; constructor; assumption.
    + rewrite Hres in Hhd. split; assumption.
    + rewrite Hres in Hhd. split; assumption.
Qed.

(** C9. The values [enforceMonotonicy] returns for a sequence of
    non-negative inputs under one metric, from a state with non-negative
    [Offset] and [LastRawValue], never decrease (in IEEE 754 binary64, with
    its rounding and its infinity). In every call that gets the state, the
    output is the input plus the new offset, which is not below the old
    one. *)
Theorem monotonic_outputs (metricID : string) (inputs : list (Time * float))
    (w : World) :
  Forall (fun tv => nonnegative (snd tv)) inputs ->
  nonnegativeState (currentState metricID w) ->
  Sorted float_le (returned (fst (feed metricID inputs w)))
  /\ forall value w0 ms w1,
       nonnegative value -> nonnegativeState (dynamic ms) ->
       getMetricState metricID w0 = (Ok ms, w1) ->
       exists ms' w2,
         enforceMonotonicy metricID value w0
         = (Ok (value + Offset (dynamic ms'))%float, w2)
         /\ states (parser w2) !! metricID = Some ms'
         /\ float_le (Offset (dynamic ms)) (Offset (dynamic ms'))
         /\ nonnegativeState (dynamic ms').
Proof.
  intros Hin Hst. split; [by apply feed_sorted|].
  intros value w0 ms w1 Hv Hms Hget.
  exists (afterMonotonicy value ms), (storeIn metricID (afterMonotonicy value ms) w1).
  rewrite enforceMonotonicy_unfold, Hget, afterMonotonicy_Offset.
  split; [reflexivity|]. split; [apply states_storeIn|].
  split; [by apply nextOffset_grows|].
  split.
  - rewrite afterMonotonicy_Offset. by apply nextOffset_nonnegative.
  - rewrite afterMonotonicy_LastRawValue. exact Hv.
Qed.

End Pipeline.

(* ===================================================================== *)
(** * Runs of the pipeline *)
(* ===================================================================== *)

Section Examples.
Local Existing Instance identExternals.

(** C2. The rule whose expression is [value], fed 1 then 2: the second
    evaluation returns 1, and [value] and [raw_value] are still bound to 1
    in the environment. Whenever the program is already compiled,
    [evalExpressionValue] runs it in the environment it finds in the state
    and leaves that environment as it is. *)
Theorem stale_environment :
  (let '(results, w) :=
     parseAll (expressionRule "value" None) "level"
       [(noon, VFloat 1); ((noon + 30 * Second)%Z, VFloat 2)]
       (freshWorld "/var/lib/mqtt2prometheus" noon) in
   map valueOf results = [Ok 1%float; Ok 1%float]
   /\ (ms ← states (parser w) !! "level"; env ms !! env_value) = Some (VFloat 1)
   /\ (ms ← states (parser w) !! "level"; env ms !! env_raw_value) = Some (VFloat 1))
  /\ forall (E : Externals) metricID code raw_value value
            (w : @World E) ms w1 prog result,
       getMetricState metricID w = (Ok ms, w1) ->
       program ms = Some prog ->
       Run prog (env ms) = Some (VFloat result) ->
       exists w2 ms2,
         evalExpressionValue metricID code raw_value value w = (Ok result, w2)
         /\ states (parser w2) !! metricID = Some ms2
         /\ env ms2 = env ms.
Proof.
  split; [vm_compute; repeat split; reflexivity|].
  intros E metricID code raw_value value w ms w1 prog result Hget Hprog Hrun.
  rewrite (evalExpressionValue_compiled _ _ _ _ _ _ _ _ Hget Hprog), Hrun.
  eexists _, _. split; [reflexivity|]. split; [apply states_storeIn|reflexivity].
Qed.

(** C3, as stated, fails: the raw expression [value +] does not compile,
    an [error_value] of -1 is set, and [parseMetric] returns a metric of
    value -1. *)
Lemma compile_failure_swallowed :
  Compile "value +" (firstEnv (VFloat 5) 0 noon zeroMetricState) true = None
  /\ ErrorValue (rawExpressionRule "value +" (Some (-1)%float)) = Some (-1)%float
  /\ valueOf (fst (parseMetric (rawExpressionRule "value +" (Some (-1)%float))
                     "level" (VFloat 5)
                     (freshWorld "/var/lib/mqtt2prometheus" noon)))
     = Ok (-1)%float.
Proof. repeat split; vm_compute; reflexivity. Qed.

Lemma compile_failure_masked_witness :
  exists w2,
    parseMetric (rawExpressionRule "value +" (Some (-1)%float)) "level" (VFloat 5)
      (freshWorld "/var/lib/mqtt2prometheus" noon)
    = afterDerivation (rawExpressionRule "value +" (Some (-1)%float)) "level"
        (VFloat 5) (-1)%float w2.
Proof.
  assert (Hget : fst (getMetricState "level"
                        (freshWorld "/var/lib/mqtt2prometheus" noon))
                 = Ok (set_lastWritten noon zeroMetricState))
    by (vm_compute; reflexivity).
  assert (Hclock : clock (snd (getMetricState "level"
                                 (freshWorld "/var/lib/mqtt2prometheus" noon)))
                   = noon)
    by (vm_compute; reflexivity).
  destruct (getMetricState "level" (freshWorld "/var/lib/mqtt2prometheus" noon))
    as [res w1] eqn:Hstate.
  simpl in Hget, Hclock. subst res.
  destruct (proj1 (compile_failure_masked
                     (rawExpressionRule "value +" (Some (-1)%float)) "level"
                     (VFloat 5) (freshWorld "/var/lib/mqtt2prometheus" noon))
              ltac:(discriminate) _ _ Hstate eq_refl)
    as (w2 & _ & H).
  - rewrite Hclock. vm_compute. reflexivity.
  - exists w2. exact H.
Defined.





(** C7, as stated, fails: [ambiguousRule] has both expressions, and the
    error [LoadConfig] returns for the document names [conflictingRule],
    the rule before it, for its two error values. *)
Lemma other_rule_reported :
  resolve ambiguousRule zeroMetricConfig MetricConfigDefaults
    ∈ mergedRules twoDefectsConfig
  /\ hasBothExpressions (resolve ambiguousRule zeroMetricConfig MetricConfigDefaults)
     = true
  /\ LoadConfig (fun _ => true) twoDefectsConfig
     = LoadError (ErrBothErrorValues "state" "state").
Proof.
  split; [right; left|]. split; reflexivity.
Qed.

(** A rule with both defects is named by the error of the check that
    comes first. *)
Lemma rule_with_both_defects_named :
  hasBothExpressions (resolve doubleDefectRule zeroMetricConfig MetricConfigDefaults)
  = true
  /\ LoadConfig (fun _ => true) doubleDefectConfig
     = LoadError (ErrBothErrorValues "level" "level").
Proof. split; reflexivity. Qed.

Lemma both_expressions_rejected_witness :
  hasBothExpressions (resolve ambiguousRule zeroMetricConfig MetricConfigDefaults)
  = true
  /\ (forall c, LoadConfig (fun _ => true) ambiguousConfig <> Loaded c)
  /\ LoadConfig (fun _ => true) ambiguousConfig
     = LoadError (ErrMutuallyExclusive "level" "level").
Proof.
  destruct (both_expressions_rejected (fun _ => true) ambiguousConfig
              (resolve ambiguousRule zeroMetricConfig MetricConfigDefaults)
              (list_elem_of_here _ _) eq_refl)
    as (H1 & pre & m0 & post & _ & _ & _ & _ & Hfirst & _ & Hnames & _).
  split; [reflexivity|]. split; [exact H1|].
  destruct (Hfirst [] [] eq_refl (Forall_nil_2 _)) as (_ & <- & _).
  rewrite Hnames.
  - reflexivity.
  - exists {| r := Some compiled_deviceid; pattern := "(.*/)?(?P<deviceid>.*)" |},
           compiled_deviceid.
    split; [reflexivity|]. split; [reflexivity|]. right. right. left.
  - intros mpt Hmpt. discriminate Hmpt.
Defined.

Lemma monotonic_outputs_witness :
  Forall (fun tv : Time * float => nonnegative (snd tv))
    [(noon, 10%float); (noon, 20%float); (noon, 15%float); (noon, 25%float)]
  /\ Sorted float_le
       (returned (fst (feed "energy_total"
          [(noon, 10%float); (noon, 20%float); (noon, 15%float); (noon, 25%float)]
          (freshWorld "/var/lib/mqtt2prometheus" noon)))).
Proof.
  assert (H : Forall (fun tv : Time * float => nonnegative (snd tv))
    [(noon, 10%float); (noon, 20%float); (noon, 15%float); (noon, 25%float)]).
  { repeat constructor. }
  split; [exact H|].
  apply (monotonic_outputs "energy_total" _ (freshWorld "/var/lib/mqtt2prometheus" noon) H).
  split; reflexivity.
Defined.

End Examples.

(* ===================================================================== *)
(** * The resolver: what LoadConfig accepts and what it returns *)
(* ===================================================================== *)

Lemma checkMetric_withDefaultName m :
  passes m -> checkMetric m = Loaded (withDefaultName m).
Proof. unfold checkMetric, withDefaultName. intros [-> ->]. reflexivity. Qed.

Lemma checkMetrics_Loaded ms ms' :
  checkMetrics ms = Loaded ms' <->
  Forall passes ms /\ ms' = map withDefaultName ms.
Proof.
  revert ms'. induction ms as [|m ms IH]; intros ms'; simpl.
  - split; [intros H; injection H as <-; auto|intros [_ ->]; reflexivity].
  - split.
    + destruct (checkMetric m) as [m1| |] eqn:Hm; simpl; try discriminate.
      destruct (checkMetrics ms) as [ms1| |] eqn:Hms; simpl; try discriminate.
      intros H. injection H as <-.
      pose proof (checkMetric_Loaded _ _ Hm) as Hp.
      rewrite (checkMetric_withDefaultName _ Hp) in Hm. injection Hm as <-.
      destruct (proj1 (IH ms1) eq_refl) as [Hall ->]. split; [by constructor|reflexivity].
    + intros [Hall ->]. inversion Hall as [|? ? Hp Hall']; subst.
      rewrite (checkMetric_withDefaultName _ Hp). simpl.
      rewrite (proj2 (IH _) (conj Hall' eq_refl)). reflexivity.
Qed.

Lemma checkBlocks_Loaded bs bs' :
  checkBlocks bs = Loaded bs' <->
  Forall passes (flat_map Metrics bs) /\ bs' = map checkedBlock bs.
Proof.
  revert bs'. induction bs as [|b bs IH]; intros bs'; simpl.
  - split; [intros H; injection H as <-; auto|intros [_ ->]; reflexivity].
  - rewrite Forall_app. split.
    + destruct (checkMetrics (Metrics b)) as [ms1| |] eqn:Hm; simpl; try discriminate.
      destruct (checkBlocks bs) as [bs1| |] eqn:Hbs; simpl; try discriminate.
      intros H. injection H as <-.
      apply checkMetrics_Loaded in Hm as [Hall ->].
      destruct (proj1 (IH bs1) eq_refl) as [Hall' ->]. auto.
    + intros [[Hb Hall] ->].
      rewrite (proj2 (checkMetrics_Loaded _ _) (conj Hb eq_refl)). simpl.
      rewrite (proj2 (IH _) (conj Hall eq_refl)). reflexivity.
Qed.

Lemma checkBlocks_not_panic bs : checkBlocks bs <> LoadPanic.
Proof.
  induction bs as [|b bs IH]; simpl; [discriminate|].
  assert (Hm : checkMetrics (Metrics b) <> LoadPanic).
  { generalize (Metrics b). intros ms. induction ms as [|m ms IHm]; simpl; [discriminate|].
    pose proof (checkMetric_not_panic m).
    destruct (checkMetric m); simpl; try congruence.
    destruct (checkMetrics ms); simpl; congruence. }
  destruct (checkMetrics (Metrics b)); simpl; try congruence.
  destruct (checkBlocks bs); simpl; congruence.
Qed.

Lemma forcesMonotonicy_Exists bs :
  forcesMonotonicy bs = true <->
  Exists (fun m => ForceMonotonicy m = true) (flat_map Metrics bs).
Proof.
  unfold forcesMonotonicy. rewrite existsb_exists, Exists_exists. split.
  - intros (b & Hb & Hex). apply existsb_exists in Hex as (m & Hm & Hf).
    exists m. split; [|exact Hf]. apply list_elem_of_In, in_flat_map. eauto.
  - intros (m & Hm & Hf). apply list_elem_of_In, in_flat_map in Hm as (b & Hb & Hm).
    exists b. split; [exact Hb|]. apply existsb_exists. eauto.
Qed.

(** X1. [LoadConfig] returns a configuration exactly when: the device id
    expression, the one of the document or else the default one, is
    compiled and names the group [deviceid]; the metric name expression of
    [metric_per_topic_config], when the document has that section, is
    compiled and names the group [metricname]; every merged rule passes the
    two checks of the loop over the rules; and, if a merged rule forces
    monotonicity, the state directory could be created. *)
Theorem LoadConfig_succeeds_iff (MkdirAll : string -> bool) (cfg : Config) :
  (exists c, LoadConfig MkdirAll cfg = Loaded c) <->
  namesGroup (deviceIDRegexOf cfg) DeviceIDRegexGroup
  /\ (forall mpt, MetricPerTopic (mqttOf cfg) = Some mpt ->
                  namesGroup (MetricNameRegex mpt) MetricNameRegexGroup)
  /\ Forall passes (mergedRules cfg)
  /\ (Exists (fun m => ForceMonotonicy m = true) (mergedRules cfg) ->
      MkdirAll (stateDirOf cfg) = true).
Proof.
  rewrite LoadConfig_steps. unfold mergedRules. split.
  - intros [c H].
    destruct (deviceID_cases cfg) as [(names & Hn & Hg & Hng)|[[Hn _]|(names & ? & ? & Hn & Hg & _)]];
      rewrite Hn in H; simpl in H; rewrite ?Hg in H; simpl in H; try discriminate.
    destruct (metricNameCheck_cases cfg) as [[Hm Hmpt]|[[Hm _]|[Hm _]]];
      rewrite Hm in H; simpl in H; try discriminate.
    destruct (checkBlocks _) as [blocks| |] eqn:Hb; simpl in H; try discriminate.
    apply checkBlocks_Loaded in Hb as [Hall ->].
    destruct (forcesMonotonicy _) eqn:Hf; simpl in H.
    + destruct (MkdirAll (stateDirOf cfg)) eqn:Hmk; simpl in H; [|discriminate]. auto.
    + repeat split; auto. intros Hex. apply forcesMonotonicy_Exists in Hex. congruence.
  - intros (Hng & Hmpt & Hall & Hdir).
    apply namesGroup_check in Hng as (names & -> & Hg). simpl. rewrite Hg. simpl.
    destruct (metricNameCheck_cases cfg) as [[Hm _]|[[_ (mpt & Hs & Hr)]|[_ (mpt & rf & re & Hs & Hrf & Hr & Hnot)]]].
    + rewrite Hm. simpl.
      rewrite (proj2 (checkBlocks_Loaded _ _) (conj Hall eq_refl)). simpl.
      destruct (forcesMonotonicy _) eqn:Hf; simpl; [|eauto].
      apply forcesMonotonicy_Exists in Hf. rewrite (Hdir Hf). simpl. eauto.
    + destruct (Hmpt _ Hs) as (rf' & re' & Hrf & Hr' & _).
      rewrite Hrf in Hr. simpl in Hr. congruence.
    + destruct (Hmpt _ Hs) as (rf' & re' & Hrf' & Hr' & Hin).
      congruence.
Qed.

Lemma LoadConfig_Loaded_inv MkdirAll cfg c :
  LoadConfig MkdirAll cfg = Loaded c ->
  namesGroup (deviceIDRegexOf cfg) DeviceIDRegexGroup
  /\ (forall mpt, MetricPerTopic (mqttOf cfg) = Some mpt ->
                  namesGroup (MetricNameRegex mpt) MetricNameRegexGroup)
  /\ Forall passes (mergedRules cfg)
  /\ JsonParsing c = Some (default JsonParsingConfigDefaults (JsonParsing cfg))
  /\ Blocks c = map checkedBlock (mergedBlocks (Blocks cfg))
  /\ Cache c = Some {| Timeout := Timeout (default CacheConfigDefaults (Cache cfg));
                       StateDir := stateDirOf cfg |}
  /\ EnableProfiling c = EnableProfiling cfg
  /\ exists mqtt, MQTT c = Some mqtt
       /\ DeviceIDRegex mqtt = deviceIDRegexOf cfg
       /\ MetricPerTopic mqtt = MetricPerTopic (mqttOf cfg)
       /\ ObjectPerTopic mqtt =
          match ObjectPerTopic (mqttOf cfg), MetricPerTopic (mqttOf cfg) with
          | None, None => Some {| Encoding := EncodingJSON |}
          | o, _ => o
          end
       /\ Server mqtt = Server (mqttOf cfg) /\ TopicPath mqtt = TopicPath (mqttOf cfg)
       /\ QoS mqtt = QoS (mqttOf cfg).
Proof.
  rewrite LoadConfig_steps. unfold mergedRules. intros H.
  destruct (deviceID_cases cfg) as [(names & Hn & Hg & Hng)|[[Hn _]|(names & ? & ? & Hn & Hg & _)]];
    rewrite Hn in H; simpl in H; rewrite ?Hg in H; simpl in H; try discriminate.
  destruct (metricNameCheck_cases cfg) as [[Hm Hmpt]|[[Hm _]|[Hm _]]];
    rewrite Hm in H; simpl in H; try discriminate.
  destruct (checkBlocks _) as [blocks| |] eqn:Hb; simpl in H; try discriminate.
  apply checkBlocks_Loaded in Hb as [Hall ->].
  destruct (forcesMonotonicy _ && negb _); [discriminate|].
  injection H as <-. simpl. repeat split; auto.
  eexists. split; [reflexivity|]. simpl. repeat split; reflexivity.
Qed.

Lemma stateDirOf_nonempty cfg : stateDirOf cfg <> "".
Proof.
  unfold stateDirOf. cbv zeta.
  destruct (String.eqb (StateDir (default CacheConfigDefaults (Cache cfg))) "") eqn:H.
  - discriminate.
  - by apply String.eqb_neq.
Qed.

(** The [mqtt] section of a configuration that [LoadConfig] returns. *)
Lemma LoadConfig_Loaded_mqtt MkdirAll cfg c :
  LoadConfig MkdirAll cfg = Loaded c ->
  MQTT c = Some
    {| Server := Server (mqttOf cfg); TopicPath := TopicPath (mqttOf cfg);
       DeviceIDRegex := deviceIDRegexOf cfg;
       User := User (mqttOf cfg); Password := Password (mqttOf cfg);
       QoS := QoS (mqttOf cfg);
       ObjectPerTopic :=
         match ObjectPerTopic (mqttOf cfg), MetricPerTopic (mqttOf cfg) with
         | None, None => Some {| Encoding := EncodingJSON |}
         | o, _ => o
         end;
       MetricPerTopic := MetricPerTopic (mqttOf cfg);
       CACert := CACert (mqttOf cfg); ClientCert := ClientCert (mqttOf cfg);
       ClientKey := ClientKey (mqttOf cfg); ClientID := ClientID (mqttOf cfg) |}.
Proof.
  rewrite LoadConfig_steps. intros H.
  destruct (subexpNamesOf (deviceIDRegexOf cfg)) as [names| |];
    simpl in H; try discriminate.
  destruct (negb (hasGroup DeviceIDRegexGroup names)); try discriminate.
  destruct (metricNameCheck cfg); simpl in H; try discriminate.
  destruct (checkBlocks _); simpl in H; try discriminate.
  destruct (forcesMonotonicy _ && negb _); [discriminate|].
  injection H as <-. reflexivity.
Qed.

(** X2. A configuration that [LoadConfig] returns has its three sections
    [mqtt], [cache] and [json_parsing], and [enable_profiling_metrics] as
    the document has it. Its state directory is not the empty string, its
    device id expression names [deviceid], and one of the two topic
    layouts is set. A section the document omits is the default one, with
    the JSON object layout for [mqtt]. A [json_parsing] section of the
    document is kept. A [cache] section is kept, but for an empty state
    directory, which becomes the default directory. An [mqtt] section is
    kept field by field, but for a missing device id expression, which
    becomes the default one, and for the JSON object layout, which is
    added when the section has neither layout: it is returned as it is
    when it has a device id expression and a layout. *)
Theorem LoadConfig_fills_defaults (MkdirAll : string -> bool) (cfg c : Config) :
  LoadConfig MkdirAll cfg = Loaded c ->
  exists mqtt cache jsonParsing,
    MQTT c = Some mqtt /\ Cache c = Some cache /\ JsonParsing c = Some jsonParsing
    /\ EnableProfiling c = EnableProfiling cfg
    /\ StateDir cache <> ""
    /\ namesGroup (DeviceIDRegex mqtt) DeviceIDRegexGroup
    /\ (ObjectPerTopic mqtt = None -> MetricPerTopic mqtt <> None)
    /\ (MQTT cfg = None ->
        mqtt = {| Server := "tcp://127.0.0.1:1883"; TopicPath := "v1/devices/me";
                  DeviceIDRegex := DeviceIDRegex MQTTConfigDefaults;
                  User := ""; Password := ""; QoS := 0%Z;
                  ObjectPerTopic := Some {| Encoding := EncodingJSON |};
                  MetricPerTopic := None;
                  CACert := ""; ClientCert := ""; ClientKey := "";
                  ClientID := "" |})
    /\ (forall q, MQTT cfg = Some q ->
          mqtt = {| Server := Server q; TopicPath := TopicPath q;
                    DeviceIDRegex :=
                      match DeviceIDRegex q with
                      | Some rf => Some rf
                      | None => DeviceIDRegex MQTTConfigDefaults
                      end;
                    User := User q; Password := Password q; QoS := QoS q;
                    ObjectPerTopic :=
                      match ObjectPerTopic q, MetricPerTopic q with
                      | None, None => Some {| Encoding := EncodingJSON |}
                      | o, _ => o
                      end;
                    MetricPerTopic := MetricPerTopic q;
                    CACert := CACert q; ClientCert := ClientCert q;
                    ClientKey := ClientKey q; ClientID := ClientID q |}
          /\ (DeviceIDRegex q <> None ->
              ObjectPerTopic q <> None \/ MetricPerTopic q <> None ->
              mqtt = q))
    /\ (Cache cfg = None -> cache = CacheConfigDefaults)
    /\ (forall k, Cache cfg = Some k ->
          Timeout cache = Timeout k
          /\ (StateDir k <> "" -> cache = k)
          /\ (StateDir k = "" -> StateDir cache = StateDir CacheConfigDefaults))
    /\ (JsonParsing cfg = None -> jsonParsing = JsonParsingConfigDefaults)
    /\ (forall j, JsonParsing cfg = Some j -> jsonParsing = j).
Proof.
  intros H.
  pose proof (LoadConfig_Loaded_mqtt _ _ _ H) as Hmqtt.
  apply LoadConfig_Loaded_inv in H
    as (Hng & _ & _ & Hj & _ & Hc & Hp & mqtt & Hm & Hd & Hmpt & Hopt & _).
  exists mqtt, {| Timeout := Timeout (default CacheConfigDefaults (Cache cfg));
                  StateDir := stateDirOf cfg |},
         (default JsonParsingConfigDefaults (JsonParsing cfg)).
  split; [exact Hm|]. split; [exact Hc|]. split; [exact Hj|]. split; [exact Hp|].
  split; [apply stateDirOf_nonempty|].
  split; [rewrite Hd; exact Hng|].
  split.
  { rewrite Hopt, Hmpt.
    destruct (ObjectPerTopic (mqttOf cfg)), (MetricPerTopic (mqttOf cfg)); congruence. }
  rewrite Hm in Hmqtt. injection Hmqtt as ->.
  split.
  { intros Hnone. unfold deviceIDRegexOf, mqttOf. rewrite Hnone. reflexivity. }
  split.
  { intros q Hq. unfold deviceIDRegexOf, mqttOf. rewrite Hq. simpl.
    split; [reflexivity|]. intros Hre Hlayout.
    destruct q as [? ? [rf|] ? ? ? [o|] [mpt|] ? ? ? ?]; simpl in *;
      try reflexivity; try congruence.
    destruct Hlayout; congruence. }
  split; [intros Hn; unfold stateDirOf; rewrite Hn; reflexivity|].
  split.
  { intros k Hk. unfold stateDirOf. rewrite Hk. simpl. split; [reflexivity|].
    split.
    - intros Hdir. apply String.eqb_neq in Hdir. rewrite Hdir. by destruct k.
    - intros ->. reflexivity. }
  split; [intros ->; reflexivity|].
  intros j ->. reflexivity.
Qed.

Lemma withDefaultName_fields m :
  PrometheusName (withDefaultName m) = PrometheusName m
  /\ TopicPathFilter (withDefaultName m) = TopicPathFilter m
  /\ hasBothErrorValues (withDefaultName m) = hasBothErrorValues m
  /\ hasBothExpressions (withDefaultName m) = hasBothExpressions m
  /\ MQTTName (withDefaultName m)
     = (if String.eqb (MQTTName m) "" then PrometheusName m else MQTTName m).
Proof.
  unfold withDefaultName. destruct (String.eqb (MQTTName m) ""); repeat split; reflexivity.
Qed.

Lemma resolve_TopicPathFilter T S :
  TopicPathFilter (resolve T S MetricConfigDefaults) <> None.
Proof.
  unfold resolve, inherit, inheritField; simpl.
  destruct (TopicPathFilter T), (TopicPathFilter S); simpl; discriminate.
Qed.

(** X3. The blocks of a configuration that [LoadConfig] returns are those
    of the document: the shared fragment as it was, each rule merged with
    the shared and the default fragment and then given [prom_name] as its
    [mqtt_name] when it had none. Every rule returned passes both checks of
    the loop, has a topic path filter, and has an [mqtt_name] unless it has
    no [prom_name] either. *)
Theorem LoadConfig_loaded_rules (MkdirAll : string -> bool) (cfg c : Config) :
  LoadConfig MkdirAll cfg = Loaded c ->
  Blocks c
  = map (fun b =>
           {| SharedValues := SharedValues b;
              Metrics := map (fun T => withDefaultName
                                (resolve T (SharedValues b) MetricConfigDefaults))
                             (Metrics b) |})
        (Blocks cfg)
  /\ Forall (fun m =>
               passes m
               /\ TopicPathFilter m <> None
               /\ (MQTTName m = "" -> PrometheusName m = ""))
            (flat_map Metrics (Blocks c)).
Proof.
  intros H.
  apply LoadConfig_Loaded_inv in H as (_ & _ & Hall & _ & Hb & _).
  assert (Hblocks : Blocks c
    = map (fun b =>
           {| SharedValues := SharedValues b;
              Metrics := map (fun T => withDefaultName
                                (resolve T (SharedValues b) MetricConfigDefaults))
                             (Metrics b) |})
        (Blocks cfg)).
  { rewrite Hb. unfold mergedBlocks. rewrite map_map. apply map_ext. intros b.
    unfold checkedBlock. rewrite mergeBlock_resolve, map_map. reflexivity. }
  split; [exact Hblocks|].
  rewrite Hblocks. apply Forall_forall. intros m Hin.
  apply list_elem_of_In, in_flat_map in Hin as (b' & Hb' & Hm).
  apply in_map_iff in Hb' as (b & <- & Hbin). simpl in Hm.
  apply in_map_iff in Hm as (T & <- & HT).
  set (m := resolve T (SharedValues b) MetricConfigDefaults).
  destruct (withDefaultName_fields m) as (Hpn & Htp & He & Hx & Hn).
  assert (Hpass : passes m).
  { rewrite Forall_forall in Hall. apply Hall. unfold mergedRules, mergedBlocks.
    apply list_elem_of_In, in_flat_map. exists (mergeBlock b). split.
    - apply in_map_iff. eauto.
    - rewrite mergeBlock_resolve. apply in_map_iff. eauto. }
  split; [|split].
  - unfold passes in *. rewrite He, Hx. exact Hpass.
  - rewrite Htp. apply resolve_TopicPathFilter.
  - rewrite Hn, Hpn. destruct (String.eqb (MQTTName m) "") eqn:Heq; [auto|].
    apply String.eqb_neq in Heq. tauto.
Qed.

(** X4. [LoadConfig] asks for the state directory only when a merged rule
    forces monotonicity: without such a rule its result does not depend on
    whether the directory can be created. It fails with the error of the
    directory exactly when the directory, after its default, cannot be
    created, a merged rule forces monotonicity, and all the checks before
    pass. *)
Theorem state_directory_on_demand (MkdirAll : string -> bool) (cfg : Config) :
  (Forall (fun m => ForceMonotonicy m = false) (mergedRules cfg) ->
   forall MkdirAll', LoadConfig MkdirAll' cfg = LoadConfig MkdirAll cfg)
  /\ (forall d, LoadConfig MkdirAll cfg = LoadError (ErrCreateDirectory d) <->
        d = stateDirOf cfg
        /\ MkdirAll d = false
        /\ Exists (fun m => ForceMonotonicy m = true) (mergedRules cfg)
        /\ Forall passes (mergedRules cfg)
        /\ namesGroup (deviceIDRegexOf cfg) DeviceIDRegexGroup
        /\ (forall mpt, MetricPerTopic (mqttOf cfg) = Some mpt ->
                        namesGroup (MetricNameRegex mpt) MetricNameRegexGroup)).
Proof.
  split.
  - intros Hno MkdirAll'. rewrite !LoadConfig_steps.
    assert (Hf : forcesMonotonicy (mergedBlocks (Blocks cfg)) = false).
    { apply not_true_is_false. intros Hf. apply forcesMonotonicy_Exists in Hf.
      apply Exists_exists in Hf as (m & Hin & Hm).
      rewrite Forall_forall in Hno. specialize (Hno m Hin). congruence. }
    rewrite Hf. reflexivity.
  - intros d. rewrite LoadConfig_steps. unfold mergedRules. split.
    + intros H.
      destruct (deviceID_cases cfg) as [(names & Hn & Hg & Hng)|[[Hn _]|(names & ? & ? & Hn & Hg & _)]];
        rewrite Hn in H; simpl in H; rewrite ?Hg in H; simpl in H; try discriminate.
      destruct (metricNameCheck_cases cfg) as [[Hm Hmpt]|[[Hm _]|[Hm _]]];
        rewrite Hm in H; simpl in H; try discriminate.
      destruct (checkBlocks _) as [blocks|e|] eqn:Hb; simpl in H; try discriminate.
      * apply checkBlocks_Loaded in Hb as [Hall ->].
        destruct (forcesMonotonicy _) eqn:Hf; simpl in H; [|discriminate].
        destruct (MkdirAll (stateDirOf cfg)) eqn:Hmk; simpl in H; [discriminate|].
        injection H as <-. repeat split; auto. by apply forcesMonotonicy_Exists.
      * injection H as ->. exfalso. clear - Hb.
        assert (Hm : forall ms d, checkMetrics ms <> LoadError (ErrCreateDirectory d)).
        { clear. induction ms as [|m ms IH]; intros d; simpl; [discriminate|].
          unfold checkMetric.
          destruct (hasBothErrorValues m); [discriminate|].
          destruct (hasBothExpressions m); [discriminate|]. simpl.
          specialize (IH d). destruct (checkMetrics ms); simpl; congruence. }
        revert Hb. generalize (mergedBlocks (Blocks cfg)).
        induction l as [|b bs IH]; simpl; [discriminate|].
        specialize (Hm (Metrics b) d).
        destruct (checkMetrics (Metrics b)); simpl; try congruence.
        destruct (checkBlocks bs); simpl; congruence.
    + intros (-> & Hmk & Hex & Hall & Hng & Hmpt).
      apply namesGroup_check in Hng as (names & -> & Hg). simpl. rewrite Hg. simpl.
      destruct (metricNameCheck_cases cfg) as [[Hm _]|[[_ (mpt & Hs & Hr)]|[_ (mpt & rf & re & Hs & Hrf & Hr & Hnot)]]].
      * rewrite Hm. simpl.
        rewrite (proj2 (checkBlocks_Loaded _ _) (conj Hall eq_refl)). simpl.
        apply forcesMonotonicy_Exists in Hex. rewrite Hex, Hmk. reflexivity.
      * destruct (Hmpt _ Hs) as (rf' & re' & Hrf & Hr' & _).
        rewrite Hrf in Hr. simpl in Hr. congruence.
      * destruct (Hmpt _ Hs) as (rf' & re' & Hrf' & Hr' & Hin). congruence.
Qed.

(** X5. [LoadConfig] dereferences nil in exactly two cases: the device id
    expression of the document is not compiled; or the device id check
    passes and the document has a [metric_per_topic_config] whose metric
    name expression is missing or not compiled. *)
Theorem LoadConfig_panics_iff (MkdirAll : string -> bool) (cfg : Config) :
  LoadConfig MkdirAll cfg = LoadPanic <->
  (exists rf, DeviceIDRegex (mqttOf cfg) = Some rf /\ r rf = None)
  \/ (namesGroup (deviceIDRegexOf cfg) DeviceIDRegexGroup
      /\ exists mpt, MetricPerTopic (mqttOf cfg) = Some mpt
           /\ (MetricNameRegex mpt = None
               \/ (exists rf, MetricNameRegex mpt = Some rf /\ r rf = None))).
Proof.
  rewrite LoadConfig_steps. split.
  - intros H.
    destruct (deviceID_cases cfg) as [(names & Hn & Hg & Hng)|[[Hn Hex]|(names & ? & ? & Hn & Hg & _)]];
      rewrite Hn in H; simpl in H; rewrite ?Hg in H; simpl in H; try discriminate;
      [|left; exact Hex].
    right. split; [exact Hng|].
    destruct (metricNameCheck_cases cfg) as [[Hm Hmpt]|[[Hm (mpt & Hs & Hr)]|[Hm _]]];
      rewrite Hm in H; simpl in H; try discriminate.
    + pose proof (checkBlocks_not_panic (mergedBlocks (Blocks cfg))) as Hnp.
      destruct (checkBlocks _); simpl in H; try congruence.
      destruct (forcesMonotonicy _ && negb _); discriminate.
    + exists mpt. split; [exact Hs|].
      destruct (MetricNameRegex mpt) as [rf|]; [right|left; reflexivity].
      exists rf. split; [reflexivity|exact Hr].
  - intros [(rf & Hrf & Hr)|(Hng & mpt & Hs & Hcase)].
    + unfold deviceIDRegexOf. rewrite Hrf. simpl. rewrite Hr. reflexivity.
    + apply namesGroup_check in Hng as (names & -> & Hg). simpl. rewrite Hg. simpl.
      unfold metricNameCheck. rewrite Hs.
      destruct Hcase as [->|(rf & -> & Hr)]; simpl; [reflexivity|].
      rewrite Hr. reflexivity.
Qed.

(** X6. [LoadConfig] returns the error of the device id expression exactly
    when the expression of the document is compiled and does not name the
    group [deviceid]; the error carries the pattern of that expression. It
    returns the error of the metric name expression exactly when the device
    id check passes and the metric name expression is compiled and does not
    name the group [metricname]; the pattern this error carries is the
    pattern of the device id expression. *)
Theorem regex_group_errors (MkdirAll : string -> bool) (cfg : Config)
    (p g : string) :
  (LoadConfig MkdirAll cfg = LoadError (ErrDeviceIDRegex p g) <->
   g = DeviceIDRegexGroup
   /\ (exists rf re, DeviceIDRegex (mqttOf cfg) = Some rf /\ r rf = Some re
         /\ (DeviceIDRegexGroup ∉ SubexpNames re) /\ p = pattern rf))
  /\ (LoadConfig MkdirAll cfg = LoadError (ErrMetricNameRegex p g) <->
      g = MetricNameRegexGroup
      /\ namesGroup (deviceIDRegexOf cfg) DeviceIDRegexGroup
      /\ (exists mpt rf re, MetricPerTopic (mqttOf cfg) = Some mpt
            /\ MetricNameRegex mpt = Some rf /\ r rf = Some re
            /\ MetricNameRegexGroup ∉ SubexpNames re)
      /\ p = from_option pattern "" (deviceIDRegexOf cfg)).
Proof.
  assert (Hrules : forall e,
    load_bind (checkBlocks (mergedBlocks (Blocks cfg))) (fun blocks =>
      if forcesMonotonicy (mergedBlocks (Blocks cfg)) && negb (MkdirAll (stateDirOf cfg))
      then LoadError (ErrCreateDirectory (stateDirOf cfg))
      else Loaded
        {| JsonParsing := Some (default JsonParsingConfigDefaults (JsonParsing cfg));
           Blocks := blocks;
           MQTT := Some
             {| Server := Server (mqttOf cfg); TopicPath := TopicPath (mqttOf cfg);
                DeviceIDRegex := deviceIDRegexOf cfg;
                User := User (mqttOf cfg); Password := Password (mqttOf cfg);
                QoS := QoS (mqttOf cfg);
                ObjectPerTopic :=
                  match ObjectPerTopic (mqttOf cfg), MetricPerTopic (mqttOf cfg) with
                  | None, None => Some {| Encoding := EncodingJSON |}
                  | o, _ => o
                  end;
                MetricPerTopic := MetricPerTopic (mqttOf cfg);
                CACert := CACert (mqttOf cfg); ClientCert := ClientCert (mqttOf cfg);
                ClientKey := ClientKey (mqttOf cfg); ClientID := ClientID (mqttOf cfg) |};
           Cache := Some {| Timeout := Timeout (default CacheConfigDefaults (Cache cfg));
                            StateDir := stateDirOf cfg |};
           EnableProfiling := EnableProfiling cfg |}) = LoadError e ->
    (forall p g, e <> ErrDeviceIDRegex p g) /\ (forall p g, e <> ErrMetricNameRegex p g)).
  { intros e.
    assert (Hm : forall ms e, checkMetrics ms = LoadError e ->
      (forall p g, e <> ErrDeviceIDRegex p g) /\ (forall p g, e <> ErrMetricNameRegex p g)).
    { clear. induction ms as [|m ms IH]; intros e; simpl; [discriminate|].
      unfold checkMetric.
      destruct (hasBothErrorValues m); [intros [= <-]; split; discriminate|].
      destruct (hasBothExpressions m); [intros [= <-]; split; discriminate|]. simpl.
      specialize (IH e). destruct (checkMetrics ms); simpl; try discriminate.
      intros [= ->]. by apply IH. }
    assert (Hb : forall bs e, checkBlocks bs = LoadError e ->
      (forall p g, e <> ErrDeviceIDRegex p g) /\ (forall p g, e <> ErrMetricNameRegex p g)).
    { clear - Hm. induction bs as [|b bs IH]; intros e; simpl; [discriminate|].
      specialize (Hm (Metrics b) e).
      destruct (checkMetrics (Metrics b)); simpl; try discriminate.
      - specialize (IH e). destruct (checkBlocks bs); simpl; try discriminate.
        intros [= ->]. by apply IH.
      - intros [= ->]. by apply Hm. }
    specialize (Hb (mergedBlocks (Blocks cfg)) e).
    destruct (checkBlocks _); simpl; try discriminate.
    - destruct (forcesMonotonicy _ && negb _); [|discriminate].
      intros [= <-]. split; discriminate.
    - intros [= ->]. by apply Hb. }
  rewrite LoadConfig_steps. split; split.
  - intros H.
    destruct (deviceID_cases cfg) as [(names & Hn & Hg & Hng)|[[Hn Hex]|(names & rf & re & Hn & Hg & Hrf & Hr & Heff & Hnot)]];
      rewrite Hn in H; simpl in H; rewrite ?Hg in H; simpl in H; try discriminate.
    + exfalso.
      destruct (metricNameCheck_cases cfg) as [[Hm Hmpt]|[[Hm _]|[Hm _]]];
        rewrite Hm in H; simpl in H; try discriminate.
      apply Hrules in H as [H _]. by eapply H.
    + injection H as <- <-. split; [reflexivity|].
      exists rf, re. rewrite Heff. auto.
  - intros (-> & rf & re & Hrf & Hr & Hnot & ->).
    unfold deviceIDRegexOf. rewrite Hrf. simpl. rewrite Hr. simpl.
    destruct (hasGroup DeviceIDRegexGroup (SubexpNames re)) eqn:Hg; [|reflexivity].
    apply hasGroup_elem in Hg. tauto.
  - intros H.
    destruct (deviceID_cases cfg) as [(names & Hn & Hg & Hng)|[[Hn Hex]|(names & rf & re & Hn & Hg & _)]];
      rewrite Hn in H; simpl in H; rewrite ?Hg in H; simpl in H; try discriminate.
    destruct (metricNameCheck_cases cfg) as [[Hm Hmpt]|[[Hm _]|[Hm Hex]]];
      rewrite Hm in H; simpl in H; try discriminate.
    + exfalso. apply Hrules in H as [_ H]. by eapply H.
    + injection H as <- <-. auto.
  - intros (-> & Hng & (mpt & rf & re & Hs & Hrf & Hr & Hnot) & ->).
    apply namesGroup_check in Hng as (names & -> & Hg). simpl. rewrite Hg. simpl.
    unfold metricNameCheck. rewrite Hs, Hrf. simpl. rewrite Hr. simpl.
    destruct (hasGroup MetricNameRegexGroup (SubexpNames re)) eqn:Hg'; [|reflexivity].
    apply hasGroup_elem in Hg'. tauto.
Qed.

Lemma inheritField_idem {A} (z : A -> bool) dst src :
  inheritField z (inheritField z dst src) src = inheritField z dst src.
Proof.
  unfold inheritField.
  destruct (z dst) eqn:Hd, (z src) eqn:Hs; simpl; rewrite ?Hd, ?Hs; reflexivity.
Qed.

Lemma inherit_idem T S : inherit (inherit T S) S = inherit T S.
Proof. unfold inherit. simpl. rewrite !inheritField_idem. reflexivity. Qed.

Lemma inheritField_comm_idem {A} (z : A -> bool) dst s d :
  inheritField z (inheritField z (inheritField z dst s) d) s
  = inheritField z (inheritField z dst s) d.
Proof.
  unfold inheritField.
  destruct (z dst) eqn:Hd, (z s) eqn:Hs, (z d) eqn:Hdd; simpl;
    rewrite ?Hd, ?Hs, ?Hdd; simpl; rewrite ?Hd, ?Hs, ?Hdd; reflexivity.
Qed.

Lemma resolve_idem T S D : resolve (resolve T S D) S D = resolve T S D.
Proof.
  unfold resolve, inherit. simpl.
  rewrite !inheritField_comm_idem, ?inheritField_idem. reflexivity.
Qed.

(** X7. The merge is idempotent: merging a merged rule again with the same
    shared and default fragments changes nothing, and so does merging the
    merged blocks of a document again. *)
Theorem merge_idempotent (bs : list BlockConfig) (T S D : MetricConfig) :
  resolve (resolve T S D) S D = resolve T S D
  /\ mergedBlocks (mergedBlocks bs) = mergedBlocks bs.
Proof.
  split; [apply resolve_idem|].
  assert (H : forall b, mergeBlock (mergeBlock b) = mergeBlock b).
  { intros b. unfold mergeBlock at 1. cbv zeta. cbn [fold_left].
    rewrite map_map.
    replace (SharedValues (mergeBlock b)) with (SharedValues b) by reflexivity.
    rewrite mergeBlock_resolve, map_map.
    unfold mergeBlock. cbv zeta. cbn [fold_left]. rewrite map_map. f_equal.
    apply map_ext. intros T0. apply resolve_idem. }
  unfold mergedBlocks. rewrite map_map. apply map_ext. exact H.
Qed.

(** X8. The variable labels of the description of a rule are [sensor],
    [topic] and then the sorted names of its dynamic labels, two more than
    the rule has dynamic labels. They are without repetition exactly when
    no dynamic label is named [sensor] or [topic]. *)
Theorem description_labels (mc : MetricConfig) :
  variableLabels (PrometheusDescription mc)
  = "sensor" :: "topic" :: DynamicLabelsKeys mc
  /\ length (variableLabels (PrometheusDescription mc))
     = 2 + size (entries (DynamicLabels mc))
  /\ (NoDup (variableLabels (PrometheusDescription mc)) <->
      entries (DynamicLabels mc) !! "sensor" = None
      /\ entries (DynamicLabels mc) !! "topic" = None).
Proof.
  assert (Helem : forall k, k ∈ DynamicLabelsKeys mc <->
                            is_Some (entries (DynamicLabels mc) !! k)).
  { intros k. unfold DynamicLabelsKeys, DynamicLabelsKeys_in.
    rewrite sort_Strings_perm, list_elem_of_fmap. split.
    - intros [[k' v] [-> Hin]]. apply elem_of_map_to_list in Hin. simpl. eauto.
    - intros [v Hv]. exists (k, v). split; [reflexivity|]. by apply elem_of_map_to_list. }
  assert (Hnd : NoDup (DynamicLabelsKeys mc)).
  { unfold DynamicLabelsKeys, DynamicLabelsKeys_in. rewrite sort_Strings_perm.
    apply NoDup_fst_map_to_list. }
  split; [reflexivity|]. split.
  - simpl. f_equal. f_equal. unfold DynamicLabelsKeys, DynamicLabelsKeys_in.
    rewrite sort_Strings_perm, length_map. apply length_map_to_list.
  - change (variableLabels (PrometheusDescription mc))
      with ("sensor" :: "topic" :: DynamicLabelsKeys mc).
    rewrite !NoDup_cons, !elem_of_cons, !Helem. split.
    + intros (Hs & Ht & _). split; apply eq_None_not_Some; tauto.
    + intros [Hs Ht]. apply eq_None_not_Some in Hs, Ht.
      split; [|split; [exact Ht|exact Hnd]].
      intros [Heq|Hs']; [discriminate|]. tauto.
Qed.

Lemma groupValuesFrom_other i names m gv g :
  g ∉ names -> groupValuesFrom i names m gv !! g = gv !! g.
Proof.
  revert i gv. induction names as [|name names IH]; intros i gv Hnot; [reflexivity|].
  simpl. apply not_elem_of_cons in Hnot as [Hne Hnot]. rewrite IH by exact Hnot.
  destruct (m !! i); [|reflexivity].
  destruct (negb (String.eqb name "")); [|reflexivity].
  by rewrite lookup_insert_ne.
Qed.

Lemma groupValuesFrom_empty_name i names m gv :
  groupValuesFrom i names m gv !! "" = gv !! "".
Proof.
  revert i gv. induction names as [|name names IH]; intros i gv; [reflexivity|].
  simpl. rewrite IH. destruct (m !! i); [|reflexivity].
  destruct (String.eqb name "") eqn:Hn; [reflexivity|]. simpl.
  apply String.eqb_neq in Hn. by rewrite lookup_insert_ne.
Qed.

Lemma groupValuesFrom_no_match i names gv :
  groupValuesFrom i names [] gv = gv.
Proof.
  revert i gv. induction names as [|name names IH]; intros i gv; [reflexivity|].
  simpl. rewrite IH. reflexivity.
Qed.

Lemma groupValuesFrom_last i names m gv g j v :
  g <> "" -> names !! j = Some g -> m !! (i + j) = Some v ->
  (forall k, j < k -> names !! k <> Some g) ->
  groupValuesFrom i names m gv !! g = Some v.
Proof.
  intros Hg. revert i j gv.
  induction names as [|name names IH]; intros i j gv Hj Hm Hlast; [discriminate|].
  destruct j as [|j]; simpl in *.
  - injection Hj as ->. rewrite Nat.add_0_r in Hm. rewrite Hm.
    apply String.eqb_neq in Hg. rewrite Hg. simpl.
    rewrite groupValuesFrom_other; [apply lookup_insert_eq|].
    intros Hin. apply list_elem_of_lookup in Hin as [k Hk].
    apply (Hlast (S k)); [lia|exact Hk].
  - apply (IH (S i) j); [exact Hj| |].
    + replace (S i + j) with (i + S j) by lia. exact Hm.
    + intros k Hk. apply (Hlast (S k)). lia.
Qed.

(** X9. [GroupValue] dereferences the compiled expression. With one, it is
    the empty string when the input does not match, when no group has the
    name, and for the empty name; and when the last group of that name has
    a submatch, it is that submatch. *)
Theorem GroupValue_named_group (FindStringSubmatch : regexp -> string -> list string)
    (rf : Regexp) (s groupName : string) :
  (r rf = None -> GroupValue FindStringSubmatch rf s groupName = None)
  /\ forall re, r rf = Some re ->
       (FindStringSubmatch re s = [] ->
        GroupValue FindStringSubmatch rf s groupName = Some "")
       /\ (groupName ∉ SubexpNames re ->
           GroupValue FindStringSubmatch rf s groupName = Some "")
       /\ (groupName = "" ->
           GroupValue FindStringSubmatch rf s groupName = Some "")
       /\ (forall i v,
             groupName <> "" ->
             SubexpNames re !! i = Some groupName ->
             (forall j, i < j -> SubexpNames re !! j <> Some groupName) ->
             FindStringSubmatch re s !! i = Some v ->
             GroupValue FindStringSubmatch rf s groupName = Some v).
Proof.
  unfold GroupValue. split; [intros ->; reflexivity|].
  intros re ->. cbv zeta. split; [|split; [|split]].
  - intros ->. rewrite groupValuesFrom_no_match. reflexivity.
  - intros Hnot. rewrite groupValuesFrom_other by exact Hnot. reflexivity.
  - intros ->. rewrite groupValuesFrom_empty_name. reflexivity.
  - intros i v Hg Hi Hlast Hv. erewrite groupValuesFrom_last; eauto.
Qed.

Lemma withDefaultName_idem m : withDefaultName (withDefaultName m) = withDefaultName m.
Proof.
  unfold withDefaultName.
  destruct (String.eqb (MQTTName m) "") eqn:Hm.
  - simpl. destruct (String.eqb (PrometheusName m) "") eqn:Hp; [|reflexivity].
    apply String.eqb_eq in Hp. unfold set_MQTTName. simpl. rewrite Hp. reflexivity.
  - rewrite Hm. reflexivity.
Qed.

Lemma inherit_set_MQTTName n m src :
  inherit (set_MQTTName n m) src
  = set_MQTTName (inheritField isZero_string n (MQTTName src)) (inherit m src).
Proof. reflexivity. Qed.

Lemma inheritField_empty_source dst : inheritField isZero_string dst "" = dst.
Proof. apply inheritField_keep. reflexivity. Qed.

Lemma inheritField_empty dst src :
  inheritField isZero_string dst src = "" -> dst = "" /\ src = "".
Proof.
  unfold inheritField, isZero_string.
  destruct (String.eqb dst "") eqn:Hd, (String.eqb src "") eqn:Hs; simpl;
    rewrite ?String.eqb_eq, ?String.eqb_neq in *; intros H; subst; auto;
    congruence.
Qed.

(** A merged rule that got its default name is merged already. *)
Lemma resolve_withDefaultName T S :
  resolve (withDefaultName (resolve T S MetricConfigDefaults)) S MetricConfigDefaults
  = withDefaultName (resolve T S MetricConfigDefaults).
Proof.
  unfold withDefaultName.
  destruct (String.eqb (MQTTName (resolve T S MetricConfigDefaults)) "") eqn:Hm;
    [|apply resolve_idem].
  apply String.eqb_eq in Hm.
  unfold resolve at 1. rewrite !inherit_set_MQTTName.
  change (inherit (inherit (resolve T S MetricConfigDefaults) S) MetricConfigDefaults)
    with (resolve (resolve T S MetricConfigDefaults) S MetricConfigDefaults).
  rewrite resolve_idem. f_equal.
  change (MQTTName MetricConfigDefaults) with "". rewrite inheritField_empty_source.
  assert (HS : MQTTName S = "").
  { unfold resolve in Hm. change (MQTTName (inherit (inherit T S) MetricConfigDefaults))
      with (inheritField isZero_string
              (inheritField isZero_string (MQTTName T) (MQTTName S)) "") in Hm.
    rewrite inheritField_empty_source in Hm. by apply inheritField_empty in Hm as [_ ?]. }
  rewrite HS. apply inheritField_empty_source.
Qed.

Lemma mergeBlock_checkedBlock b :
  mergeBlock (checkedBlock (mergeBlock b)) = checkedBlock (mergeBlock b).
Proof.
  unfold mergeBlock at 1. cbv zeta. cbn [fold_left].
  rewrite map_map. unfold checkedBlock at 1 2 3. cbn [SharedValues Metrics].
  unfold checkedBlock. f_equal.
  rewrite mergeBlock_resolve, !map_map. apply map_ext. intros T.
  replace (SharedValues (mergeBlock b)) with (SharedValues b) by reflexivity.
  apply resolve_withDefaultName.
Qed.

Lemma passes_withDefaultName m : passes (withDefaultName m) <-> passes m.
Proof.
  destruct (withDefaultName_fields m) as (_ & _ & He & Hx & _).
  unfold passes. by rewrite He, Hx.
Qed.

Lemma checkedBlock_idem b : checkedBlock (checkedBlock b) = checkedBlock b.
Proof.
  unfold checkedBlock. simpl. f_equal. rewrite map_map. apply map_ext.
  apply withDefaultName_idem.
Qed.

Lemma ForceMonotonicy_withDefaultName m :
  ForceMonotonicy (withDefaultName m) = ForceMonotonicy m.
Proof. unfold withDefaultName. by destruct (String.eqb (MQTTName m) ""). Qed.

(** X21. A configuration that [LoadConfig] returns is resolved: loading
    it again, with the same answer for the state directory, returns the
    same configuration. *)
Theorem LoadConfig_fixed_point (MkdirAll : string -> bool) (cfg c : Config) :
  LoadConfig MkdirAll cfg = Loaded c -> LoadConfig MkdirAll c = Loaded c.
Proof.
  intros H.
  pose proof (LoadConfig_Loaded_inv _ _ _ H) as (Hng & Hmpt & Hall & _).
  rewrite LoadConfig_steps in H.
  apply namesGroup_check in Hng as (names & Hn & Hg).
  rewrite Hn in H. simpl in H. rewrite Hg in H. simpl in H.
  destruct (metricNameCheck_cases cfg) as [[Hm _]|[[Hm _]|[Hm _]]];
    rewrite Hm in H; simpl in H; try discriminate.
  rewrite (proj2 (checkBlocks_Loaded _ _) (conj Hall eq_refl)) in H. simpl in H.
  destruct (forcesMonotonicy (mergedBlocks (Blocks cfg)) && negb (MkdirAll (stateDirOf cfg)))
    eqn:Hmk; [discriminate|].
  injection H as <-.
  set (c := {| JsonParsing := _ |}).
  assert (Hdev : deviceIDRegexOf c = deviceIDRegexOf cfg).
  { unfold deviceIDRegexOf at 1. unfold mqttOf. simpl.
    apply subexpNamesOf_Loaded in Hn as (rf & re & -> & _). reflexivity. }
  assert (Hmq : MetricPerTopic (mqttOf c) = MetricPerTopic (mqttOf cfg)) by reflexivity.
  assert (Hsd : stateDirOf c = stateDirOf cfg).
  { unfold stateDirOf at 1. simpl.
    pose proof (stateDirOf_nonempty cfg) as Hne. apply String.eqb_neq in Hne.
    rewrite Hne. reflexivity. }
  assert (Hblocks : mergedBlocks (Blocks c) = Blocks c).
  { simpl. unfold mergedBlocks. rewrite !map_map. apply map_ext. intros b.
    apply mergeBlock_checkedBlock. }
  assert (Hmc : metricNameCheck c = Loaded tt).
  { unfold metricNameCheck. rewrite Hmq, Hdev. exact Hm. }
  assert (Hchk : checkBlocks (Blocks c) = Loaded (Blocks c)).
  { apply checkBlocks_Loaded. simpl. split.
    - apply Forall_forall. intros m Hin.
      apply list_elem_of_In, in_flat_map in Hin as (b' & Hb' & Hin).
      apply in_map_iff in Hb' as (b & <- & Hb). simpl in Hin.
      apply in_map_iff in Hin as (m0 & <- & Hm0). apply passes_withDefaultName.
      rewrite Forall_forall in Hall. apply Hall. unfold mergedRules.
      apply list_elem_of_In, in_flat_map. eauto.
    - rewrite map_map. symmetry. apply map_ext. intros b. apply checkedBlock_idem. }
  assert (Hf : forcesMonotonicy (Blocks c) = forcesMonotonicy (mergedBlocks (Blocks cfg))).
  { simpl. unfold forcesMonotonicy. generalize (mergedBlocks (Blocks cfg)).
    induction l as [|b bs IH]; simpl; [reflexivity|]. rewrite IH. f_equal.
    generalize (Metrics b). induction l as [|m ms IHm]; simpl; [reflexivity|].
    by rewrite IHm, ForceMonotonicy_withDefaultName. }
  rewrite LoadConfig_steps, Hdev, Hn. cbn [load_bind]. rewrite Hg. cbn [negb].
  rewrite Hmc. cbn [load_bind]. rewrite Hblocks, Hchk. cbn [load_bind].
  rewrite Hf, Hsd, Hmk. f_equal. unfold c. simpl. f_equal. f_equal. f_equal.
  destruct (ObjectPerTopic (mqttOf cfg)), (MetricPerTopic (mqttOf cfg)); reflexivity.
Qed.

(* ===================================================================== *)
(** * The parser: construction, state files and what a run touches *)
(* ===================================================================== *)

Lemma list_ascii_app a b :
  String.list_ascii_of_string (a +:+ b) = String.list_ascii_of_string a ++ String.list_ascii_of_string b.
Proof. induction a as [|c a IH]; simpl; [reflexivity|]. by rewrite IH. Qed.

Lemma string_app_inv_tail a b s : a +:+ s = b +:+ s -> a = b.
Proof.
  intros H. apply (f_equal String.list_ascii_of_string) in H.
  rewrite !list_ascii_app in H. apply app_inv_tail in H.
  apply (f_equal String.string_of_list_ascii) in H.
  by rewrite !String.string_of_list_ascii_of_string in H.
Qed.

Lemma string_app_length a b : String.length (a +:+ b) = String.length a + String.length b.
Proof. induction a as [|c a IH]; simpl; [reflexivity|]. by rewrite IH. Qed.

Lemma label_key_ne label metricID : label +:+ "@" +:+ metricID <> metricID.
Proof.
  intros H. apply (f_equal String.length) in H.
  rewrite !string_app_length in H. simpl in H. lia.
Qed.

(** ** TrimRight *)

Lemma TrimRight_split s cutset :
  exists t, s = TrimRight s cutset +:+ t
            /\ forallb (inCutset cutset) (String.list_ascii_of_string t) = true.
Proof.
  induction s as [|c s IH]; simpl.
  - exists "". auto.
  - destruct IH as (t & Hs & Ht).
    destruct (TrimRight s cutset) as [|a T] eqn:HT.
    + change (s = t) in Hs. subst t. destruct (inCutset cutset c) eqn:Hc.
      * exists (String c s). simpl. rewrite Hc, Ht. auto.
      * exists s. auto.
    + exists t. rewrite Hs at 1. auto.
Qed.

Lemma TrimRight_last cutset : forall s u c,
  TrimRight s cutset = u +:+ String c "" -> inCutset cutset c = false.
Proof.
  induction s as [|c0 s IH]; intros u c; simpl.
  - destruct u; discriminate.
  - destruct (TrimRight s cutset) as [|a T] eqn:HT.
    + destruct (inCutset cutset c0) eqn:Hc; [destruct u; discriminate|].
      destruct u as [|b [|b' u]]; simpl; intros H; try discriminate.
      by injection H as <-.
    + destruct u as [|b u]; simpl; intros H; [discriminate|].
      injection H as _ H. by apply (IH u c).
Qed.

Lemma TrimRight_cut cutset t :
  forallb (inCutset cutset) (String.list_ascii_of_string t) = true ->
  TrimRight t cutset = "".
Proof.
  induction t as [|c t IH]; simpl; [reflexivity|].
  intros H. apply andb_prop in H as [Hc Ht]. rewrite (IH Ht), Hc. reflexivity.
Qed.

Lemma TrimRight_app cutset s t :
  forallb (inCutset cutset) (String.list_ascii_of_string t) = true ->
  TrimRight (s +:+ t) cutset = TrimRight s cutset.
Proof.
  intros Ht. induction s as [|c s IH]; simpl.
  - by apply TrimRight_cut.
  - rewrite IH. reflexivity.
Qed.

(** ** The environment after its update *)

Lemma updateEnv_lookup raw_value value last_result t d e :
  let e' := updateEnv raw_value value last_result t d e in
  e' !! env_raw_value = Some raw_value
  /\ e' !! env_value = Some (VFloat value)
  /\ e' !! env_last_value = Some (VFloat (LastExprValue d))
  /\ e' !! env_last_raw_value = Some (LastExprRawValue d)
  /\ e' !! env_last_result = Some last_result.
Proof.
  cbv zeta. unfold updateEnv.
  repeat split;
    repeat (rewrite lookup_insert_ne by discriminate); apply lookup_insert_eq.
Qed.

Lemma eqb_ord x y :
  nonnegative x -> nonnegative y ->
  (x =? y)%float = (ordF x =? ordF y)%Z.
Proof.
  intros Hx Hy. apply nonnegative_spec in Hx, Hy.
  rewrite FloatAxioms.eqb_spec. unfold SFeqb.
  rewrite (SFcompare_nonneg _ _ (Prim2SF_valid x) (Prim2SF_valid y) Hx Hy).
  unfold ordF.
  destruct (Z.compare_spec (ord (Prim2SF x)) (ord (Prim2SF y))) as [H|H|H];
    symmetry; [by apply Z.eqb_eq|apply Z.eqb_neq; lia|apply Z.eqb_neq; lia].
Qed.

Lemma add_zero_eqb x : nonnegative x -> (x + 0 =? x)%float = true.
Proof.
  intros Hx. destruct (add_nonnegative x 0 Hx nonnegative_0) as [Hs Ho].
  rewrite eqb_ord by assumption. apply Z.eqb_eq.
  rewrite Ho. change (ordF 0) with 0%Z. rewrite Z.add_0_r. apply ordF_round.
Qed.

Lemma float_le_not_lt x y :
  nonnegative x -> nonnegative y -> float_le x y -> (y <? x)%float = false.
Proof.
  unfold float_le. intros Hx Hy. rewrite leb_ord, ltb_ord by assumption.
  rewrite Z.leb_le, Z.ltb_ge. lia.
Qed.

Lemma HdRel_skip x y (inputs : list (Time * float)) :
  nonnegative x -> nonnegative y ->
  Forall (fun tv => nonnegative (snd tv)) inputs ->
  float_le x y -> HdRel float_le y (map snd inputs) ->
  HdRel float_le x (map snd inputs).
Proof.
  intros Hx Hy Hin Hxy Hhd. destruct inputs as [|[t v] inputs]; simpl in *;
    constructor.
  inversion Hhd; subst. inversion Hin; subst. by apply (float_le_trans _ y).
Qed.


Section Parser.
Context `{Ext : Externals}.

Lemma stateFileName_inj (p : Parser) id id' :
  stateFileName p id = stateFileName p id' -> id = id'.
Proof.
  unfold stateFileName. intros H.
  apply (inj (String.app (stateDir p))) in H.
  apply (inj (String.app "/")) in H.
  by apply string_app_inv_tail in H.
Qed.

Lemma sameSetup_refl w : sameSetup w w.
Proof. unfold sameSetup. auto. Qed.

Lemma sameSetup_trans w1 w2 w3 : sameSetup w1 w2 -> sameSetup w2 w3 -> sameSetup w1 w3.
Proof. unfold sameSetup. intros (?&?&?&?&?) (?&?&?&?&?). repeat split; congruence. Qed.

Lemma sameSetup_stateFileName w w' id :
  sameSetup w w' -> stateFileName (parser w') id = stateFileName (parser w) id.
Proof. intros (_&_&_&_&H). unfold stateFileName. by rewrite H. Qed.

Lemma touchesOnly_refl ids w : touchesOnly ids w w.
Proof. split; [apply sameSetup_refl|auto]. Qed.

Lemma touchesOnly_trans ids w1 w2 w3 :
  touchesOnly ids w1 w2 -> touchesOnly ids w2 w3 -> touchesOnly ids w1 w3.
Proof.
  intros [H1 H1'] [H2 H2']. split; [by eapply sameSetup_trans|].
  intros id Hid. destruct (H1' id Hid) as [Ha Hb], (H2' id Hid) as [Hc Hd].
  rewrite (sameSetup_stateFileName _ _ _ H1) in Hd. split; congruence.
Qed.

Lemma touchesOnly_mono (ids ids' : string -> Prop) w w' :
  (forall id, ids id -> ids' id) -> touchesOnly ids w w' -> touchesOnly ids' w w'.
Proof. intros Hsub [H1 H2]. split; [exact H1|]. intros id Hid. apply H2. auto. Qed.

Lemma storeState_touches id ms w :
  touchesOnly (eq id) w (snd (storeState id ms w)).
Proof.
  split; [unfold sameSetup; simpl; auto|].
  intros id' Hne. simpl. split; [|reflexivity]. by rewrite lookup_insert_ne.
Qed.

Lemma writeFile_touches id f w :
  touchesOnly (eq id) w (snd (writeFile (stateFileName (parser w) id) f w)).
Proof.
  split; [unfold sameSetup; simpl; auto|].
  intros id' Hne. simpl. split; [reflexivity|].
  rewrite lookup_insert_ne; [reflexivity|].
  intros H. apply stateFileName_inj in H. congruence.
Qed.

Lemma readMetricState_world id w : snd (readMetricState id w) = w.
Proof.
  rewrite readMetricState_unfold.
  destruct (files w !! _) as [[]|]; reflexivity.
Qed.

Lemma writeMetricState_touches id ms w :
  touchesOnly (eq id) w (snd (writeMetricState id ms w)).
Proof.
  unfold writeMetricState, bind, getParser. destruct (mode w).
  - apply writeFile_touches.
  - apply touchesOnly_refl.
  - unfold throw. cbn.
    apply (writeFile_touches id (FileState zeroDynamicState) w).
Qed.

Lemma getMetricState_touches id w :
  touchesOnly (eq id) w (snd (getMetricState id w)).
Proof.
  unfold getMetricState, bind, getParser.
  assert (Hflush : forall ms w1, touchesOnly (eq id) w w1 ->
    touchesOnly (eq id) w
      (snd (let (o, w'0) := now w1 in
            match o with
            | Ok a =>
                (if (Minute <=? Sub a (lastWritten ms))%Z
                 then bind (writeMetricState id ms)
                        (fun _ => bind now (fun t' =>
                           bind (storeState id (set_lastWritten t' ms))
                                (fun _ => ret (set_lastWritten t' ms))))
                 else ret ms) w'0
            | Err e => (Err e, w'0)
            | Panic => (Panic, w'0)
            end))).
  { intros ms w1 H1. unfold now.
    destruct (Minute <=? Sub (clock w1) (lastWritten ms))%Z; [|exact H1].
    unfold bind. pose proof (writeMetricState_touches id ms w1) as Hw.
    destruct (writeMetricState id ms w1) as [[[]|e|] w2]; simpl in *;
      try (eapply touchesOnly_trans; [exact H1|exact Hw]).
    eapply touchesOnly_trans; [exact H1|].
    eapply touchesOnly_trans; [exact Hw|].
    apply storeState_touches. }
  destruct (states (parser w) !! id) as [ms|].
  - apply Hflush, touchesOnly_refl.
  - pose proof (readMetricState_world id w) as Hr.
    destruct (readMetricState id w) as [[ms|e|] w1]; simpl in Hr; subst w1;
      try apply touchesOnly_refl.
    unfold storeState at 1. apply Hflush. apply storeState_touches.
Qed.


Lemma Touches_ret {A} ids (a : A) : Touches ids (ret a).
Proof. intros w. apply touchesOnly_refl. Qed.

Lemma Touches_throw {A} ids e : Touches ids (@throw _ A e).
Proof. intros w. apply touchesOnly_refl. Qed.

Lemma Touches_panic {A} ids : Touches ids (@panic _ A).
Proof. intros w. apply touchesOnly_refl. Qed.

Lemma Touches_now ids : Touches ids now.
Proof. intros w. apply touchesOnly_refl. Qed.

Lemma Touches_bind {A B} ids (m : M A) (k : A -> M B) :
  Touches ids m -> (forall a, Touches ids (k a)) -> Touches ids (bind m k).
Proof.
  intros Hm Hk w. unfold bind. specialize (Hm w).
  destruct (m w) as [[a|e|] w1]; simpl in *; try exact Hm.
  eapply touchesOnly_trans; [exact Hm|apply Hk].
Qed.

Lemma Touches_mono {A} (ids ids' : string -> Prop) (m : M A) :
  (forall id, ids id -> ids' id) -> Touches ids m -> Touches ids' m.
Proof. intros Hsub Hm w. eapply touchesOnly_mono; [exact Hsub|apply Hm]. Qed.

Lemma Touches_storeState id ms : Touches (eq id) (storeState id ms).
Proof. intros w. apply storeState_touches. Qed.

Lemma Touches_getMetricState id : Touches (eq id) (getMetricState id).
Proof. intros w. apply getMetricState_touches. Qed.

Lemma Touches_orErrorValue ids cfg step :
  Touches ids step -> Touches ids (orErrorValue cfg step).
Proof.
  intros H w. unfold orErrorValue. specialize (H w).
  destruct (step w) as [[a|e|] w1]; simpl in *; try exact H.
  destruct (ErrorValue cfg); exact H.
Qed.

Ltac touches :=
  repeat first
    [ apply Touches_ret | apply Touches_throw | apply Touches_panic
    | apply Touches_now | apply Touches_storeState
    | apply Touches_getMetricState
    | apply Touches_bind; [|intros ?]
    | match goal with
      | |- Touches _ (match ?x with _ => _ end) => destruct x
      | |- Touches _ (let '(_, _) := ?x in _) => destruct x
      | |- Touches _ (if ?b then _ else _) => destruct b
      end ].

Lemma Touches_enforceMonotonicy id value :
  Touches (eq id) (enforceMonotonicy id value).
Proof. unfold enforceMonotonicy. touches. Qed.

Lemma Touches_evalExpressionValue id code raw value :
  Touches (eq id) (evalExpressionValue id code raw value).
Proof. unfold evalExpressionValue. touches. Qed.

Lemma Touches_evalExpressionLabel id label code raw value :
  Touches (eq (label +:+ "@" +:+ id)) (evalExpressionLabel id label code raw value).
Proof. unfold evalExpressionLabel. cbv zeta. touches. Qed.

Lemma Touches_typeResolution ids cfg value : Touches ids (typeResolution cfg value).
Proof. unfold typeResolution. touches. Qed.

Lemma Touches_evalLabels cfg id kvs value mv labels :
  (forall k v, (k, v) ∈ kvs -> is_Some (entries (DynamicLabels cfg) !! k)) ->
  Touches (stateIDs cfg id) (evalLabels id kvs value mv labels).
Proof.
  revert labels. induction kvs as [|[k v] kvs IH]; intros labels Hin; simpl.
  - apply Touches_ret.
  - apply Touches_bind.
    + eapply Touches_mono; [|apply Touches_evalExpressionLabel].
      intros ? <-. right. exists k. split; [|reflexivity].
      apply (Hin k v). left.
    + intros s. apply IH. intros k' v' H. apply (Hin k' v'). by right.
Qed.

Lemma Touches_parseMetric cfg id value :
  Touches (stateIDs cfg id) (parseMetric cfg id value).
Proof.
  assert (Hid : forall i, id = i -> stateIDs cfg id i) by (intros ? <-; by left).
  unfold parseMetric. apply Touches_bind.
  - unfold valueDerivation.
    destruct (negb (String.eqb (RawExpression cfg) "")).
    + apply Touches_orErrorValue.
      eapply Touches_mono; [exact Hid|apply Touches_evalExpressionValue].
    + apply Touches_bind; [apply Touches_typeResolution|]. intros mv.
      destruct (negb (String.eqb (Expression cfg) "")); [|apply Touches_ret].
      apply Touches_orErrorValue.
      eapply Touches_mono; [exact Hid|apply Touches_evalExpressionValue].
  - intros mv. unfold afterDerivation. apply Touches_bind.
    + unfold monotonicity. destruct (ForceMonotonicy cfg); [|apply Touches_ret].
      apply Touches_orErrorValue.
      eapply Touches_mono; [exact Hid|apply Touches_enforceMonotonicy].
    + intros mv'. apply Touches_bind.
      { destruct (negb (OmitTimestamp cfg)); [apply Touches_now|apply Touches_ret]. }
      intros t. apply Touches_bind; [|intros; apply Touches_ret].
      unfold dynamicLabels. destruct (0 <? size _)%nat; [|apply Touches_ret].
      apply Touches_bind; [|intros; apply Touches_ret].
      apply Touches_evalLabels. intros k v Hkv.
      apply elem_of_map_to_list in Hkv. eauto.
Qed.

(** X12. A run of [parseMetric] for a metric id leaves the clock, the
    disk's mode and the parser's separator, configurations and state
    directory as they were, and touches no state, cached or on disk, but
    that of the metric id and those of its dynamic labels, whose ids are
    [label@metricID]. *)
Theorem parseMetric_touches_own_states (cfg : MetricConfig)
    (metricID : string) (value : any) (w : World) :
  let w' := snd (parseMetric cfg metricID value w) in
  clock w' = clock w /\ mode w' = mode w
  /\ separator (parser w') = separator (parser w)
  /\ metricConfigs (parser w') = metricConfigs (parser w)
  /\ stateDir (parser w') = stateDir (parser w)
  /\ forall id,
       id <> metricID ->
       (forall label, is_Some (entries (DynamicLabels cfg) !! label) ->
                      id <> label +:+ "@" +:+ metricID) ->
       states (parser w') !! id = states (parser w) !! id
       /\ files w' !! stateFileName (parser w) id
          = files w !! stateFileName (parser w) id.
Proof.
  cbv zeta.
  destruct (Touches_parseMetric cfg metricID value w) as [(Hc & Hm & Hs & Hmc & Hd) H].
  do 5 (split; [assumption|]).
  intros id Hne Hlabels. apply H.
  intros [->|(label & Hl & ->)]; [by apply Hne|by apply (Hlabels label)].
Qed.


(** X13. For a rule without raw expression, expression, forced
    monotonicity and dynamic labels, [parseMetric] changes nothing in the
    parser and on disk, does not panic, and gives the same result for every
    metric id: the metric whose value is the typed value, scaled, and which
    has no labels; or the error of the type resolution. *)
Theorem stateless_rule (cfg : MetricConfig) (metricID : string) (value : any)
    (w : World) :
  RawExpression cfg = "" -> Expression cfg = "" -> ForceMonotonicy cfg = false ->
  entries (DynamicLabels cfg) = ∅ ->
  snd (parseMetric cfg metricID value w) = w
  /\ fst (parseMetric cfg metricID value w) <> Panic
  /\ (forall metricID',
        fst (parseMetric cfg metricID' value w)
        = fst (parseMetric cfg metricID value w))
  /\ (forall m, fst (parseMetric cfg metricID value w) = Ok m ->
        Labels m = None
        /\ exists mv, fst (typeResolution cfg value w) = Ok mv
                      /\ Value m = scale cfg mv)
  /\ (forall e, fst (parseMetric cfg metricID value w) = Err e <->
                fst (typeResolution cfg value w) = Err e).
Proof.
  intros Hraw Hexpr Hmono Hlabels.
  assert (Hparse : forall id, parseMetric cfg id value w =
    match typeResolution cfg value w with
    | (Ok mv, _) =>
        (Ok {| Description := PrometheusDescription cfg;
               Value := scale cfg mv;
               Metric_ValueType := PrometheusValueType cfg;
               IngestTime := if negb (OmitTimestamp cfg) then clock w else zeroTime;
               Labels := None;
               LabelsKeys := DynamicLabelsKeys cfg |}, w)
    | (Err e, _) => (Err e, w)
    | (Panic, _) => (Panic, w)
    end).
  { intros id. rewrite parseMetric_unfold. unfold valueDerivation.
    rewrite Hraw, Hexpr. simpl. unfold bind.
    pose proof (typeResolution_world cfg value w) as Hw.
    destruct (typeResolution cfg value w) as [[mv|e|] w1]; simpl in Hw; subst w1;
      try reflexivity.
    unfold ret. rewrite afterDerivation_unfold. unfold monotonicity, dynamicLabels.
    rewrite Hmono, Hlabels. reflexivity. }
  pose proof (typeResolution_not_Panic cfg value w) as Hnp.
  split; [|split; [|split; [|split]]].
  - rewrite Hparse. destruct (typeResolution cfg value w) as [[mv|e|] w1]; reflexivity.
  - rewrite Hparse. destruct (typeResolution cfg value w) as [[mv|e|] w1];
      try discriminate. exfalso. by eapply Hnp.
  - intros id. by rewrite !Hparse.
  - intros m H. rewrite Hparse in H.
    destruct (typeResolution cfg value w) as [[mv|e|] w1]; simpl in H; try discriminate.
    injection H as <-. split; [reflexivity|eauto].
  - intros e. rewrite Hparse.
    destruct (typeResolution cfg value w) as [[mv|e0|] w1]; simpl; split; congruence.
Qed.

Lemma evalLabels_dom metricID kvs value mv : forall labels w ls w',
  evalLabels metricID kvs value mv labels w = (Ok ls, w') ->
  dom ls = dom labels ∪ list_to_set (kvs.*1).
Proof.
  induction kvs as [|[k v] kvs IH]; intros labels w ls w' H; simpl in *.
  - injection H as <- _. simpl. symmetry. apply (right_id_L ∅ (∪)).
  - unfold bind in H.
    destruct (evalExpressionLabel metricID k v value mv w) as [[s|e|] w1];
      try discriminate.
    apply IH in H. rewrite H, dom_insert_L. simpl.
    rewrite (comm_L (∪) {[k]} (dom labels)), <- (assoc_L (∪)). reflexivity.
Qed.

(** X14. A metric that [parseMetric] returns has the description and the
    value type of its rule; its ingest time is the time of the call, or
    the zero time when the rule omits the timestamp; it has no label map
    exactly when the rule has no dynamic labels, and otherwise a label map
    whose keys are the names of the dynamic labels of the rule, so that
    [LabelsKeys] lists exactly the keys of [Labels]. *)
Theorem returned_metric (cfg : MetricConfig) (metricID : string) (value : any)
    (w : World) (m : Metric) (w' : World) :
  parseMetric cfg metricID value w = (Ok m, w') ->
  Description m = PrometheusDescription cfg
  /\ Metric_ValueType m = PrometheusValueType cfg
  /\ IngestTime m = (if OmitTimestamp cfg then zeroTime else clock w)
  /\ match Labels m with
     | None => entries (DynamicLabels cfg) = ∅
     | Some labels =>
         entries (DynamicLabels cfg) <> ∅
         /\ dom labels = dom (entries (DynamicLabels cfg))
     end
  /\ (forall k, k ∈ LabelsKeys m <-> is_Some (default ∅ (Labels m) !! k)).
Proof.
  intros H. rewrite parseMetric_unfold in H.
  pose proof (Touches_parseMetric cfg metricID value w) as Htouch.
  destruct (valueDerivation cfg metricID value w) as [[mv|e|] w1] eqn:Hv;
    try discriminate.
  assert (Hc1 : clock w1 = clock w).
  { assert (Ht : Touches (stateIDs cfg metricID) (valueDerivation cfg metricID value)).
    { assert (Hid : forall i, metricID = i -> stateIDs cfg metricID i)
        by (intros ? <-; by left).
      unfold valueDerivation.
      destruct (negb (String.eqb (RawExpression cfg) "")).
      + apply Touches_orErrorValue.
        eapply Touches_mono; [exact Hid|apply Touches_evalExpressionValue].
      + apply Touches_bind; [apply Touches_typeResolution|]. intros mv0.
        destruct (negb (String.eqb (Expression cfg) "")); [|apply Touches_ret].
        apply Touches_orErrorValue.
        eapply Touches_mono; [exact Hid|apply Touches_evalExpressionValue]. }
    specialize (Ht w). rewrite Hv in Ht. destruct Ht as [[Hc _] _]. exact Hc. }
  rewrite afterDerivation_unfold in H.
  destruct (monotonicity cfg metricID mv w1) as [[mv'|e|] w2] eqn:Hm; try discriminate.
  assert (Hc2 : clock w2 = clock w1).
  { assert (Ht : Touches (eq metricID) (monotonicity cfg metricID mv)).
    { unfold monotonicity. destruct (ForceMonotonicy cfg); [|apply Touches_ret].
      apply Touches_orErrorValue, Touches_enforceMonotonicy. }
    specialize (Ht w1). rewrite Hm in Ht. destruct Ht as [[Hc _] _]. exact Hc. }
  destruct (dynamicLabels cfg metricID value (scale cfg mv') w2) as [[labels|e|] w3] eqn:Hl;
    try discriminate.
  injection H as <- <-. simpl.
  assert (Hlabels : match labels with
     | None => entries (DynamicLabels cfg) = ∅
     | Some labels =>
         entries (DynamicLabels cfg) <> ∅
         /\ dom labels = dom (entries (DynamicLabels cfg))
     end).
  { unfold dynamicLabels in Hl.
    destruct (0 <? size (entries (DynamicLabels cfg)))%nat eqn:Hsize.
    - unfold bind in Hl.
      destruct (evalLabels _ _ _ _ _ _) as [[ls|e|] w4] eqn:He; try discriminate.
      injection Hl as <- _. apply evalLabels_dom in He. split.
      + apply Nat.ltb_lt in Hsize. apply map_size_non_empty_iff. lia.
      + rewrite He, dom_empty_L, (left_id_L ∅ (∪)). apply set_eq. intros k.
        rewrite elem_of_list_to_set, elem_of_dom, list_elem_of_fmap. split.
        * intros [[k' v] [-> Hin]]. apply elem_of_map_to_list in Hin. simpl. eauto.
        * intros [v Hk]. exists (k, v). split; [reflexivity|].
          by apply elem_of_map_to_list.
    - injection Hl as <- _. apply Nat.ltb_ge in Hsize.
      apply map_size_empty_iff. lia. }
  split; [reflexivity|]. split; [reflexivity|].
  split; [rewrite Hc2, Hc1; by destruct (OmitTimestamp cfg)|].
  split; [exact Hlabels|].
  intros k. rewrite DynamicLabelsKeys_elem.
  destruct labels as [ls|]; simpl.
  - destruct Hlabels as [_ Hdom]. rewrite <- !elem_of_dom, Hdom. reflexivity.
  - rewrite Hlabels. reflexivity.
Qed.


Lemma getMetricState_cached metricID w ms :
  states (parser w) !! metricID = Some ms ->
  getMetricState metricID w =
  if (Minute <=? Sub (clock w) (lastWritten ms))%Z then
    match mode w with
    | DiskOk =>
        (Ok (set_lastWritten (clock w) ms),
         storeIn metricID (set_lastWritten (clock w) ms)
           (snd (writeFile (stateFileName (parser w) metricID)
                           (FileState (dynamic ms)) w)))
    | DiskOpenFails => (Err (ErrOpenFile (stateFileName (parser w) metricID)), w)
    | DiskWriteFails =>
        (Err (ErrWriteFile (stateFileName (parser w) metricID)),
         snd (writeFile (stateFileName (parser w) metricID)
                        (FileState zeroDynamicState) w))
    end
  else (Ok ms, w).
Proof.
  intros Hms. unfold getMetricState, bind, getParser. rewrite Hms.
  unfold ret at 1, now at 1.
  destruct (Minute <=? Sub (clock w) (lastWritten ms))%Z; [|reflexivity].
  unfold writeMetricState, bind, getParser. destruct (mode w); reflexivity.
Qed.

Lemma getMetricState_uncached metricID w :
  states (parser w) !! metricID = None ->
  getMetricState metricID w =
  match readMetricState metricID w with
  | (Ok ms, _) => getMetricState metricID (storeIn metricID ms w)
  | (Err e, _) => (Err e, w)
  | (Panic, _) => (Panic, w)
  end.
Proof.
  intros Hms. unfold getMetricState at 1. unfold bind, getParser. rewrite Hms.
  pose proof (readMetricState_world metricID w) as Hw.
  destruct (readMetricState metricID w) as [[ms|e|] w1]; simpl in Hw; subst w1;
    try reflexivity.
  rewrite (getMetricState_cached metricID (storeIn metricID ms w) ms)
    by apply states_storeIn.
  unfold storeState at 1, ret at 1, now at 1. unfold storeIn. simpl.
  destruct (Minute <=? Sub (clock w) (lastWritten ms))%Z; [|reflexivity].
  unfold writeMetricState, bind, getParser. simpl. destruct (mode w); reflexivity.
Qed.

Lemma Sub_diag t : Sub t t = 0%Z.
Proof. unfold Sub. rewrite Z.sub_diag. reflexivity. Qed.

Lemma Sub_zeroTime t : (Minute <= t)%Z -> (Minute <= Sub t zeroTime)%Z.
Proof.
  unfold Sub, zeroTime, Minute, minDuration, maxDuration. intros Ht.
  rewrite Z.sub_0_r.
  destruct (t <? - 2 ^ 63)%Z eqn:H1; [apply Z.ltb_lt in H1; lia|].
  destruct (2 ^ 63 - 1 <? t)%Z eqn:H2; lia.
Qed.

(** What a successful [getMetricState] leaves: the state is cached and is
    not due for a write. *)
Lemma getMetricState_settled metricID w ms w1 :
  getMetricState metricID w = (Ok ms, w1) ->
  states (parser w1) !! metricID = Some ms
  /\ (Sub (clock w1) (lastWritten ms) < Minute)%Z.
Proof.
  assert (Hcached : forall w ms0, states (parser w) !! metricID = Some ms0 ->
    getMetricState metricID w = (Ok ms, w1) ->
    states (parser w1) !! metricID = Some ms
    /\ (Sub (clock w1) (lastWritten ms) < Minute)%Z).
  { clear w. intros w ms0 Hms H. rewrite (getMetricState_cached _ _ _ Hms) in H.
    destruct (Minute <=? Sub (clock w) (lastWritten ms0))%Z eqn:Hdue.
    - destruct (mode w); try discriminate. injection H as <- <-.
      split; [apply states_storeIn|]. simpl. rewrite Sub_diag. reflexivity.
    - injection H as <- <-. split; [exact Hms|]. by apply Z.leb_gt. }
  destruct (states (parser w) !! metricID) as [ms0|] eqn:Hms; [by apply (Hcached w ms0)|].
  rewrite (getMetricState_uncached _ _ Hms).
  destruct (readMetricState metricID w) as [[ms0|e|] w0]; try discriminate.
  apply (Hcached _ ms0), states_storeIn.
Qed.

(** X15. After [getMetricState] has returned a state, the state is cached,
    and a further call at the same time, or at any time less than a minute
    after the [lastWritten] of the state, returns the same state and
    changes nothing, in the parser and on disk. *)
Theorem getMetricState_cache_hit (metricID : string) (w : World)
    (ms : metricState) (w1 : World) :
  getMetricState metricID w = (Ok ms, w1) ->
  states (parser w1) !! metricID = Some ms
  /\ getMetricState metricID w1 = (Ok ms, w1)
  /\ forall t, (Sub t (lastWritten ms) < Minute)%Z ->
       getMetricState metricID (at_time t w1) = (Ok ms, at_time t w1).
Proof.
  intros H. destruct (getMetricState_settled _ _ _ _ H) as [Hms Hdue].
  split; [exact Hms|]. split.
  - rewrite (getMetricState_cached _ _ _ Hms).
    apply Z.leb_gt in Hdue. rewrite Hdue. reflexivity.
  - intros t Ht. rewrite (getMetricState_cached _ (at_time t w1) ms) by exact Hms.
    simpl. apply Z.leb_gt in Ht. rewrite Ht. reflexivity.
Qed.

(** X16. On a disk that takes writes: a cached state last written a minute
    ago or more is written to the state file of its metric by
    [getMetricState], with the time of the call as its new [lastWritten],
    and a parser started afterwards on the same directory reads the
    written state back, without program and environment; and the first
    call for a metric that has neither cached state nor state file writes
    the file of the zero state (the time of the call being a minute or
    more after the zero time). *)
Theorem state_written_when_due (metricID : string) (w : World) :
  mode w = DiskOk ->
  let name := stateFileName (parser w) metricID in
  (forall ms,
     states (parser w) !! metricID = Some ms ->
     (Minute <= Sub (clock w) (lastWritten ms))%Z ->
     exists w1,
       getMetricState metricID w = (Ok (set_lastWritten (clock w) ms), w1)
       /\ files w1 = <[name := FileState (dynamic ms)]> (files w)
       /\ getMetricState metricID (restart w1)
          = (Ok {| dynamic := dynamic ms; lastWritten := clock w;
                   program := None; env := ∅ |},
             storeIn metricID {| dynamic := dynamic ms; lastWritten := clock w;
                                 program := None; env := ∅ |} (restart w1)))
  /\ (states (parser w) !! metricID = None -> files w !! name = None ->
      (Minute <= clock w)%Z ->
      exists w1,
        getMetricState metricID w
        = (Ok (set_lastWritten (clock w) zeroMetricState), w1)
        /\ files w1 = <[name := FileState zeroDynamicState]> (files w)).
Proof.
  intros Hmode. cbv zeta.
  assert (Hcached : forall w ms, mode w = DiskOk ->
     states (parser w) !! metricID = Some ms ->
     (Minute <= Sub (clock w) (lastWritten ms))%Z ->
     exists w1,
       getMetricState metricID w = (Ok (set_lastWritten (clock w) ms), w1)
       /\ files w1 = <[stateFileName (parser w) metricID := FileState (dynamic ms)]> (files w)
       /\ clock w1 = clock w /\ stateDir (parser w1) = stateDir (parser w)).
  { clear. intros w ms Hmode Hms Hdue.
    rewrite (getMetricState_cached _ _ _ Hms), Hmode.
    apply Z.leb_le in Hdue. rewrite Hdue. eexists. split; [reflexivity|].
    simpl. auto. }
  split.
  - intros ms Hms Hdue.
    destruct (Hcached w ms Hmode Hms Hdue) as (w1 & Hget & Hfiles & Hclock & Hdir).
    exists w1. split; [exact Hget|]. split; [exact Hfiles|].
    rewrite getMetricState_uncached by reflexivity.
    rewrite readMetricState_unfold.
    assert (Hname : stateFileName (parser (restart w1)) metricID
                    = stateFileName (parser w) metricID).
    { unfold stateFileName. simpl. by rewrite Hdir. }
    rewrite Hname. simpl. rewrite Hfiles, lookup_insert_eq, Hclock.
    rewrite (getMetricState_cached _ _ _ (states_storeIn _ _ _)). simpl.
    rewrite Hclock, Sub_diag. reflexivity.
  - intros Hms Hfile Hclock.
    rewrite (getMetricState_uncached _ _ Hms), readMetricState_unfold, Hfile.
    destruct (Hcached (storeIn metricID zeroMetricState w) zeroMetricState)
      as (w1 & Hget & Hfiles & _); [exact Hmode|apply states_storeIn| |].
    + simpl. by apply Sub_zeroTime.
    + exists w1. split; [exact Hget|exact Hfiles].
Qed.


(** X17. When [enforceMonotonicy] finds the value below [LastRawValue], it
    writes nothing itself: it leaves the state cached with the new offset,
    the value as [LastRawValue] and the zero time as [lastWritten], so
    that the next call of [getMetricState] for the metric, on a disk that
    takes writes, writes this state to the state file. *)
Theorem reset_flushed_on_next_access (metricID : string) (value : float)
    (w : World) (ms : metricState) (w1 : World) :
  getMetricState metricID w = (Ok ms, w1) ->
  (value <? LastRawValue (dynamic ms))%float = true ->
  exists out w2 ms2,
    enforceMonotonicy metricID value w = (Ok out, w2)
    /\ files w2 = files w1
    /\ states (parser w2) !! metricID = Some ms2
    /\ lastWritten ms2 = zeroTime
    /\ Offset (dynamic ms2) = (Offset (dynamic ms) + LastRawValue (dynamic ms))%float
    /\ LastRawValue (dynamic ms2) = value
    /\ forall t, (Minute <= t)%Z -> mode w = DiskOk ->
         exists w3,
           getMetricState metricID (at_time t w2) = (Ok (set_lastWritten t ms2), w3)
           /\ files w3 !! stateFileName (parser w) metricID
              = Some (FileState (dynamic ms2)).
Proof.
  intros Hget Hlt.
  exists (value + nextOffset value (dynamic ms))%float,
         (storeIn metricID (afterMonotonicy value ms) w1),
         (afterMonotonicy value ms).
  rewrite enforceMonotonicy_unfold, Hget.
  split; [reflexivity|]. split; [reflexivity|]. split; [apply states_storeIn|].
  split; [unfold afterMonotonicy; rewrite Hlt; reflexivity|].
  split; [rewrite afterMonotonicy_Offset; unfold nextOffset; by rewrite Hlt|].
  split; [apply afterMonotonicy_LastRawValue|].
  intros t Ht Hmode.
  destruct (getMetricState_touches metricID w) as [(Hc & Hm & _ & _ & Hd) _].
  rewrite Hget in Hc, Hm, Hd. simpl in Hc, Hm, Hd.
  rewrite (getMetricState_cached _
             (at_time t (storeIn metricID (afterMonotonicy value ms) w1))
             (afterMonotonicy value ms)) by apply states_storeIn.
  assert (Hlw : lastWritten (afterMonotonicy value ms) = zeroTime)
    by (unfold afterMonotonicy; rewrite Hlt; reflexivity).
  rewrite Hlw. simpl. rewrite Hm, Hmode.
  pose proof (Sub_zeroTime t Ht) as Hdue. apply Z.leb_le in Hdue. rewrite Hdue.
  eexists. split; [reflexivity|]. simpl.
  unfold stateFileName. simpl. rewrite Hd. apply lookup_insert_eq.
Qed.

(** X18. [evalExpressionValue] changes the durable state of the metric
    only when it returns a result: then the state records the value, the
    raw value, the result and the time of the call as the last ones, and
    keeps [Offset], [LastRawValue] and the last label result; when it fails
    or panics the durable state is as it was. *)
Theorem evalExpressionValue_state (metricID code : string) (raw_value : any)
    (value : float) (w : World) :
  let d := currentState metricID w in
  let '(res, w') := evalExpressionValue metricID code raw_value value w in
  match res with
  | Ok result =>
      currentState metricID w'
      = {| Offset := Offset d;
           LastRawValue := LastRawValue d;
           LastExprValue := value;
           LastExprRawValue := raw_value;
           LastExprResult := result;
           LastExprResultString := LastExprResultString d;
           LastExprTimestamp := clock w |}
  | _ => currentState metricID w' = d
  end.
Proof.
  cbv zeta. unfold evalExpressionValue, bind.
  destruct (getMetricState metricID w) as [r0 w1] eqn:Hget.
  destruct (getMetricState_current _ _ _ _ Hget) as [Hcur Hok].
  destruct (getMetricState_touches metricID w) as [(Hc & _) _].
  rewrite Hget in Hc. simpl in Hc.
  destruct r0 as [ms|e|]; try exact Hcur.
  destruct (Hok ms eq_refl) as [Hdyn Hst].
  rewrite <- Hdyn.
  destruct (program ms) as [prog|] eqn:Hprog.
  - unfold ret at 1.
    destruct (Run prog (env ms)) as [[]|];
      unfold bind, now, storeState, ret, panic, throw; simpl;
      unfold currentState; simpl; rewrite ?lookup_insert_eq, ?Hst; simpl;
      rewrite ?Hc; reflexivity.
  - unfold now at 1. cbn beta iota.
    destruct (Compile code _ true) as [prog|].
    + unfold storeState at 1, ret at 1. cbn beta iota.
      destruct (Run prog _) as [[]|];
        unfold bind, now, storeState, ret, panic, throw; simpl;
        unfold currentState; simpl; rewrite ?lookup_insert_eq; simpl;
        rewrite ?Hc; reflexivity.
    + unfold bind, storeState, throw. simpl. unfold currentState. simpl.
      rewrite lookup_insert_eq. reflexivity.
Qed.


Lemma evalExpressionLabel_compiled metricID label code rawValue value w ms w1 prog :
  getMetricState (label +:+ "@" +:+ metricID) w = (Ok ms, w1) ->
  program ms = Some prog ->
  let key := label +:+ "@" +:+ metricID in
  let e := updateEnv rawValue value (VString (LastExprResultString (dynamic ms)))
             (clock w1) (dynamic ms) (env ms) in
  evalExpressionLabel metricID label code rawValue value w =
  match Run prog e with
  | None => (Err (ErrEvaluateLabel code), storeIn key (set_env e ms) w1)
  | Some result =>
      (Ok (Sprint result),
       storeIn key
         (set_dynamic
            {| Offset := Offset (dynamic ms);
               LastRawValue := LastRawValue (dynamic ms);
               LastExprValue := value;
               LastExprRawValue := LastExprRawValue (dynamic ms);
               LastExprResult := LastExprResult (dynamic ms);
               LastExprResultString := Sprint result;
               LastExprTimestamp := clock w1 |} (set_env e ms))
         (storeIn key (set_env e ms) w1))
  end.
Proof.
  intros Hget Hprog. cbv zeta. unfold evalExpressionLabel. cbv zeta.
  unfold bind. rewrite Hget, Hprog. unfold ret at 1, now at 1.
  unfold storeState at 1. cbn beta iota.
  cbn [env set_env dynamic clock].
  destruct (Run prog _) as [result|]; reflexivity.
Qed.


(** ** NewParser *)

Lemma addConfigs_lookup (ms : list MetricConfig) :
  forall (cfgs : gmap string (list MetricConfig)) k,
  default [] (fold_left (fun cfgs m =>
                           let key := MQTTName m in
                           <[key := default [] (cfgs !! key) ++ [m]]> cfgs)
                        ms cfgs !! k)
  = default [] (cfgs !! k) ++ filter (fun m => MQTTName m = k) ms.
Proof.
  induction ms as [|m ms IH]; intros cfgs k; simpl.
  - by rewrite app_nil_r.
  - rewrite IH. destruct (decide (MQTTName m = k)) as [Heq|Hne].
    + rewrite filter_cons_True by exact Heq. subst k.
      rewrite lookup_insert_eq. simpl. by rewrite <- app_assoc.
    + rewrite filter_cons_False by exact Hne.
      rewrite lookup_insert_ne by exact Hne. reflexivity.
Qed.

Lemma NewParser_lookup metric separator stateDir k :
  default [] (metricConfigs (NewParser metric separator stateDir) !! k)
  = filter (fun m => MQTTName m = k) (flat_map Metrics metric).
Proof.
  unfold NewParser. simpl.
  assert (H : forall cfgs : gmap string (list MetricConfig),
    default [] (fold_left (fun cfgs metrics =>
        fold_left (fun cfgs m =>
                     let key := MQTTName m in
                     <[key := default [] (cfgs !! key) ++ [m]]> cfgs)
                  (Metrics metrics) cfgs) metric cfgs !! k)
    = default [] (cfgs !! k) ++ filter (fun m => MQTTName m = k) (flat_map Metrics metric)).
  { induction metric as [|b bs IH]; intros cfgs; simpl.
    - by rewrite app_nil_r.
    - rewrite IH, addConfigs_lookup, filter_app, app_assoc. reflexivity. }
  rewrite H, lookup_empty. reflexivity.
Qed.

(** X10. The parser that [NewParser] builds finds, for a metric name and a
    device, the rules of all blocks with that [mqtt_name] whose sensor name
    filter matches the device, in the order of the document. A rule without
    sensor name filter is found for every device under its [mqtt_name]; a
    name that no rule has finds nothing; and the new parser has no state
    cached. *)
Theorem NewParser_findMetricConfigs (metric : list BlockConfig)
    (separator stateDir name deviceID : string) :
  let p := NewParser metric separator stateDir in
  findMetricConfigs p name deviceID
  = filter (fun c => MQTTName c = name
                     /\ Is_true (Match (SensorNameFilter c) deviceID))
           (flat_map Metrics metric)
  /\ (forall c, c ∈ flat_map Metrics metric ->
                r (SensorNameFilter c) = None ->
                c ∈ findMetricConfigs p (MQTTName c) deviceID)
  /\ ((forall c, c ∈ flat_map Metrics metric -> MQTTName c <> name) ->
      findMetricConfigs p name deviceID = [])
  /\ states p = ∅.
Proof.
  cbv zeta.
  assert (Hfind : findMetricConfigs (NewParser metric separator stateDir) name deviceID
    = filter (fun c => MQTTName c = name
                       /\ Is_true (Match (SensorNameFilter c) deviceID))
             (flat_map Metrics metric)).
  { unfold findMetricConfigs. rewrite NewParser_lookup, list_filter_filter.
    apply list_filter_iff. intros c. tauto. }
  split; [exact Hfind|]. split; [|split; [|reflexivity]].
  - intros c Hin Hr. unfold findMetricConfigs. rewrite NewParser_lookup.
    rewrite !list_elem_of_filter. split; [|split; [reflexivity|exact Hin]].
    unfold Match. rewrite Hr. exact I.
  - intros Hno. rewrite Hfind. apply elem_of_nil_inv. intros c Hc.
    apply list_elem_of_filter in Hc as [[Hname _] Hin]. by apply (Hno c).
Qed.


(** X11. The state directory of the parser that [NewParser] builds is the
    directory given without its trailing slashes: it does not end in a
    slash, the slashes at the end of the directory given make no
    difference, and different metric ids have different state files. *)
Theorem NewParser_stateDir (metric : list BlockConfig)
    (separator dir : string) :
  let p := NewParser metric separator dir in
  (exists t, dir = stateDir p +:+ t
             /\ forallb (inCutset "/") (String.list_ascii_of_string t) = true)
  /\ (forall u, stateDir p <> u +:+ "/")
  /\ (forall t, forallb (inCutset "/") (String.list_ascii_of_string t) = true ->
                NewParser metric separator (dir +:+ t) = p)
  /\ (forall metricID metricID',
        stateFileName p metricID = stateFileName p metricID' ->
        metricID = metricID').
Proof.
  cbv zeta. split; [apply TrimRight_split|]. split; [|split].
  - intros u Hu. simpl in Hu. apply TrimRight_last in Hu. discriminate.
  - intros t Ht. unfold NewParser. by rewrite TrimRight_app.
  - intros id id'. apply stateFileName_inj.
Qed.


Lemma feed_no_reset metricID inputs : forall w,
  Forall (fun tv => nonnegative (snd tv)) inputs ->
  nonnegativeState (currentState metricID w) ->
  Sorted float_le (LastRawValue (currentState metricID w) :: map snd inputs) ->
  Offset (currentState metricID (snd (feed metricID inputs w)))
  = Offset (currentState metricID w)
  /\ Forall2 (passedThrough (Offset (currentState metricID w)))
             inputs (fst (feed metricID inputs w)).
Proof.
  induction inputs as [|[t v] inputs IH]; intros w Hin Hst Hsorted.
  - simpl. split; [reflexivity|constructor].
  - inversion Hin as [|? ? Hv Hin']; subst. simpl in Hv.
    inversion Hsorted as [|? ? Hs Hhd]; subst.
    inversion Hhd as [|? ? Hle]; subst.
    destruct Hst as [Ho Hl].
    pose proof (float_le_not_lt _ _ Hl Hv Hle) as Hlt.
    cbn [feed].
    destruct (enforceMonotonicy metricID v (at_time t w)) as [res w'] eqn:Hstep.
    rewrite enforceMonotonicy_unfold in Hstep.
    destruct (getMetricState metricID (at_time t w)) as [r0 w1] eqn:Hget.
    destruct (getMetricState_current _ _ _ _ Hget) as [Hcur Hok].
    rewrite currentState_at_time in Hcur.
    destruct r0 as [ms|e|]; injection Hstep as <- <-.
    + destruct (Hok ms eq_refl) as [Hdyn _]. rewrite currentState_at_time in Hdyn.
      assert (Hoff : nextOffset v (dynamic ms) = Offset (currentState metricID w)).
      { unfold nextOffset. rewrite Hdyn, Hlt. reflexivity. }
      destruct (IH (storeIn metricID (afterMonotonicy v ms) w1)) as [IH1 IH2];
        [exact Hin'| |..].
      * rewrite currentState_storeIn. split.
        -- rewrite afterMonotonicy_Offset, Hoff. exact Ho.
        -- rewrite afterMonotonicy_LastRawValue. exact Hv.
      * rewrite currentState_storeIn, afterMonotonicy_LastRawValue. exact Hs.
      * rewrite currentState_storeIn, afterMonotonicy_Offset, Hoff in IH1, IH2.
        destruct (feed metricID inputs _) as [rest w'']. cbn [fst snd] in *.
        split; [exact IH1|]. constructor; [|exact IH2].
        intros out [= <-]. cbn [snd]. by rewrite Hoff.
    + destruct (IH w1) as [IH1 IH2]; [exact Hin'|by rewrite Hcur| |].
      * rewrite Hcur. inversion Hs as [|? ? Hs' Hhd']; subst.
        constructor; [exact Hs'|]. by apply (HdRel_skip _ v).
      * rewrite Hcur in IH1, IH2.
        destruct (feed metricID inputs _) as [rest w'']. cbn [fst snd] in *.
        split; [exact IH1|]. constructor; [|exact IH2]. intros out; discriminate.
    + destruct (IH w1) as [IH1 IH2]; [exact Hin'|by rewrite Hcur| |].
      * rewrite Hcur. inversion Hs as [|? ? Hs' Hhd']; subst.
        constructor; [exact Hs'|]. by apply (HdRel_skip _ v).
      * rewrite Hcur in IH1, IH2.
        destruct (feed metricID inputs _) as [rest w'']. cbn [fst snd] in *.
        split; [exact IH1|]. constructor; [|exact IH2]. intros out; discriminate.
Qed.


(** X20. For non-negative inputs that never decrease, starting not below
    the [LastRawValue] of a state with non-negative [Offset] and
    [LastRawValue], [enforceMonotonicy] detects no reset: the offset stays
    what it was and every value returned is the input plus that offset;
    with the offset 0, every value returned compares equal to its input. *)
Theorem no_reset_passes_through (metricID : string)
    (inputs : list (Time * float)) (w : World) :
  Forall (fun tv => nonnegative (snd tv)) inputs ->
  nonnegativeState (currentState metricID w) ->
  Sorted float_le (LastRawValue (currentState metricID w) :: map snd inputs) ->
  Offset (currentState metricID (snd (feed metricID inputs w)))
  = Offset (currentState metricID w)
  /\ Forall2 (passedThrough (Offset (currentState metricID w)))
             inputs (fst (feed metricID inputs w))
  /\ (Offset (currentState metricID w) = 0%float ->
      Forall2 (fun tv res => forall out, res = Ok out ->
                                         (out =? snd tv)%float = true)
              inputs (fst (feed metricID inputs w))).
Proof.
  intros Hin Hst Hsorted.
  destruct (feed_no_reset metricID inputs w Hin Hst Hsorted) as [Hoff Hall].
  split; [exact Hoff|]. split; [exact Hall|].
  intros Hzero. rewrite Hzero in Hall. clear - Hin Hall.
  induction Hall as [|tv res inputs results Hres Hall IH]; constructor.
  - intros out Hout. rewrite (Hres out Hout). apply add_zero_eqb.
    by inversion Hin.
  - apply IH. by inversion Hin.
Qed.

(** X22. The scale is applied last. For a rule without dynamic labels, the
    parser and the disk after a run do not depend on [mqtt_value_scale];
    the run with a scale ends as the run without one, in an error, a panic,
    or a metric, whose value is then the value of the run without scale
    times the scale (the same value for the scale 0) and whose ingest time
    is the same. *)
Theorem scale_applied_last (cfg : MetricConfig) (metricID : string)
    (value : any) (w : World) (x : float) :
  entries (DynamicLabels cfg) = ∅ ->
  let unscaled := parseMetric (set_MQTTValueScale 0 cfg) metricID value w in
  let scaled := parseMetric (set_MQTTValueScale x cfg) metricID value w in
  snd scaled = snd unscaled
  /\ match fst scaled, fst unscaled with
     | Ok m, Ok m0 =>
         Value m = (if (x =? 0)%float then Value m0 else Value m0 * x)%float
         /\ IngestTime m = IngestTime m0 /\ Labels m = None
     | Err e, Err e0 => e = e0
     | Panic, Panic => True
     | _, _ => False
     end.
Proof.
  intros Hlabels. cbv zeta.
  rewrite !parseMetric_unfold.
  change (valueDerivation (set_MQTTValueScale x cfg) metricID value w)
    with (valueDerivation (set_MQTTValueScale 0 cfg) metricID value w).
  destruct (valueDerivation (set_MQTTValueScale 0 cfg) metricID value w)
    as [[mv|e|] w1]; [|simpl; auto..].
  rewrite !afterDerivation_unfold.
  change (monotonicity (set_MQTTValueScale x cfg) metricID mv w1)
    with (monotonicity (set_MQTTValueScale 0 cfg) metricID mv w1).
  destruct (monotonicity (set_MQTTValueScale 0 cfg) metricID mv w1)
    as [[mv'|e|] w2]; [|simpl; auto..].
  unfold dynamicLabels. cbn [DynamicLabels set_MQTTValueScale].
  rewrite Hlabels, map_size_empty. unfold ret. cbn [Nat.ltb Nat.leb fst snd].
  split; [reflexivity|]. unfold scale. cbn [MQTTValueScale set_MQTTValueScale Value].
  change (0 =? 0)%float with true. cbn [negb].
  destruct (x =? 0)%float; cbn [negb]; auto.
Qed.

(** X23. For a non-negative value, on a state with non-negative [Offset]
    and [LastRawValue], a value that [enforceMonotonicy] returns is not
    below the value it was given, is not below the offset the state had,
    and is non-negative. *)
Theorem output_not_below_input (metricID : string) (value : float)
    (w : World) (out : float) (w' : World) :
  nonnegative value ->
  nonnegativeState (currentState metricID w) ->
  enforceMonotonicy metricID value w = (Ok out, w') ->
  float_le value out
  /\ float_le (Offset (currentState metricID w)) out
  /\ nonnegative out.
Proof.
  intros Hv Hst H. rewrite enforceMonotonicy_unfold in H.
  destruct (getMetricState metricID w) as [[ms|e|] w1] eqn:Hget; try discriminate.
  destruct (getMetricState_current _ _ _ _ Hget) as [_ Hok].
  destruct (Hok ms eq_refl) as [Hdyn _]. injection H as <- <-.
  rewrite <- Hdyn in Hst |- *.
  pose proof (nextOffset_nonnegative value _ Hst) as Hn.
  pose proof (nextOffset_grows value _ Hst) as Hg.
  destruct Hst as [Ho Hl].
  split; [by apply float_le_add_l|]. split.
  - eapply float_le_trans; [exact Ho|exact Hn| |exact Hg|by apply float_le_add_r].
    by apply add_nonnegative.
  - by apply add_nonnegative.
Qed.


(** X24. The parser built from the blocks of a loaded configuration finds
    every merged rule of the document, with its default name, under its
    [mqtt_name], or under its [prom_name] when it has no [mqtt_name], for
    every device its sensor name filter matches; and every rule it finds
    under a name has this name as its [mqtt_name], passes both checks of
    the loop and is a merged rule of the document with its default name. *)
Theorem loaded_rules_are_found (MkdirAll : string -> bool) (cfg c : Config)
    (separator stateDir deviceID : string) (m : MetricConfig) :
  LoadConfig MkdirAll cfg = Loaded c ->
  m ∈ mergedRules cfg ->
  Is_true (Match (SensorNameFilter m) deviceID) ->
  let name := if String.eqb (MQTTName m) "" then PrometheusName m else MQTTName m in
  withDefaultName m
    ∈ findMetricConfigs (NewParser (Blocks c) separator stateDir) name deviceID
  /\ forall name' m',
       m' ∈ findMetricConfigs (NewParser (Blocks c) separator stateDir) name' deviceID ->
       MQTTName m' = name' /\ passes m'
       /\ exists m0, m0 ∈ mergedRules cfg /\ m' = withDefaultName m0.
Proof.
  intros H Hin Hmatch. cbv zeta.
  apply LoadConfig_Loaded_inv in H as (_ & _ & Hall & _ & Hb & _).
  assert (Hrules : flat_map Metrics (Blocks c) = map withDefaultName (mergedRules cfg)).
  { rewrite Hb. unfold mergedRules. generalize (mergedBlocks (Blocks cfg)).
    induction l as [|b bs IH]; simpl; [reflexivity|]. by rewrite IH, map_app. }
  destruct (withDefaultName_fields m) as (_ & _ & _ & _ & Hname).
  split.
  - unfold findMetricConfigs. rewrite NewParser_lookup, Hrules.
    rewrite !list_elem_of_filter. split; [|split].
    + unfold withDefaultName. by destruct (String.eqb (MQTTName m) "").
    + exact Hname.
    + apply list_elem_of_fmap. eauto.
  - intros name' m' Hm'. unfold findMetricConfigs in Hm'.
    rewrite NewParser_lookup, Hrules in Hm'.
    rewrite !list_elem_of_filter in Hm'. destruct Hm' as (_ & Hn & Hm').
    apply list_elem_of_fmap in Hm' as (m0 & -> & Hm0).
    split; [exact Hn|]. split; [|eauto].
    destruct (withDefaultName_fields m0) as (_ & _ & He & Hx & _).
    rewrite Forall_forall in Hall. specialize (Hall m0 Hm0).
    unfold passes in *. by rewrite He, Hx.
Qed.


Lemma agreeOn_refl id w : agreeOn id w w.
Proof. unfold agreeOn. auto. Qed.

Lemma Confined_ret {A} id (a : A) : Confined id (ret a).
Proof.
  split.
  - intros w. split; [apply sameSetup_refl|]. auto.
  - intros w1 w2 H. auto.
Qed.

Lemma Confined_throw {A} id e : Confined id (@throw _ A e).
Proof.
  split.
  - intros w. split; [apply sameSetup_refl|]. auto.
  - intros w1 w2 H. auto.
Qed.

Lemma Confined_panic {A} id : Confined id (@panic _ A).
Proof.
  split.
  - intros w. split; [apply sameSetup_refl|]. auto.
  - intros w1 w2 H. auto.
Qed.

Lemma Confined_now id : Confined id now.
Proof.
  split.
  - intros w. split; [apply sameSetup_refl|]. auto.
  - intros w1 w2 H. split; [|exact H]. unfold now. simpl. f_equal. apply H.
Qed.

Lemma Confined_storeState id ms : Confined id (storeState id ms).
Proof.
  split.
  - intros w. split; [unfold sameSetup; simpl; auto|]. split.
    + intros id' Hne. simpl. by rewrite lookup_insert_ne.
    + reflexivity.
  - intros w1 w2 (Hc & Hm & Hd & Hs & Hf). split; [reflexivity|].
    unfold agreeOn. simpl. rewrite !lookup_insert_eq. repeat split; auto.
Qed.

Lemma Confined_bind {A B} id (m : M A) (k : A -> M B) :
  Confined id m -> (forall a, Confined id (k a)) -> Confined id (bind m k).
Proof.
  intros [Hm1 Hm2] Hk. split.
  - intros w. unfold bind. destruct (Hm1 w) as (Hs & Hst & Hfi).
    destruct (m w) as [[a|e|] w1]; simpl in *; try (split; [exact Hs|auto]).
    destruct (Hk a) as [Hk1 _]. destruct (Hk1 w1) as (Hs' & Hst' & Hfi').
    split; [by eapply sameSetup_trans|]. split.
    + intros id' Hne. rewrite Hst' by exact Hne. by apply Hst.
    + intros name Hne. rewrite Hfi'; [by apply Hfi|].
      by rewrite (sameSetup_stateFileName _ _ _ Hs).
  - intros w1 w2 Hag. unfold bind. destruct (Hm2 w1 w2 Hag) as [Hr Hag'].
    destruct (m w1) as [[a|e|] w1'], (m w2) as [[a'|e'|] w2']; simpl in *;
      try discriminate.
    2: by injection Hr as <-.
    2: by split.
    injection Hr as <-. destruct (Hk a) as [_ Hk2]. by apply Hk2.
Qed.


Lemma agreeOn_stateFileName id w1 w2 :
  agreeOn id w1 w2 -> stateFileName (parser w1) id = stateFileName (parser w2) id.
Proof. intros (_ & _ & Hd & _). unfold stateFileName. by rewrite Hd. Qed.

Lemma Confined_getMetricState id : Confined id (getMetricState id).
Proof.
  assert (Hframe : forall w ms, states (parser w) !! id = Some ms ->
    sameSetup w (snd (getMetricState id w))
    /\ (forall id', id' <> id ->
          states (parser (snd (getMetricState id w))) !! id' = states (parser w) !! id')
    /\ (forall name, name <> stateFileName (parser w) id ->
          files (snd (getMetricState id w)) !! name = files w !! name)).
  { intros w ms Hms. rewrite (getMetricState_cached _ _ _ Hms).
    destruct (Minute <=? Sub (clock w) (lastWritten ms))%Z;
      [|split; [apply sameSetup_refl|auto]].
    destruct (mode w); simpl.
    - split; [unfold sameSetup; simpl; auto|]. split.
      + intros id' Hne. by rewrite lookup_insert_ne.
      + intros name Hne. by rewrite lookup_insert_ne.
    - split; [apply sameSetup_refl|auto].
    - split; [unfold sameSetup; simpl; auto|]. split; [auto|].
      intros name Hne. by rewrite lookup_insert_ne. }
  assert (Hlocal : forall w1 w2 ms, states (parser w1) !! id = Some ms ->
    agreeOn id w1 w2 ->
    fst (getMetricState id w1) = fst (getMetricState id w2)
    /\ agreeOn id (snd (getMetricState id w1)) (snd (getMetricState id w2))).
  { intros w1 w2 ms Hms Hag.
    pose proof (agreeOn_stateFileName _ _ _ Hag) as Hname.
    destruct Hag as (Hc & Hm & Hd & Hs & Hf).
    assert (Hms2 : states (parser w2) !! id = Some ms) by congruence.
    rewrite (getMetricState_cached _ _ _ Hms), (getMetricState_cached _ _ _ Hms2).
    rewrite <- Hc, <- Hm, <- Hname.
    destruct (Minute <=? Sub (clock w1) (lastWritten ms))%Z;
      [|split; [reflexivity|unfold agreeOn; auto]].
    destruct (mode w1) eqn:Hmode; simpl.
    - split; [reflexivity|]. unfold agreeOn. simpl.
      rewrite !lookup_insert_eq. unfold stateFileName in *. simpl.
      rewrite <- Hd, !lookup_insert_eq. repeat split; congruence.
    - split; [reflexivity|unfold agreeOn; repeat split; congruence].
    - split; [reflexivity|]. unfold agreeOn. simpl.
      unfold stateFileName in *. rewrite <- Hd, !lookup_insert_eq.
      repeat split; congruence. }
  split.
  - intros w. destruct (states (parser w) !! id) as [ms|] eqn:Hms; [by eapply Hframe|].
    rewrite (getMetricState_uncached _ _ Hms).
    destruct (readMetricState id w) as [[ms|e|] w0];
      try (split; [apply sameSetup_refl|auto]).
    destruct (Hframe (storeIn id ms w) ms (states_storeIn _ _ _)) as (Hs & Hst & Hfi).
    destruct (Confined_storeState id ms) as [Hstore _].
    destruct (Hstore w) as (Hs0 & Hst0 & Hfi0).
    split; [by eapply sameSetup_trans|]. split.
    + intros id' Hne. rewrite Hst by exact Hne. by apply Hst0.
    + intros name Hne. rewrite Hfi; [by apply Hfi0|exact Hne].
  - intros w1 w2 Hag.
    destruct (states (parser w1) !! id) as [ms|] eqn:Hms; [by eapply Hlocal|].
    assert (Hms2 : states (parser w2) !! id = None)
      by (destruct Hag as (_ & _ & _ & <- & _); exact Hms).
    rewrite (getMetricState_uncached _ _ Hms), (getMetricState_uncached _ _ Hms2).
    rewrite !readMetricState_unfold.
    pose proof (agreeOn_stateFileName _ _ _ Hag) as Hname.
    pose proof Hag as (Hc & Hm & Hd & Hs & Hf).
    rewrite <- Hf, <- Hname, <- Hc.
    destruct (files w1 !! stateFileName (parser w1) id) as [[| | |d]|];
      try (split; [reflexivity|exact Hag]).
    + apply (Hlocal _ _ _ (states_storeIn _ _ _)).
      destruct (Confined_storeState id {| dynamic := d; lastWritten := clock w1;
                                          program := None; env := ∅ |}) as [_ Hl].
      by apply Hl.
    + apply (Hlocal _ _ _ (states_storeIn _ _ _)).
      destruct (Confined_storeState id zeroMetricState) as [_ Hl]. by apply Hl.
Qed.

Lemma Confined_evalExpressionLabel metricID label code rawValue value :
  Confined (label +:+ "@" +:+ metricID)
    (evalExpressionLabel metricID label code rawValue value).
Proof.
  unfold evalExpressionLabel. cbv zeta.
  repeat first
    [ apply Confined_ret | apply Confined_throw | apply Confined_panic
    | apply Confined_now | apply Confined_storeState
    | apply Confined_getMetricState
    | apply Confined_bind; [|intros ?]
    | match goal with
      | |- Confined _ (match ?x with _ => _ end) => destruct x
      | |- Confined _ (let '(_, _) := ?x in _) => destruct x
      end ].
Qed.


Lemma World_ext (w1 w2 : World) :
  sameSetup w1 w2 ->
  (forall id, states (parser w2) !! id = states (parser w1) !! id) ->
  (forall name, files w2 !! name = files w1 !! name) ->
  w2 = w1.
Proof.
  intros (Hc & Hm & Hs & Hmc & Hd) Hst Hfi.
  destruct w1 as [[s1 c1 d1 st1] f1 m1 t1], w2 as [[s2 c2 d2 st2] f2 m2 t2].
  simpl in *. subst. f_equal; [f_equal|]; by apply map_eq.
Qed.

(** Computations confined to different states commute. *)
Lemma Confined_commute {A B} id1 id2 (m1 : M A) (m2 : M B) :
  id1 <> id2 -> Confined id1 m1 -> Confined id2 m2 ->
  forall w a w1 b w2,
    m1 w = (Ok a, w1) -> m2 w1 = (Ok b, w2) ->
    exists w1', m2 w = (Ok b, w1') /\ m1 w1' = (Ok a, w2).
Proof.
  intros Hne [Hf1 Hl1] [Hf2 Hl2] w a w1 b w2 H1 H2.
  assert (Hnames : forall p : Parser, stateFileName p id1 <> stateFileName p id2).
  { intros p Heq. by apply stateFileName_inj in Heq. }
  (* the first step leaves the second state as it is *)
  pose proof (Hf1 w) as (Hs1 & Hst1 & Hfi1). rewrite H1 in Hs1, Hst1, Hfi1.
  cbn [snd] in Hs1, Hst1, Hfi1.
  assert (Hag2 : agreeOn id2 w1 w).
  { destruct Hs1 as (Hc & Hm & _ & _ & Hd). unfold agreeOn.
    rewrite (Hst1 id2) by auto. unfold stateFileName. rewrite Hd.
    rewrite Hfi1 by (apply not_eq_sym, Hnames). auto. }
  destruct (Hl2 _ _ Hag2) as [Hr2 Hag2']. rewrite H2 in Hr2, Hag2'.
  destruct (m2 w) as [r2 w1'] eqn:H2'. cbn [fst snd] in Hr2, Hag2'. subst r2.
  exists w1'. split; [reflexivity|].
  (* and the second step the first *)
  pose proof (Hf2 w) as (Hs2 & Hst2 & Hfi2). rewrite H2' in Hs2, Hst2, Hfi2.
  cbn [snd] in Hs2, Hst2, Hfi2.
  assert (Hag1 : agreeOn id1 w w1').
  { destruct Hs2 as (Hc & Hm & _ & _ & Hd). unfold agreeOn.
    rewrite (Hst2 id1) by auto. unfold stateFileName. rewrite Hd.
    rewrite Hfi2 by apply Hnames. auto. }
  destruct (Hl1 _ _ Hag1) as [Hr1 Hag1']. rewrite H1 in Hr1, Hag1'.
  destruct (m1 w1') as [r1 w2'] eqn:H1'. cbn [fst snd] in Hr1, Hag1'. subst r1.
  f_equal.
  (* the two worlds are the same *)
  pose proof (Hf2 w1) as (Hs3 & Hst3 & Hfi3). rewrite H2 in Hs3, Hst3, Hfi3.
  pose proof (Hf1 w1') as (Hs4 & Hst4 & Hfi4). rewrite H1' in Hs4, Hst4, Hfi4.
  cbn [snd] in Hs3, Hst3, Hfi3, Hs4, Hst4, Hfi4.
  assert (Hd1 : stateDir (parser w1) = stateDir (parser w)) by apply Hs1.
  assert (Hd2 : stateDir (parser w1') = stateDir (parser w)) by apply Hs2.
  assert (Hn1 : forall id, stateFileName (parser w1) id = stateFileName (parser w) id)
    by (intros; unfold stateFileName; by rewrite Hd1).
  assert (Hn2 : forall id, stateFileName (parser w1') id = stateFileName (parser w) id)
    by (intros; unfold stateFileName; by rewrite Hd2).
  rewrite Hn1 in Hfi3. rewrite Hn2 in Hfi4.
  destruct Hag1' as (_ & _ & Hda & Hsa & Hfa).
  destruct Hag2' as (_ & _ & Hdb & Hsb & Hfb).
  assert (Hsym : forall x y : World, sameSetup x y -> sameSetup y x).
  { intros x y (?&?&?&?&?). unfold sameSetup. auto. }
  apply World_ext.
  - apply sameSetup_trans with w1; [by apply Hsym|].
    apply sameSetup_trans with w; [by apply Hsym|].
    by apply sameSetup_trans with w1'.
  - intros id.
    destruct (decide (id = id1)) as [->|Hn1'];
      [|destruct (decide (id = id2)) as [->|Hn2']].
    + rewrite (Hst3 id1) by auto. by rewrite Hsa.
    + rewrite (Hst4 id2) by auto. by rewrite Hsb.
    + rewrite (Hst4 id) by auto. rewrite (Hst2 id) by auto.
      rewrite (Hst3 id) by auto. by rewrite (Hst1 id) by auto.
  - intros name.
    destruct (decide (name = stateFileName (parser w) id1)) as [->|Hn1'];
      [|destruct (decide (name = stateFileName (parser w) id2)) as [->|Hn2']].
    + rewrite (Hfi3 (stateFileName (parser w) id1)) by apply Hnames.
      rewrite <- (Hn1 id1) at 2. rewrite Hfa. f_equal.
      unfold stateFileName. rewrite <- Hda, Hd1. reflexivity.
    + rewrite (Hfi4 (stateFileName (parser w) id2)) by (apply not_eq_sym, Hnames).
      rewrite <- (Hn2 id2) at 1. rewrite <- Hfb. f_equal.
      unfold stateFileName. rewrite Hdb, Hd2. reflexivity.
    + rewrite (Hfi4 name) by auto. rewrite (Hfi2 name) by auto.
      rewrite (Hfi3 name) by auto. by rewrite (Hfi1 name) by auto.
Qed.


Lemma label_key_inj metricID label label' :
  label +:+ "@" +:+ metricID = label' +:+ "@" +:+ metricID -> label = label'.
Proof.
  intros H. apply (string_app_inv_tail label label' ("@" +:+ metricID)).
  exact H.
Qed.

Lemma evalLabels_Permutation metricID value mv kvs kvs' :
  kvs ≡ₚ kvs' -> NoDup (kvs.*1) ->
  forall labels w ls w',
    evalLabels metricID kvs value mv labels w = (Ok ls, w') ->
    evalLabels metricID kvs' value mv labels w = (Ok ls, w').
Proof.
  induction 1 as [|[k v] l l' Hperm IH|[k1 v1] [k2 v2] l|l1 l2 l3 H12 IH12 H23 IH23];
    intros Hnd labels w ls w' H.
  - exact H.
  - simpl in *. unfold bind in *.
    destruct (evalExpressionLabel metricID k v value mv w) as [[s|e|] w1];
      try discriminate.
    apply IH; [by inversion Hnd|exact H].
  - simpl in *. unfold bind in *.
    destruct (evalExpressionLabel metricID k2 v2 value mv w) as [[s2|e|] w1] eqn:H2;
      try discriminate.
    destruct (evalExpressionLabel metricID k1 v1 value mv w1) as [[s1|e|] w2] eqn:H1;
      try discriminate.
    assert (Hne : k2 <> k1).
    { inversion Hnd as [|? ? Hnot _]; subst. intros ->. apply Hnot. left. }
    destruct (Confined_commute (k2 +:+ "@" +:+ metricID) (k1 +:+ "@" +:+ metricID)
                _ _ (fun Heq => Hne (label_key_inj _ _ _ Heq))
                (Confined_evalExpressionLabel metricID k2 v2 value mv)
                (Confined_evalExpressionLabel metricID k1 v1 value mv)
                _ _ _ _ _ H2 H1) as (w1' & H1' & H2').
    rewrite H1', H2'. rewrite insert_insert_ne by exact Hne. exact H.
  - apply IH23; [|by apply IH12]. by rewrite <- H12.
Qed.

(** X25. The labels do not depend on the order in which the loop over
    [dynamic_labels] visits the map: [dynamicLabels] returns labels in a
    world exactly when the loop, run over the entries in any other order,
    returns those labels in that world. Each label expression reads and
    writes the state of its own label only, so two of them commute. *)
Theorem labels_order_independent (cfg : MetricConfig) (metricID : string)
    (value : any) (metricValue : float) (kvs : list (string * string))
    (w : World) :
  kvs ≡ₚ map_to_list (entries (DynamicLabels cfg)) ->
  forall labels w',
    dynamicLabels cfg metricID value metricValue w = (Ok (Some labels), w')
    <-> kvs <> []
        /\ evalLabels metricID kvs value metricValue ∅ w = (Ok labels, w').
Proof.
  intros Hperm labels w'.
  assert (Hnd : NoDup ((map_to_list (entries (DynamicLabels cfg))).*1))
    by apply NoDup_fst_map_to_list.
  assert (Hnd' : NoDup (kvs.*1)) by (by rewrite Hperm).
  assert (Hsize : size (entries (DynamicLabels cfg)) = length kvs).
  { rewrite <- length_map_to_list. symmetry. by apply Permutation_length. }
  unfold dynamicLabels. rewrite Hsize.
  destruct kvs as [|kv kvs]; cbn [length Nat.ltb Nat.leb].
  - unfold ret. split; [discriminate|]. by intros [[] _].
  - unfold bind.
    split.
    + destruct (evalLabels metricID (map_to_list (entries (DynamicLabels cfg)))
                  value metricValue ∅ w) as [[ls|e|] w1] eqn:H; try discriminate.
      unfold ret. intros Heq. injection Heq as <- <-. split; [discriminate|].
      by apply (evalLabels_Permutation metricID value metricValue _ _
                  (symmetry Hperm) Hnd).
    + intros [_ H].
      by rewrite (evalLabels_Permutation metricID value metricValue _ _
                    Hperm Hnd' _ _ _ _ H).
Qed.

End Parser.

(* ===================================================================== *)
(** * More runs: labels, state files, configurations *)
(* ===================================================================== *)

Section MoreExamples.
Local Existing Instance identExternals.

(** X19. [evalExpressionLabel] runs the program in an environment that it
    updates at every evaluation: the rule whose label [unit] is the
    expression [raw_value], fed "1" and then "2", gives the label "1" and
    then "2". Whenever the program is already compiled, the environment
    binds [raw_value] and [value] to the arguments of the call and
    [last_value], [last_raw_value] and [last_result] to what the state of
    the label holds; the label is what [fmt.Sprint] gives for the result;
    and the state then records the value, the label and the time of the
    call, and leaves the last raw value as it was. *)
Theorem label_environment_refreshed :
  map labelsOf
    (fst (parseAll (labelRule "raw_value" None) "level"
            [(noon, VString "1"); ((noon + 30 * Second)%Z, VString "2")]
            (freshWorld "/var/lib/mqtt2prometheus" noon)))
  = [Ok (Some (<["unit" := "1"]> ∅)); Ok (Some (<["unit" := "2"]> ∅))]
  /\ forall (E : Externals) metricID label code rawValue value
            (w : @World E) ms w1 prog,
       getMetricState (label +:+ "@" +:+ metricID) w = (Ok ms, w1) ->
       program ms = Some prog ->
       let e := updateEnv rawValue value
                  (VString (LastExprResultString (dynamic ms)))
                  (clock w) (dynamic ms) (env ms) in
       e !! env_raw_value = Some rawValue
       /\ e !! env_value = Some (VFloat value)
       /\ e !! env_last_value = Some (VFloat (LastExprValue (dynamic ms)))
       /\ e !! env_last_raw_value = Some (LastExprRawValue (dynamic ms))
       /\ e !! env_last_result
          = Some (VString (LastExprResultString (dynamic ms)))
       /\ fst (evalExpressionLabel metricID label code rawValue value w)
          = match Run prog e with
            | Some result => Ok (Sprint result)
            | None => Err (ErrEvaluateLabel code)
            end
       /\ forall result, Run prog e = Some result ->
            currentState (label +:+ "@" +:+ metricID)
              (snd (evalExpressionLabel metricID label code rawValue value w))
            = {| Offset := Offset (dynamic ms);
                 LastRawValue := LastRawValue (dynamic ms);
                 LastExprValue := value;
                 LastExprRawValue := LastExprRawValue (dynamic ms);
                 LastExprResult := LastExprResult (dynamic ms);
                 LastExprResultString := Sprint result;
                 LastExprTimestamp := clock w |}.
Proof.
  split; [vm_compute; reflexivity|].
  intros E metricID label code rawValue value w ms w1 prog Hget Hprog.
  destruct (getMetricState_touches (label +:+ "@" +:+ metricID) w) as [(Hc & _) _].
  rewrite Hget in Hc. simpl in Hc. cbv zeta.
  rewrite (evalExpressionLabel_compiled _ _ _ _ _ _ _ _ _ Hget Hprog), Hc.
  pose proof (updateEnv_lookup rawValue value
                (VString (LastExprResultString (dynamic ms)))
                (clock w) (dynamic ms) (env ms)) as (H1 & H2 & H3 & H4 & H5).
  do 5 (split; [assumption|]). split.
  - destruct (Run prog _); reflexivity.
  - intros result ->. cbn [snd]. rewrite currentState_storeIn. reflexivity.
Qed.

Lemma LoadConfig_fills_defaults_witness :
  exists c cache mqtt,
    LoadConfig (fun _ => true) counterConfig = Loaded c
    /\ Cache c = Some cache /\ cache = CacheConfigDefaults
    /\ MQTT c = Some mqtt
    /\ ObjectPerTopic mqtt = Some {| Encoding := EncodingJSON |}.
Proof.
  assert (H : exists c, LoadConfig (fun _ => true) counterConfig = Loaded c)
    by (eexists; reflexivity).
  destruct H as [c H].
  destruct (LoadConfig_fills_defaults _ _ _ H)
    as (mqtt & cache & j & Hm & Hc & _ & _ & _ & _ & _ & Hmqtt & _ & Hcache & _).
  exists c, cache, mqtt. split; [exact H|]. split; [exact Hc|].
  split; [by apply Hcache|]. split; [exact Hm|].
  rewrite (Hmqtt eq_refl). reflexivity.
Defined.

Lemma LoadConfig_loaded_rules_witness :
  exists c,
    LoadConfig (fun _ => true) counterConfig = Loaded c
    /\ Forall (fun m => passes m /\ TopicPathFilter m <> None
                        /\ (MQTTName m = "" -> PrometheusName m = ""))
              (flat_map Metrics (Blocks c)).
Proof.
  assert (H : exists c, LoadConfig (fun _ => true) counterConfig = Loaded c)
    by (eexists; reflexivity).
  destruct H as [c H]. exists c. split; [exact H|].
  exact (proj2 (LoadConfig_loaded_rules _ _ _ H)).
Defined.

Lemma stateless_rule_witness :
  snd (parseMetric (mappingRule None) "state" (VString "RUNNING")
         (freshWorld "/var/lib/mqtt2prometheus" noon))
  = freshWorld "/var/lib/mqtt2prometheus" noon.
Proof.
  exact (proj1 (stateless_rule (mappingRule None) "state" (VString "RUNNING")
                  (freshWorld "/var/lib/mqtt2prometheus" noon)
                  eq_refl eq_refl eq_refl eq_refl)).
Defined.

Lemma returned_metric_witness :
  exists m w',
    parseMetric (labelRule "raw_value" None) "level" (VString "1")
      (freshWorld "/var/lib/mqtt2prometheus" noon) = (Ok m, w')
    /\ IngestTime m = noon
    /\ forall k, k ∈ LabelsKeys m <-> is_Some (default ∅ (Labels m) !! k).
Proof.
  destruct (parseMetric (labelRule "raw_value" None) "level" (VString "1")
              (freshWorld "/var/lib/mqtt2prometheus" noon)) as [res w'] eqn:H.
  assert (Hres : exists m, res = Ok m).
  { change res with (fst (res, w')). rewrite <- H. vm_compute. eauto. }
  destruct Hres as [m ->]. exists m, w'. split; [reflexivity|].
  destruct (returned_metric _ _ _ _ _ _ H) as (_ & _ & Ht & _ & Hk).
  split; [exact Ht|exact Hk].
Defined.

Lemma getMetricState_cache_hit_witness :
  exists ms w1,
    getMetricState "energy_total" (freshWorld "/var/lib/mqtt2prometheus" noon)
    = (Ok ms, w1)
    /\ getMetricState "energy_total" w1 = (Ok ms, w1).
Proof.
  destruct (getMetricState "energy_total"
              (freshWorld "/var/lib/mqtt2prometheus" noon)) as [res w1] eqn:H.
  assert (Hres : exists ms, res = Ok ms).
  { change res with (fst (res, w1)). rewrite <- H. vm_compute. eauto. }
  destruct Hres as [ms ->]. exists ms, w1. split; [reflexivity|].
  exact (proj1 (proj2 (getMetricState_cache_hit _ _ _ _ H))).
Defined.

Lemma state_written_when_due_witness :
  exists w1,
    getMetricState "energy_total" (freshWorld "/var/lib/mqtt2prometheus" noon)
    = (Ok (set_lastWritten noon zeroMetricState), w1)
    /\ files w1
       = <["/var/lib/mqtt2prometheus/energy_total.yaml" := FileState zeroDynamicState]> ∅.
Proof.
  destruct (state_written_when_due "energy_total"
              (freshWorld "/var/lib/mqtt2prometheus" noon) eq_refl) as [_ H].
  destruct H as (w1 & Hget & Hfiles);
    [reflexivity|reflexivity|apply Z.leb_le; reflexivity|].
  exists w1. split; [exact Hget|exact Hfiles].
Defined.

Lemma reset_flushed_on_next_access_witness :
  exists out w2 ms2,
    enforceMonotonicy "energy_total" 15
      (worldWithFile "/var/lib/mqtt2prometheus" "energy_total"
         (FileState (set_LastRawValue 20 zeroDynamicState)) noon)
    = (Ok out, w2)
    /\ states (parser w2) !! "energy_total" = Some ms2
    /\ lastWritten ms2 = zeroTime
    /\ Offset (dynamic ms2) = (0 + 20)%float.
Proof.
  destruct (getMetricState "energy_total"
              (worldWithFile "/var/lib/mqtt2prometheus" "energy_total"
                 (FileState (set_LastRawValue 20 zeroDynamicState)) noon))
    as [res w1] eqn:H.
  assert (Hres : res = Ok {| dynamic := set_LastRawValue 20 zeroDynamicState;
                             lastWritten := noon; program := None; env := ∅ |}).
  { change res with (fst (res, w1)). rewrite <- H. vm_compute. reflexivity. }
  subst res.
  destruct (reset_flushed_on_next_access "energy_total" 15 _ _ w1 H eq_refl)
    as (out & w2 & ms2 & He & _ & Hs & Hl & Ho & _).
  exists out, w2, ms2. auto.
Defined.

Lemma no_reset_passes_through_witness :
  Forall2 (fun tv res => forall out, res = Ok out -> (out =? snd tv)%float = true)
    [(noon, 10%float); (noon, 20%float); (noon, 25%float)]
    (fst (feed "energy_total"
            [(noon, 10%float); (noon, 20%float); (noon, 25%float)]
            (freshWorld "/var/lib/mqtt2prometheus" noon))).
Proof.
  assert (H1 : Forall (fun tv : Time * float => nonnegative (snd tv))
                 [(noon, 10%float); (noon, 20%float); (noon, 25%float)])
    by repeat constructor.
  assert (H2 : nonnegativeState
                 (currentState "energy_total"
                    (freshWorld "/var/lib/mqtt2prometheus" noon)))
    by (split; reflexivity).
  assert (H3 : Sorted float_le
                 (LastRawValue (currentState "energy_total"
                                  (freshWorld "/var/lib/mqtt2prometheus" noon))
                  :: map snd [(noon, 10%float); (noon, 20%float); (noon, 25%float)]))
    by repeat constructor.
  destruct (no_reset_passes_through "energy_total" _ _ H1 H2 H3) as (_ & _ & H).
  apply H. reflexivity.
Defined.

Lemma LoadConfig_fixed_point_witness :
  exists c,
    LoadConfig (fun _ => true) counterConfig = Loaded c
    /\ LoadConfig (fun _ => true) c = Loaded c.
Proof.
  assert (H : exists c, LoadConfig (fun _ => true) counterConfig = Loaded c)
    by (eexists; reflexivity).
  destruct H as [c H]. exists c. split; [exact H|].
  exact (LoadConfig_fixed_point _ _ _ H).
Defined.

Lemma scale_applied_last_witness :
  snd (parseMetric (set_MQTTValueScale 1000 monotonicRule) "energy_total"
         (VFloat 10) (freshWorld "/var/lib/mqtt2prometheus" noon))
  = snd (parseMetric (set_MQTTValueScale 0 monotonicRule) "energy_total"
           (VFloat 10) (freshWorld "/var/lib/mqtt2prometheus" noon)).
Proof.
  exact (proj1 (scale_applied_last monotonicRule "energy_total" (VFloat 10)
                  (freshWorld "/var/lib/mqtt2prometheus" noon) 1000 eq_refl)).
Defined.

Lemma output_not_below_input_witness :
  exists out w',
    enforceMonotonicy "energy_total" 10
      (freshWorld "/var/lib/mqtt2prometheus" noon) = (Ok out, w')
    /\ float_le 10 out.
Proof.
  destruct (enforceMonotonicy "energy_total" 10
              (freshWorld "/var/lib/mqtt2prometheus" noon)) as [res w'] eqn:H.
  assert (Hres : exists out, res = Ok out).
  { change res with (fst (res, w')). rewrite <- H. vm_compute. eauto. }
  destruct Hres as [out ->]. exists out, w'. split; [reflexivity|].
  refine (proj1 (output_not_below_input _ _ _ _ _ _ _ H));
    [reflexivity|split; reflexivity].
Defined.

Lemma loaded_rules_are_found_witness :
  exists c,
    LoadConfig (fun _ => true) counterConfig = Loaded c
    /\ withDefaultName (resolve monotonicRule zeroMetricConfig MetricConfigDefaults)
       ∈ findMetricConfigs (NewParser (Blocks c) "." "/var/lib/mqtt2prometheus/")
           "energy_total" "meter".
Proof.
  assert (H : exists c, LoadConfig (fun _ => true) counterConfig = Loaded c)
    by (eexists; reflexivity).
  destruct H as [c H]. exists c. split; [exact H|].
  exact (proj1 (loaded_rules_are_found _ _ _ "." "/var/lib/mqtt2prometheus/"
                  "meter" _ H (list_elem_of_here _ _) I)).
Defined.

Lemma labels_order_independent_witness :
  exists labels,
    fst (dynamicLabels twoLabelRule "level" (VString "1") 1
           (freshWorld "/var/lib/mqtt2prometheus" noon)) = Ok (Some labels)
    /\ fst (evalLabels "level"
              (reverse (map_to_list (entries (DynamicLabels twoLabelRule))))
              (VString "1") 1 ∅ (freshWorld "/var/lib/mqtt2prometheus" noon))
       = Ok labels.
Proof.
  destruct (dynamicLabels twoLabelRule "level" (VString "1") 1
              (freshWorld "/var/lib/mqtt2prometheus" noon)) as [res w'] eqn:H.
  assert (Hres : exists ls, res = Ok (Some ls)).
  { change res with (fst (res, w')). rewrite <- H. vm_compute. eauto. }
  destruct Hres as [ls ->]. exists ls. split; [reflexivity|].
  destruct (proj1 (labels_order_independent twoLabelRule "level" (VString "1") 1
                     (reverse (map_to_list (entries (DynamicLabels twoLabelRule))))
                     (freshWorld "/var/lib/mqtt2prometheus" noon)
                     (reverse_Permutation _) ls w') H) as [_ Hr].
  by rewrite Hr.
Defined.

End MoreExamples.
